(** * UART register accessor: the frame codec and the bit packing of
      [gen_uart_regs.py]

    The generator [gen_python_code] emits the module [uart_regs.py]; the
    class [UartRegs] of that module is what this development embeds:
    [read_regs], [print_regs], [write_regs], [read_back_missing_out_regs]
    and the command-line [WriteAction].

    - bytes are [Z] values in [0, 256);
    - the bit strings that Python builds with [f"{v:0{n}b}"] and parses with
      [int(s, 2)] are [list ascii];
    - a [dict] from register names to integers is a [gmap string Z];
    - the caller's dict is an object in a heap, so that aliasing between the
      caller's mapping and the internal copy is visible;
    - the serial port is a queue of pending input bytes and a log of the
      calls made on it. *)

From Stdlib Require Import ZArith List Ascii String Lia DecimalString HexString.
From stdpp Require Import base gmap list strings fin_maps.

Local Open Scope Z_scope.

(** ** Register schema *)

(** [mode_str]: ['in'] or ['out'] (checked by [RegisterAction]). *)
Inductive Mode := ModeIn | ModeOut.

(** [type_str]: the four types accepted by [RegisterAction]. *)
Inductive DataType := unsigned | signed | std_logic_vector | std_logic.

(** One tuple [(name, mode, length, data_type)] of the generated
    [registers] list. *)
Record Register := mkReg {
  reg_name : string;
  reg_mode : Mode;
  reg_length : Z;
  reg_type : DataType
}.

#[global] Instance Mode_eq_dec : EqDecision Mode.
Proof. solve_decision. Defined.

#[global] Instance DataType_eq_dec : EqDecision DataType.
Proof. solve_decision. Defined.

Definition is_out (r : Register) : bool :=
  match reg_mode r with ModeOut => true | ModeIn => false end.

Definition is_in (r : Register) : bool :=
  match reg_mode r with ModeIn => true | ModeOut => false end.

Definition is_signed (r : Register) : bool :=
  match reg_type r with signed => true | _ => false end.

(** What [RegisterAction] guarantees about the list it collects: names are
    used once and every bit length is positive. *)
Definition valid_schema (registers : list Register) : Prop :=
  NoDup (map reg_name registers) ∧ Forall (λ r, 0 < reg_length r) registers.

(** ** Protocol constants *)

Definition READ_REQ : Z := 0x0A.
Definition START_WRITE : Z := 0x0B.
Definition END_WRITE : Z := 0x0C.
Definition ESCAPE : Z := 0x0D.

Definition is_byte (b : Z) : Prop := 0 ≤ b < 256.

(** ** Exceptions and results *)

Inductive exn :=
  | ValueError (msg : string)
  | IOError (msg : string)
  | KeyError (key : string)
  | SystemExit (code : Z)
  | ParserError (msg : string).

Inductive outcome (A : Type) :=
  | Ret (a : A)
  | Raise (e : exn).
Arguments Ret {A} a.
Arguments Raise {A} e.

(** ** Python's integer formatting and parsing *)

(** [str(v)] for an integer. *)
Definition str_Z (v : Z) : string := NilZero.string_of_int (Z.to_int v).

(** The digits of [bin(p)] without the prefix. *)
Fixpoint bin_pos (p : positive) : list ascii :=
  match p with
  | xH => ["1"%char]
  | xO q => bin_pos q ++ ["0"%char]
  | xI q => bin_pos q ++ ["1"%char]
  end.

Definition bin_digits (v : Z) : list ascii :=
  match v with
  | Z0 => ["0"%char]
  | Zpos p => bin_pos p
  | Zneg p => bin_pos p
  end.

(** Left padding with ['0'] up to [width] characters. *)
Definition zfill (width : nat) (s : list ascii) : list ascii :=
  replicate (width - length s) "0"%char ++ s.

(** [f"{v:0{width}b}"]: binary digits, zero padded to [width]; a negative
    number keeps its sign in front of the padding. *)
Definition format_0b (width : Z) (v : Z) : list ascii :=
  if v <? 0
  then "-"%char :: zfill (Z.to_nat width - 1) (bin_digits v)
  else zfill (Z.to_nat width) (bin_digits v).

Definition bit_val (c : ascii) : option Z :=
  if decide (c = "0"%char) then Some 0
  else if decide (c = "1"%char) then Some 1
  else None.

Fixpoint int2_acc (acc : Z) (s : list ascii) : option Z :=
  match s with
  | [] => Some acc
  | c :: s' =>
      match bit_val c with
      | Some b => int2_acc (2 * acc + b) s'
      | None => None
      end
  end.

(** [int(s, 2)] on the strings this module passes to it (characters ['0']
    and ['1'] only); [None] stands for Python's [ValueError], raised for the
    empty string and for any other character. *)
Definition int2 (s : list ascii) : option Z :=
  match s with
  | [] => None
  | _ => int2_acc 0 s
  end.

Definition int2_error (s : list ascii) : exn :=
  ValueError ("invalid literal for int() with base 2: '"
              +:+ string_of_list_ascii s +:+ "'").

(** Python slices with non-negative bounds, [s[start:stop]], and the
    suffix slice [s[-n:]] (which is all of [s] when [n] is [0]). *)
Definition py_slice {A} (start stop : Z) (s : list A) : list A :=
  take (Z.to_nat (stop - start)) (drop (Z.to_nat start) s).

Definition py_suffix {A} (n : nat) (s : list A) : list A :=
  if decide (n = 0%nat) then s else drop (length s - n) s.

(** ** [write_regs]: building the bit string *)

(** The range check of [write_regs]; [1 << n] is [Z.shiftl 1 n]. *)
Definition out_of_range (r : Register) (value : Z) : bool :=
  if is_signed r
  then (Z.shiftl 1 (reg_length r - 1) <=? value)
       || (value <? - Z.shiftl 1 (reg_length r - 1))
  else (value <? 0) || (Z.shiftl 1 (reg_length r) <=? value).

Definition range_error (r : Register) (value : Z) : exn :=
  ValueError ("The value " +:+ str_Z value +:+ " for register "
              +:+ reg_name r +:+ " exceeds the " +:+ str_Z (reg_length r)
              +:+ "-bit length allowed for "
              +:+ (if is_signed r then "signed." else "unsigned.")).

Definition value_bits (r : Register) (value : Z) : list ascii :=
  if is_signed r && (value <? 0)
  then format_0b (reg_length r)
         (Z.land value (Z.shiftl 1 (reg_length r) - 1))
  else format_0b (reg_length r) value.

(** The loop over [reversed(registers)] that grows [write_data_bits]. *)
Fixpoint pack_loop (write_values : gmap string Z) (regs : list Register)
    (write_data_bits : list ascii) : outcome (list ascii) :=
  match regs with
  | [] => Ret write_data_bits
  | r :: rest =>
      if is_out r then
        match write_values !! reg_name r with
        | None => Raise (KeyError (reg_name r))
        | Some value =>
            if out_of_range r value then Raise (range_error r value)
            else pack_loop write_values rest
                   (write_data_bits ++ value_bits r value)
        end
      else pack_loop write_values rest write_data_bits
  end.

(** Padding to a multiple of eight bits. *)
Definition pad_bits (write_data_bits : list ascii) : list ascii :=
  let padding_length := ((8 - length write_data_bits mod 8) mod 8)%nat in
  write_data_bits ++ replicate padding_length "0"%char.

Definition pack_bits (registers : list Register)
    (write_values : gmap string Z) : outcome (list ascii) :=
  match pack_loop write_values (rev registers) [] with
  | Ret bits => Ret (pad_bits bits)
  | Raise e => Raise e
  end.

(** ** [write_regs]: bytes and escaping *)

Definition is_control (b : Z) : bool :=
  bool_decide (b ∈ [READ_REQ; START_WRITE; END_WRITE; ESCAPE]).

(** What one iteration appends to [write_bytes]. *)
Definition escape_byte (byte_value : Z) : list Z :=
  if is_control byte_value then [ESCAPE; byte_value] else [byte_value].

(** [range(0, stop, 8)]. *)
Definition py_range8 (stop : nat) : list Z :=
  map (λ k, 8 * Z.of_nat k) (seq 0 ((stop + 7) / 8)).

Fixpoint frame_loop (write_data_bits : list ascii) (idx : list Z)
    (write_bytes : list Z) : outcome (list Z) :=
  match idx with
  | [] => Ret write_bytes
  | i :: idx' =>
      match int2 (py_slice i (i + 8) write_data_bits) with
      | None => Raise (int2_error (py_slice i (i + 8) write_data_bits))
      | Some byte_value =>
          frame_loop write_data_bits idx'
            (write_bytes ++ escape_byte byte_value)
      end
  end.

Definition build_frame (write_data_bits : list ascii) : outcome (list Z) :=
  match frame_loop write_data_bits
          (py_range8 (length write_data_bits)) [START_WRITE] with
  | Ret write_bytes => Ret (write_bytes ++ [END_WRITE])
  | Raise e => Raise e
  end.

(** The frame those lines produce when the byte values are [payload]. *)
Definition frame_of (payload : list Z) : list Z :=
  START_WRITE :: flat_map escape_byte payload ++ [END_WRITE].

(** The byte values [int(write_data_bits[i:i + 8], 2)] on their own. *)
Fixpoint byte_values (write_data_bits : list ascii) (idx : list Z)
    : outcome (list Z) :=
  match idx with
  | [] => Ret []
  | i :: idx' =>
      match int2 (py_slice i (i + 8) write_data_bits) with
      | None => Raise (int2_error (py_slice i (i + 8) write_data_bits))
      | Some b =>
          match byte_values write_data_bits idx' with
          | Raise e => Raise e
          | Ret bs => Ret (b :: bs)
          end
      end
  end.

(** The region bytes of the out direction: the packed bit string cut into
    bytes, before escaping. *)
Definition pack_bytes (registers : list Register)
    (write_values : gmap string Z) : outcome (list Z) :=
  match pack_bits registers write_values with
  | Raise e => Raise e
  | Ret bits => byte_values bits (py_range8 (length bits))
  end.

(** ** [read_regs]: the receive loop *)

(** One run of the [while True] loop over the bytes the port will deliver;
    an exhausted queue is the read that times out ([exit(1)]). The result
    comes with the bytes left in the queue. *)
Fixpoint recv_loop (rx : list Z) (prev_byte : option Z)
    (receiving_data escape_next : bool) (data : list Z)
    : outcome (list Z) * list Z :=
  match rx with
  | [] => (Raise (SystemExit 1), [])
  | byte :: rx' =>
      if bool_decide (byte = START_WRITE)
         && negb (bool_decide (prev_byte = Some ESCAPE))
      then recv_loop rx' (Some byte) true escape_next data
      else if receiving_data then
        if bool_decide (byte = END_WRITE) && negb escape_next
        then (Ret data, rx')
        else if negb (bool_decide (byte = ESCAPE)) || escape_next
        then recv_loop rx' (Some byte) receiving_data false (data ++ [byte])
        else if bool_decide (byte = ESCAPE)
        then recv_loop rx' (Some byte) receiving_data true data
        else recv_loop rx' (Some byte) receiving_data escape_next data
      else recv_loop rx' (Some byte) receiving_data escape_next data
  end.

(** The loop from the initial values of its variables. *)
Definition recv_frame (rx : list Z) : outcome (list Z) * list Z :=
  recv_loop rx None true false [].

(** ** [read_regs]: extracting the register values *)

Definition regs_length (m : Mode) (registers : list Register) : Z :=
  foldr Z.add 0
    (map reg_length (filter (λ r, reg_mode r = m) registers)).

(** [math.ceil(n / 8) * 8] (Python takes the quotient as a float, which
    is exact for the bit counts of a register list). *)
Definition pad8 (n : Z) : Z := (n + 7) / 8 * 8.

Definition in_regs_length (registers : list Register) : Z :=
  pad8 (regs_length ModeIn registers).
Definition out_regs_length (registers : list Register) : Z :=
  pad8 (regs_length ModeOut registers).
Definition expected_bytes (registers : list Register) : Z :=
  (in_regs_length registers + out_regs_length registers) / 8.

(** The eight-digit numerals [f"{byte:08b}"] of the bytes of [data],
    joined. *)
Definition join_bits (data : list Z) : list ascii :=
  concat (map (format_0b 8) data).

Definition extract_bits (value : list ascii) (start end_ : Z) : list ascii :=
  py_slice start (end_ + 1) value.

Fixpoint extract_loop (regs : list Register) (in_regs out_regs : list ascii)
    (start_bit_in start_bit_out : Z) (regs_values : gmap string Z)
    : outcome (gmap string Z) :=
  match regs with
  | [] => Ret regs_values
  | r :: rest =>
      match reg_mode r with
      | ModeIn =>
          let end_bit := start_bit_in + reg_length r in
          let value := extract_bits in_regs start_bit_in (end_bit - 1) in
          match int2 value with
          | None => Raise (int2_error value)
          | Some v =>
              extract_loop rest in_regs out_regs end_bit start_bit_out
                (<[reg_name r := v]> regs_values)
          end
      | ModeOut =>
          let end_bit := start_bit_out + reg_length r in
          let value := extract_bits out_regs start_bit_out (end_bit - 1) in
          match int2 value with
          | None => Raise (int2_error value)
          | Some v =>
              extract_loop rest in_regs out_regs start_bit_in end_bit
                (<[reg_name r := v]> regs_values)
          end
      end
  end.

(** The part of [read_regs] after the receive loop: the length check and
    the extraction. *)
Definition decode_values (registers : list Register) (data : list Z)
    : outcome (gmap string Z) :=
  if bool_decide (Z.of_nat (length data) ≠ expected_bytes registers)
  then Raise (IOError ("Received " +:+ str_Z (Z.of_nat (length data))
                       +:+ " bytes, but expected "
                       +:+ str_Z (expected_bytes registers) +:+ " bytes."))
  else
    let in_regs :=
      py_suffix (Z.to_nat (in_regs_length registers))
        (join_bits (py_suffix (Z.to_nat (in_regs_length registers / 8)) data)) in
    let out_regs :=
      py_suffix (Z.to_nat (out_regs_length registers))
        (join_bits (take (Z.to_nat (out_regs_length registers / 8)) data)) in
    extract_loop (rev registers) in_regs out_regs 0 0 ∅.

(** ** [print_regs]: the "Int val" column *)

(** [None] is the empty string shown for the types without an integer
    reading. *)
Definition int_val (r : Register) (value : Z) : option Z :=
  match reg_type r with
  | unsigned => Some value
  | signed =>
      let bit_length := reg_length r in
      Some (if bool_decide (Z.land value (Z.shiftl 1 (bit_length - 1)) ≠ 0)
            then value - Z.shiftl 1 bit_length
            else value)
  | _ => None
  end.

(** ** The serial port and the heap *)

(** A call on the port: [write(data)] with the count it returned, or
    [read(1)] with the byte it returned ([None] for a timeout). *)
Inductive io_event :=
  | Sent (data : list Z) (written : nat)
  | Recv (byte : option Z).

(** [ser_rx]: the bytes the device will deliver; [ser_room]: how many
    bytes the port still accepts ([None]: no limit); [ser_log]: the calls
    made so far, oldest first. *)
Record serial := mkSerial {
  ser_rx : list Z;
  ser_room : option nat;
  ser_log : list io_event
}.

(** [self.ser.write(data)]. *)
Definition ser_write (data : list Z) (s : serial) : nat * serial :=
  let n := match ser_room s with
           | None => length data
           | Some k => Nat.min k (length data)
           end in
  (n, {| ser_rx := ser_rx s;
         ser_room := (λ k, (k - n)%nat) <$> ser_room s;
         ser_log := ser_log s ++ [Sent data n] |}).

(** The [read(1)] calls of one run of the receive loop over [rx] that
    left [rest] in the queue. *)
Definition recv_events (rx rest : list Z) (res : outcome (list Z))
    : list io_event :=
  map (λ b, Recv (Some b)) (take (length rx - length rest) rx)
  ++ match res with Ret _ => [] | Raise _ => [Recv None] end.

Definition loc := positive.

Record world := mkWorld {
  heap : gmap loc (gmap string Z);
  port : serial
}.

(** The dict a reference points to (references are handed out by [alloc]
    and by the caller, and are always bound). *)
Definition deref (w : world) (l : loc) : gmap string Z :=
  default ∅ (heap w !! l).

Definition alloc (d : gmap string Z) (w : world) : loc * world :=
  let l := fresh (dom (heap w)) in
  (l, {| heap := <[l := d]> (heap w); port := port w |}).

Definition store (l : loc) (d : gmap string Z) (w : world) : world :=
  {| heap := <[l := d]> (heap w); port := port w |}.

Definition with_port (w : world) (p : serial) : world :=
  {| heap := heap w; port := p |}.

(** ** [read_regs] *)

Definition read_regs (registers : list Register) (w : world)
    : outcome (gmap string Z) * world :=
  let (_, p1) := ser_write [READ_REQ] (port w) in
  let (res, rest) := recv_frame (ser_rx p1) in
  let p2 := {| ser_rx := rest;
               ser_room := ser_room p1;
               ser_log := ser_log p1 ++ recv_events (ser_rx p1) rest res |} in
  match res with
  | Raise e => (Raise e, with_port w p2)
  | Ret data => (decode_values registers data, with_port w p2)
  end.

(** ** [read_back_missing_out_regs] *)

Definition out_register_names (registers : list Register) : list string :=
  map reg_name (filter (λ r, reg_mode r = ModeOut) registers).

(** [for name in missing_values:
       complete_write_values[name] = current_values[name]]. *)
Fixpoint fill_missing (missing_values : list string)
    (current_values : gmap string Z) (complete_write_values : loc)
    (w : world) : outcome unit * world :=
  match missing_values with
  | [] => (Ret tt, w)
  | name :: rest =>
      match current_values !! name with
      | None => (Raise (KeyError name), w)
      | Some v =>
          fill_missing rest current_values complete_write_values
            (store complete_write_values
               (<[name := v]> (deref w complete_write_values)) w)
      end
  end.

(** [[name for name, mode, _, _ in registers
        if mode == 'out' and name not in complete_write_values]]. *)
Definition missing_out (registers : list Register)
    (complete_write_values : gmap string Z) : list string :=
  filter (λ name, complete_write_values !! name = None)
    (out_register_names registers).

(** The [if missing_values:] block, for the copy [complete_write_values]. *)
Definition merge_missing (registers : list Register)
    (complete_write_values : loc) (w1 : world) : outcome loc * world :=
  let missing_values :=
    missing_out registers (deref w1 complete_write_values) in
  match missing_values with
  | [] => (Ret complete_write_values, w1)
  | _ =>
      match read_regs registers w1 with
      | (Raise e, w2) => (Raise e, w2)
      | (Ret current_values, w2) =>
          match fill_missing missing_values current_values
                  complete_write_values w2 with
          | (Raise e, w3) => (Raise e, w3)
          | (Ret _, w3) => (Ret complete_write_values, w3)
          end
      end
  end.

Definition read_back_missing_out_regs (registers : list Register)
    (write_values : loc) (w : world) : outcome loc * world :=
  let (complete_write_values, w1) := alloc (deref w write_values) w in
  merge_missing registers complete_write_values w1.

(** ** [write_regs] *)

Definition write_regs (registers : list Register) (write_values : loc)
    (w : world) : outcome unit * world :=
  match read_back_missing_out_regs registers write_values w with
  | (Raise e, w1) => (Raise e, w1)
  | (Ret write_values, w1) =>
      match pack_bits registers (deref w1 write_values) with
      | Raise e => (Raise e, w1)
      | Ret write_data_bits =>
          match build_frame write_data_bits with
          | Raise e => (Raise e, w1)
          | Ret write_bytes =>
              let (bytes_written, p) := ser_write write_bytes (port w1) in
              if bool_decide (bytes_written ≠ length write_bytes)
              then (Raise (IOError
                      ("Write failed! " +:+ str_Z (Z.of_nat bytes_written)
                       +:+ " bytes written out of "
                       +:+ str_Z (Z.of_nat (length write_bytes)))),
                    with_port w1 p)
              else (Ret tt, with_port w1 p)
          end
      end
  end.

(** ** The ranges the registers can represent *)

(** The representable range of a register, as the bit packer is specified:
    [0 ≤ v < 2^n] for the unsigned kinds and [-2^(n-1) ≤ v < 2^(n-1)] for
    [signed]. *)
Definition representable (r : Register) (v : Z) : Prop :=
  match reg_type r with
  | signed => - 2 ^ (reg_length r - 1) ≤ v < 2 ^ (reg_length r - 1)
  | _ => 0 ≤ v < 2 ^ reg_length r
  end.

(** A mapping that has a value for every out-direction register. *)
Definition covers_out (registers : list Register)
    (write_values : gmap string Z) : Prop :=
  ∀ r, r ∈ registers → reg_mode r = ModeOut →
       is_Some (write_values !! reg_name r).

(** The bit pattern of [v] in an [n]-bit register. *)
Definition pattern (r : Register) (v : Z) : Z := v mod 2 ^ reg_length r.

(** ** Fixed-width numerals *)

Definition bit_char (b : bool) : ascii := if b then "1"%char else "0"%char.

(** The [w]-bit numeral of [v], most significant bit first. *)
Fixpoint bits_of (w : nat) (v : Z) : list ascii :=
  match w with
  | O => []
  | S w' => bits_of w' (Z.div2 v) ++ [bit_char (Z.odd v)]
  end.

Definition is_bit (c : ascii) : Prop := c = "0"%char ∨ c = "1"%char.

(** A string cut into [k] pieces of eight characters. *)
Fixpoint split8 (k : nat) (s : list ascii) : list (list ascii) :=
  match k with
  | O => []
  | S k' => take 8 s :: split8 k' (drop 8 s)
  end.

(** A piece of eight bits. *)
Definition octet (c : list ascii) : Prop :=
  length c = 8%nat ∧ Forall is_bit c.

(** The byte a piece stands for. *)
Definition octet_val (c : list ascii) : Z := default 0 (int2 c).

(** The bits [write_regs] appends for the out-direction registers of
    [regs], in the order of [regs]. *)
Definition out_chunks (write_values : gmap string Z) (regs : list Register)
    : list ascii :=
  concat (map (λ r, value_bits r (default 0 (write_values !! reg_name r)))
              (filter (λ r, reg_mode r = ModeOut) regs)).

(** The two-register schema of the packing example. *)
Definition regs_ab : list Register :=
  [ mkReg "a" ModeOut 1 std_logic; mkReg "b" ModeOut 8 std_logic_vector ].

(** The region string and the running start bit of a direction. *)
Definition region_of (m : Mode) (in_regs out_regs : list ascii)
    : list ascii :=
  match m with ModeIn => in_regs | ModeOut => out_regs end.

Definition start_of (m : Mode) (start_bit_in start_bit_out : Z) : Z :=
  match m with ModeIn => start_bit_in | ModeOut => start_bit_out end.

(** The two's-complement reading of an [n]-bit pattern: a pattern of at
    least [2^(n-1)] stands for the pattern minus [2^n]. *)
Definition twos_complement (n p : Z) : Z :=
  if decide (2 ^ (n - 1) ≤ p) then p - 2 ^ n else p.

(** The 4-bit signed out register of the signed examples. *)
Definition regs_s4 : list Register := [ mkReg "s" ModeOut 4 signed ].

(** A mapping that gives every out-direction register a value in its
    representable range. *)
Definition in_range_values (registers : list Register)
    (write_values : gmap string Z) : Prop :=
  ∀ r, r ∈ registers → reg_mode r = ModeOut →
       ∃ v, write_values !! reg_name r = Some v ∧ representable r v.

(** The world in which the caller's reference [l] holds one more entry. *)
Definition with_entry (l : loc) (name : string) (value : Z)
    (d : gmap string Z) (w : world) : world :=
  {| heap := <[l := <[name := value]> d]> (heap w); port := port w |}.

(** A value outside the representable range of an out-direction
    register. *)
Definition has_bad_value (registers : list Register)
    (write_values : gmap string Z) : Prop :=
  ∃ r v, r ∈ registers ∧ reg_mode r = ModeOut
         ∧ write_values !! reg_name r = Some v ∧ ¬ representable r v.

(** Two mappings with the same entries for the out-direction registers. *)
Definition agree_out (registers : list Register)
    (d1 d2 : gmap string Z) : Prop :=
  ∀ n, n ∈ out_register_names registers → d1 !! n = d2 !! n.

(** The [IOError] of a short write. *)
Definition short_write_error (bytes_written total : nat) : exn :=
  IOError ("Write failed! " +:+ str_Z (Z.of_nat bytes_written)
           +:+ " bytes written out of " +:+ str_Z (Z.of_nat total)).

(** The port after a [read_regs] that received the frame of [data] and
    left [rest] in the queue. *)
Definition port_after_read (p : serial) (data rest : list Z) : serial :=
  {| ser_rx := rest;
     ser_room := ser_room (snd (ser_write [READ_REQ] p));
     ser_log := ser_log p
                ++ Sent [READ_REQ] (fst (ser_write [READ_REQ] p))
                   :: map (λ b, Recv (Some b)) (frame_of data) |}.

(** How many bytes of a payload have the value of a control byte. *)
Definition control_count (payload : list Z) : nat :=
  length (filter (λ b, is_control b = true) payload).

(** ** The generator: [RegisterAction] *)

(** [s.split(sep)] for a separator of one character. *)
Fixpoint split_on (sep : ascii) (s : string) : list string :=
  match s with
  | EmptyString => [EmptyString]
  | String c s' =>
      if decide (c = sep) then EmptyString :: split_on sep s'
      else match split_on sep s' with
           | h :: t => String c h :: t
           | [] => [String c EmptyString]
           end
  end.

Definition mode_of_str (mode_str : string) : option Mode :=
  if decide (mode_str = "in") then Some ModeIn
  else if decide (mode_str = "out") then Some ModeOut
  else None.

Definition type_of_str (type_str : string) : option DataType :=
  if decide (type_str = "unsigned") then Some unsigned
  else if decide (type_str = "signed") then Some signed
  else if decide (type_str = "std_logic_vector") then Some std_logic_vector
  else if decide (type_str = "std_logic") then Some std_logic
  else None.

Definition invalid_specification (value : string) : exn :=
  ParserError ("Invalid register specification " +:+ value +:+ ".").

Section RegisterAction.

(** Python's [int] on a string: [None] for the strings it rejects with
    [ValueError]. The properties below hold whatever it accepts. *)
Variable py_int : string → option Z.

(** The body of the loop over [values], for the registers collected so
    far. *)
Definition parse_register (registers : list Register) (value : string)
    : outcome Register :=
  match split_on "=" value with
  | [name; rest] =>
      if bool_decide (name ∈ map reg_name registers)
      then Raise (ParserError ("Register name '" +:+ name
                               +:+ "' can only be used once"))
      else
        let parts := split_on ":" rest in
        let length_str := hd EmptyString parts in
        match py_int length_str with
        | None => Raise (invalid_specification value)
        | Some length =>
            let mode_str :=
              if bool_decide (1 < List.length parts)%nat
              then nth 1 parts EmptyString else "in" in
            let type_str :=
              if bool_decide (2 < List.length parts)%nat
              then nth 2 parts EmptyString
              else if bool_decide (length = 1) then "std_logic"
                   else "std_logic_vector" in
            if bool_decide (length ≤ 0)
            then Raise (ParserError
                   ("Bit length for register " +:+ name
                    +:+ " must be a positive integer."))
            else
              match mode_of_str mode_str with
              | None =>
                  Raise (ParserError
                    ("Invalid mode " +:+ mode_str +:+ " for register "
                     +:+ name +:+ ". Valid modes are in or out."))
              | Some mode =>
                  match type_of_str type_str with
                  | None =>
                      Raise (ParserError
                        ("Invalid type " +:+ type_str +:+ " for register "
                         +:+ name
                         +:+ ". Valid types are unsigned, signed, std_logic_vector, or std_logic."))
                  | Some data_type =>
                      if bool_decide (data_type = std_logic)
                         && bool_decide (length ≠ 1)
                      then Raise (ParserError
                             ("Type 'std_logic' for register " +:+ name
                              +:+ " must have a bit length of 1."))
                      else Ret (mkReg name mode length data_type)
                  end
              end
        end
  | _ => Raise (invalid_specification value)
  end.

Fixpoint register_loop (values : list string) (registers : list Register)
    : outcome (list Register) :=
  match values with
  | [] => Ret registers
  | value :: rest =>
      match parse_register registers value with
      | Raise e => Raise e
      | Ret r => register_loop rest (registers ++ [r])
      end
  end.

Definition RegisterAction (values : list string)
    : outcome (list Register) :=
  match register_loop values [] with
  | Raise e => Raise e
  | Ret [] =>
      Raise (ParserError "No registers were supplied. At least one register must be specified.")
  | Ret registers => Ret registers
  end.

End RegisterAction.

(** ** The command line: [WriteAction] *)

(** The loop over [write_values.keys()]: the first name that is not an
    out-mode register ends the program through [parser.error]. A dict
    lists its keys in the order of their first insertion, so the first
    such key is the first such name among the arguments. *)
Fixpoint check_names (out_names : list string) (keys : list string)
    : outcome unit :=
  match keys with
  | [] => Ret tt
  | name :: rest =>
      if bool_decide (name ∈ out_names) then check_names out_names rest
      else Raise (ParserError ("argument -w/--write: " +:+ name
                               +:+ " is not a valid out-mode register name."))
  end.

Section WriteAction.

(** Python's [int(value, 0)]: [None] for the strings it rejects with
    [ValueError]. The properties below hold whatever it accepts. *)
Variable py_int0 : string → option Z.

(** One round of the dict comprehension: [name, value = v.split('=')]
    raises [ValueError] unless the argument has exactly two parts, then
    [int(value, 0)] raises [ValueError] on a string it rejects. The texts
    of these messages are the interpreter's. *)
Definition parse_write_value (v : string) : outcome (string * Z) :=
  match split_on "=" v with
  | [name; value] =>
      match py_int0 value with
      | Some z => Ret (name, z)
      | None => Raise (ValueError ("invalid literal for int() with base 0: '"
                                   +:+ value +:+ "'"))
      end
  | [_] => Raise (ValueError "not enough values to unpack (expected 2, got 1)")
  | _ => Raise (ValueError "too many values to unpack (expected 2)")
  end.

(** The comprehension over [values], in order: the first argument that
    does not parse ends it. *)
Fixpoint parse_write_values (values : list string)
    : outcome (list (string * Z)) :=
  match values with
  | [] => Ret []
  | v :: rest =>
      match parse_write_value v with
      | Raise e => Raise e
      | Ret kv =>
          match parse_write_values rest with
          | Raise e => Raise e
          | Ret kvs => Ret (kv :: kvs)
          end
      end
  end.

(** [values] are the raw [reg_name=value] arguments in order. The
    exceptions of the comprehension are not caught, and it runs before the
    names are checked. *)
Definition WriteAction (registers : list Register) (values : list string)
    : outcome (gmap string Z) :=
  if bool_decide (length values < 1)%nat
  then Raise (ParserError "argument -w/--write: must provide at least one out-mode register value in the format reg_name=value.")
  else
    match parse_write_values values with
    | Raise e => Raise e
    | Ret pairs =>
        match check_names (out_register_names registers) (map fst pairs) with
        | Raise e => Raise e
        | Ret _ => Ret (fold_left (λ m kv, <[kv.1 := kv.2]> m) pairs ∅)
        end
    end.

End WriteAction.

(** An argument that the comprehension turns into the pair [kv]. *)
Definition parsed_as (py_int0 : string → option Z) (v : string)
    (kv : string * Z) : Prop :=
  ∃ value, split_on "=" v = [kv.1; value] ∧ py_int0 value = Some kv.2.

(** The two strings [read_regs] cuts the received bytes into: the
    in-direction registers from the last bytes and the out-direction
    registers from the first. *)
Definition in_region (registers : list Register) (data : list Z)
    : list ascii :=
  py_suffix (Z.to_nat (in_regs_length registers))
    (join_bits (py_suffix (Z.to_nat (in_regs_length registers / 8)) data)).

Definition out_region (registers : list Register) (data : list Z)
    : list ascii :=
  py_suffix (Z.to_nat (out_regs_length registers))
    (join_bits (take (Z.to_nat (out_regs_length registers / 8)) data)).

(** The name part of a [reg_name=length:mode:type] argument. *)
Definition spec_name (value : string) : string :=
  hd EmptyString (split_on "=" value).

(** A reading of plain decimal digits, to run [RegisterAction] on
    examples. *)
Definition digit_val (c : ascii) : option Z :=
  let n := Z.of_nat (nat_of_ascii c) in
  if bool_decide (48 ≤ n ≤ 57) then Some (n - 48) else None.

Fixpoint digits_acc (acc : Z) (s : string) : option Z :=
  match s with
  | EmptyString => Some acc
  | String c s' =>
      match digit_val c with
      | Some d => digits_acc (10 * acc + d) s'
      | None => None
      end
  end.

Definition digits_int (s : string) : option Z :=
  match s with
  | EmptyString => None
  | _ => digits_acc 0 s
  end.

(** The example of the generator's help text. *)
Definition example_values : list string :=
  [ "sl=1:out"; "uns=4:in:unsigned"; "slv=8:out"; "sig=4:in:signed" ].

(** ** The generator: the VHDL slices of [gen_vhdl_code] *)

Definition type_name (t : DataType) : string :=
  match t with
  | unsigned => "unsigned"
  | signed => "signed"
  | std_logic_vector => "std_logic_vector"
  | std_logic => "std_logic"
  end.

(** [in_total_length] and [out_total_length] after they are made multiples
    of 8, and [in_bytes], [out_bytes]. *)
Definition vhdl_total_length (m : Mode) (registers : list Register) : Z :=
  ((regs_length m registers + 7) / 8) * 8.

Definition vhdl_bytes (m : Mode) (registers : list Register) : Z :=
  (vhdl_total_length m registers + 7) / 8.

(** The slice [upper downto upper - length + 1] given to a register. *)
Record vhdl_slice := mkSlice {
  slice_reg : Register;
  slice_hi : Z;
  slice_lo : Z
}.

(** The loop over [reversed(registers)] with its two upper bounds. *)
Fixpoint slice_loop (regs : list Register)
    (in_upper_bound out_upper_bound : Z) : list vhdl_slice :=
  match regs with
  | [] => []
  | r :: rest =>
      match reg_mode r with
      | ModeIn =>
          mkSlice r in_upper_bound (in_upper_bound - reg_length r + 1)
          :: slice_loop rest (in_upper_bound - reg_length r) out_upper_bound
      | ModeOut =>
          mkSlice r out_upper_bound (out_upper_bound - reg_length r + 1)
          :: slice_loop rest in_upper_bound (out_upper_bound - reg_length r)
      end
  end.

Definition vhdl_slices (registers : list Register) : list vhdl_slice :=
  slice_loop (rev registers)
    (vhdl_total_length ModeIn registers - 1)
    (vhdl_total_length ModeOut registers - 1).

(** The line of VHDL written for a slice. *)
Definition slice_line (s : vhdl_slice) : string :=
  let r := slice_reg s in
  let slice_str :=
    if bool_decide (reg_length r = 1) then str_Z (slice_hi s)
    else str_Z (slice_hi s) +:+ " downto " +:+ str_Z (slice_lo s) in
  match reg_mode r with
  | ModeIn =>
      let slice_str := "in_regs(" +:+ slice_str +:+ ")" in
      let slice_str :=
        match reg_type r with
        | unsigned | signed =>
            slice_str +:+ " <= std_logic_vector(" +:+ reg_name r +:+ ");"
        | _ => slice_str +:+ " <= " +:+ reg_name r +:+ ";"
        end in
      "  " +:+ slice_str +:+ String "010"%char EmptyString
  | ModeOut =>
      let slice_str := "out_regs(" +:+ slice_str +:+ ")" in
      let slice_str :=
        match reg_type r with
        | unsigned => "unsigned(" +:+ slice_str +:+ ")"
        | signed => "signed(" +:+ slice_str +:+ ")"
        | _ => slice_str
        end in
      "  " +:+ reg_name r +:+ " <= " +:+ slice_str +:+ ";"
      +:+ String "010"%char EmptyString
  end.

Definition vhdl_assignments (registers : list Register) : list string :=
  map slice_line (vhdl_slices registers).

(** The registers of the generator's help text. *)
Definition example_registers : list Register :=
  [ mkReg "sl" ModeOut 1 std_logic; mkReg "uns" ModeIn 4 unsigned;
    mkReg "slv" ModeOut 8 std_logic_vector; mkReg "sig" ModeIn 4 signed ].

(** ** [print_table], [print_regs], [list_regs] *)

(** What the table code can raise. *)
Inductive print_exn :=
  | PrintKeyError (key : string)
  | PrintValueError (msg : string)
  | PrintIndexError.

Definition mode_name (m : Mode) : string :=
  match m with ModeIn => "in" | ModeOut => "out" end.

Fixpoint repeat_char (c : ascii) (n : nat) : string :=
  match n with
  | O => EmptyString
  | S n' => String c (repeat_char c n')
  end.

(** [f"{s:<{width}}"]: [s] followed by spaces up to [width] characters.
    Lengths are counted in bytes, which is Python's [len] for the ASCII
    names and numerals of the tables. *)
Definition ljust (width : nat) (s : string) : string :=
  s +:+ repeat_char " " (width - String.length s).

(** [max(len(str(row[i])) for row in rows)]. *)
Fixpoint col_max (i : nat) (rows : list (list string)) : print_exn + nat :=
  match rows with
  | [] => inl (PrintValueError "max() arg is an empty sequence")
  | row :: rest =>
      match row !! i with
      | None => inl PrintIndexError
      | Some item =>
          match rest with
          | [] => inr (String.length item)
          | _ =>
              match col_max i rest with
              | inl e => inl e
              | inr m => inr (Nat.max (String.length item) m)
              end
          end
      end
  end.

(** The list [widths], computed for the columns from index [i] on. *)
Fixpoint col_widths (i : nat) (header_cols : list string)
    (rows : list (list string)) : print_exn + list nat :=
  match header_cols with
  | [] => inr []
  | col :: cols =>
      match col_max i rows with
      | inl e => inl e
      | inr m =>
          match col_widths (S i) cols rows with
          | inl e => inl e
          | inr ws => inr ((Nat.max (String.length col) m + 2)%nat :: ws)
          end
      end
  end.

(** The header line: the columns paired with their widths. *)
Fixpoint format_header (header_cols : list string) (widths : list nat)
    : string :=
  match header_cols, widths with
  | col :: cols, width :: ws => ljust width col +:+ format_header cols ws
  | _, _ => EmptyString
  end.

(** One row: item [i] padded to [widths[i]]; [None] when the row has more
    items than there are widths. *)
Fixpoint format_row (widths : list nat) (row : list string) : option string :=
  match row with
  | [] => Some EmptyString
  | item :: row' =>
      match widths with
      | [] => None
      | width :: ws =>
          match format_row ws row' with
          | None => None
          | Some s => Some (ljust width item +:+ s)
          end
      end
  end.

(** The loop that prints the rows: the lines printed, and the exception
    that ended it (if any). *)
Fixpoint print_rows (widths : list nat) (rows : list (list string))
    : list string * option print_exn :=
  match rows with
  | [] => ([], None)
  | row :: rest =>
      match format_row widths row with
      | None => ([], Some PrintIndexError)
      | Some line =>
          let (lines, e) := print_rows widths rest in (line :: lines, e)
      end
  end.

(** [print_table]: the lines printed and the exception raised, if any. *)
Definition print_table (header_cols : list string)
    (rows : list (list string)) : list string * option print_exn :=
  match col_widths 0 header_cols rows with
  | inl e => ([], Some e)
  | inr widths =>
      let header := format_header header_cols widths in
      let separator := repeat_char "=" (String.length header) in
      let (lines, e) := print_rows widths rows in
      (header :: separator :: lines, e)
  end.

Definition has_int_val (registers : list Register) : bool :=
  existsb (λ r, match reg_type r with
                | unsigned | signed => true
                | _ => false
                end) registers.

(** The rows of [print_regs] before the "Int val" column is added;
    [regs_values[name]] raises [KeyError] for a missing name. *)
Fixpoint regs_rows (registers : list Register) (regs_values : gmap string Z)
    : print_exn + list (list string) :=
  match registers with
  | [] => inr []
  | r :: rest =>
      match regs_values !! reg_name r with
      | None => inl (PrintKeyError (reg_name r))
      | Some value =>
          match regs_rows rest regs_values with
          | inl e => inl e
          | inr rows =>
              inr ([ reg_name r; str_Z (reg_length r); type_name (reg_type r);
                     mode_name (reg_mode r); HexString.of_Z value ] :: rows)
          end
      end
  end.

(** [str(int_val)] for the row of register [r]. *)
Definition int_val_cell (r : Register) (value : Z) : string :=
  match int_val r value with
  | Some z => str_Z z
  | None => EmptyString
  end.

(** The loop that appends the "Int val" item to every row. *)
Fixpoint add_int_vals (registers : list Register)
    (regs_values : gmap string Z) (rows : list (list string))
    : print_exn + list (list string) :=
  match registers, rows with
  | r :: rest, row :: rows' =>
      match regs_values !! reg_name r with
      | None => inl (PrintKeyError (reg_name r))
      | Some value =>
          match add_int_vals rest regs_values rows' with
          | inl e => inl e
          | inr rows'' => inr ((row ++ [int_val_cell r value]) :: rows'')
          end
      end
  | _, _ => inr []
  end.

Definition regs_header : list string :=
  [ "Reg name"; "Bits"; "Type"; "Mode"; "Hex val" ].

Definition print_regs (registers : list Register)
    (regs_values : gmap string Z) : list string * option print_exn :=
  let header_cols :=
    if has_int_val registers then regs_header ++ ["Int val"]
    else regs_header in
  match regs_rows registers regs_values with
  | inl e => ([], Some e)
  | inr rows =>
      if has_int_val registers then
        match add_int_vals registers regs_values rows with
        | inl e => ([], Some e)
        | inr rows' => print_table header_cols rows'
        end
      else print_table header_cols rows
  end.

Definition list_regs (registers : list Register)
    : list string * option print_exn :=
  print_table [ "Register Name"; "Bits"; "Type"; "Mode" ]
    (map (λ r, [ reg_name r; str_Z (reg_length r); type_name (reg_type r);
                 mode_name (reg_mode r) ]) registers).

(** [read_and_print_regs]: the result of [read_regs], and for a mapping
    what [print_regs] prints. *)
Definition read_and_print_regs (registers : list Register) (w : world)
    : outcome (list string * option print_exn) * world :=
  match read_regs registers w with
  | (Raise e, w') => (Raise e, w')
  | (Ret all_values, w') => (Ret (print_regs registers all_values), w')
  end.

(** Every item fits its width. *)
Definition fits (widths : list nat) (items : list string) : Prop :=
  Forall2 (λ width item, (String.length item ≤ width)%nat) widths items.

(** A table: header, separator of the same length, and lines of that
    length. *)
Definition aligned_table (printed : list string) (n_rows : nat) : Prop :=
  ∃ header lines,
    printed
    = header :: repeat_char "=" (String.length header) :: lines
    ∧ length lines = n_rows
    ∧ Forall (λ line, String.length line = String.length header) lines.

(** * Properties *)

(** ** The frame codec *)

Lemma is_control_true b :
  is_control b = true ↔
  b = READ_REQ ∨ b = START_WRITE ∨ b = END_WRITE ∨ b = ESCAPE.
Proof.
  unfold is_control. rewrite bool_decide_eq_true.
  rewrite !elem_of_cons, elem_of_nil. tauto.
Qed.

Lemma is_control_false b :
  is_control b = false ↔
  b ≠ READ_REQ ∧ b ≠ START_WRITE ∧ b ≠ END_WRITE ∧ b ≠ ESCAPE.
Proof.
  unfold is_control. rewrite bool_decide_eq_false.
  rewrite !elem_of_cons, elem_of_nil. tauto.
Qed.

(** A plain data byte is appended and clears nothing else. *)
Lemma recv_loop_plain b rx prev data :
  is_control b = false →
  recv_loop (b :: rx) prev true false data
  = recv_loop rx (Some b) true false (data ++ [b]).
Proof.
  intros (_ & Hs & He & Hx)%is_control_false. simpl.
  rewrite (bool_decide_eq_false_2 (b = START_WRITE)) by done.
  rewrite (bool_decide_eq_false_2 (b = END_WRITE)) by done.
  rewrite (bool_decide_eq_false_2 (b = ESCAPE)) by done.
  reflexivity.
Qed.

(** An escaped byte is appended whatever its value. *)
Lemma recv_loop_escaped_any b rx prev data :
  recv_loop (ESCAPE :: b :: rx) prev true false data
  = recv_loop rx (Some b) true false (data ++ [b]).
Proof.
  cbn [recv_loop].
  replace (bool_decide (ESCAPE = START_WRITE)) with false by done.
  replace (bool_decide (ESCAPE = END_WRITE)) with false by done.
  replace (bool_decide (ESCAPE = ESCAPE)) with true by done.
  rewrite (bool_decide_eq_true_2 (Some ESCAPE = Some ESCAPE)) by done.
  cbn [negb andb orb].
  rewrite !andb_false_r. cbn [negb andb orb]. rewrite ?orb_true_r.
  reflexivity.
Qed.

Lemma recv_loop_end rx prev data :
  recv_loop (END_WRITE :: rx) prev true false data = (Ret data, rx).
Proof. reflexivity. Qed.

Lemma recv_loop_body payload : ∀ rest prev data,
  recv_loop (flat_map escape_byte payload ++ END_WRITE :: rest)
    prev true false data
  = (Ret (data ++ payload), rest).
Proof.
  induction payload as [|b payload IH]; intros rest prev data.
  - cbn [flat_map app]. rewrite recv_loop_end, app_nil_r. reflexivity.
  - cbn [flat_map]. unfold escape_byte at 1.
    destruct (is_control b) eqn:Hc.
    + cbn [app]. rewrite recv_loop_escaped_any, IH, <- app_assoc.
      reflexivity.
    + cbn [app]. rewrite recv_loop_plain by done.
      rewrite IH, <- app_assoc. reflexivity.
Qed.

Lemma recv_frame_frame_of payload rest :
  recv_frame (frame_of payload ++ rest) = (Ret payload, rest).
Proof.
  unfold recv_frame, frame_of.
  change ((START_WRITE :: flat_map escape_byte payload ++ [END_WRITE]) ++ rest)
    with (START_WRITE :: ((flat_map escape_byte payload ++ [END_WRITE]) ++ rest)).
  rewrite <- app_assoc. cbn [app].
  change (recv_loop (START_WRITE :: ?l) None true false [])
    with (recv_loop l (Some START_WRITE) true false []).
  apply recv_loop_body.
Qed.

(** ** Binary numerals: formatting and parsing *)

Lemma length_bits_of w : ∀ v, length (bits_of w v) = w.
Proof.
  induction w as [|w IH]; intros v; [done|].
  cbn [bits_of]. rewrite length_app, IH. cbn. lia.
Qed.

Lemma bits_of_zero w : bits_of w 0 = replicate w "0"%char.
Proof.
  induction w as [|w IH]; [done|].
  cbn [bits_of]. change (Z.div2 0) with 0. rewrite IH.
  change (bit_char (Z.odd 0)) with "0"%char.
  change (replicate (S w) "0"%char) with ("0"%char :: replicate w "0"%char).
  clear IH. induction w as [|w IH]; [done|]. cbn. by rewrite IH.
Qed.

Lemma replicate_snoc {A} n (x : A) : replicate n x ++ [x] = x :: replicate n x.
Proof. induction n as [|n IH]; [done|]. cbn. by rewrite IH. Qed.

Lemma is_bit_bit_char b : is_bit (bit_char b).
Proof. destruct b; [by right|by left]. Qed.

Lemma bits_of_is_bit w : ∀ v, Forall is_bit (bits_of w v).
Proof.
  induction w as [|w IH]; intros v; [constructor|].
  cbn [bits_of]. apply Forall_app. split; [apply IH|].
  apply Forall_cons. split; [apply is_bit_bit_char|constructor].
Qed.

Lemma int2_acc_app s1 s2 : ∀ acc,
  int2_acc acc (s1 ++ s2)
  = match int2_acc acc s1 with
    | Some a => int2_acc a s2
    | None => None
    end.
Proof.
  induction s1 as [|c s1 IH]; intros acc; [done|].
  cbn [app int2_acc]. destruct (bit_val c); [apply IH|done].
Qed.

Lemma bit_val_bit_char b : bit_val (bit_char b) = Some (Z.b2z b).
Proof. by destruct b. Qed.

Lemma int2_acc_bits_of w : ∀ v,
  0 ≤ v < 2 ^ Z.of_nat w → int2_acc 0 (bits_of w v) = Some v.
Proof.
  induction w as [|w IH]; intros v Hv.
  - cbn. f_equal. change (2 ^ Z.of_nat 0) with 1 in Hv. lia.
  - cbn [bits_of]. rewrite int2_acc_app.
    rewrite Nat2Z.inj_succ, Z.pow_succ_r in Hv by lia.
    pose proof (Z.div2_odd v) as Hd.
    assert (0 ≤ Z.div2 v < 2 ^ Z.of_nat w).
    { destruct (Z.odd v); cbn [Z.b2z] in Hd; lia. }
    rewrite IH by done. cbn [int2_acc]. rewrite bit_val_bit_char.
    f_equal. lia.
Qed.

Lemma int2_nonempty s : s ≠ [] → int2 s = int2_acc 0 s.
Proof. by destruct s. Qed.

Lemma int2_bits_of w v :
  (0 < w)%nat → 0 ≤ v < 2 ^ Z.of_nat w → int2 (bits_of w v) = Some v.
Proof.
  intros Hw Hv. rewrite int2_nonempty; [by apply int2_acc_bits_of|].
  intros Heq. apply (f_equal length) in Heq.
  rewrite length_bits_of in Heq. cbn in Heq. lia.
Qed.

Lemma zfill_bin_pos p : ∀ w,
  Z.pos p < 2 ^ Z.of_nat w → zfill w (bin_pos p) = bits_of w (Z.pos p).
Proof.
  unfold zfill.
  induction p as [q IH|q IH|]; intros w Hp.
  - destruct w as [|w]; [change (2 ^ Z.of_nat 0) with 1 in Hp; lia|].
    rewrite Nat2Z.inj_succ, Z.pow_succ_r in Hp by lia.
    cbn [bin_pos bits_of]. rewrite length_app. cbn [length].
    replace (S w - (length (bin_pos q) + 1))%nat
      with (w - length (bin_pos q))%nat by lia.
    rewrite app_assoc, IH by lia. reflexivity.
  - destruct w as [|w]; [change (2 ^ Z.of_nat 0) with 1 in Hp; lia|].
    rewrite Nat2Z.inj_succ, Z.pow_succ_r in Hp by lia.
    cbn [bin_pos bits_of]. rewrite length_app. cbn [length].
    replace (S w - (length (bin_pos q) + 1))%nat
      with (w - length (bin_pos q))%nat by lia.
    rewrite app_assoc, IH by lia. reflexivity.
  - destruct w as [|w]; [change (2 ^ Z.of_nat 0) with 1 in Hp; lia|].
    cbn [bin_pos bits_of length]. change (Z.div2 1) with 0.
    rewrite bits_of_zero. replace (S w - 1)%nat with w by lia.
    reflexivity.
Qed.

(** Within its range a number is formatted as its fixed-width numeral. *)
Lemma format_0b_bits_of width v :
  0 < width → 0 ≤ v < 2 ^ width →
  format_0b width v = bits_of (Z.to_nat width) v.
Proof.
  intros Hw Hv. unfold format_0b.
  destruct (Z.ltb_spec v 0) as [?|_]; [lia|].
  destruct v as [|p|p]; [| |lia].
  - unfold zfill. cbn [bin_digits length]. rewrite bits_of_zero.
    destruct (Z.to_nat width) as [|n] eqn:Hn; [lia|].
    replace (S n - 1)%nat with n by lia. apply replicate_snoc.
  - cbn [bin_digits]. apply zfill_bin_pos. rewrite Z2Nat.id by lia. lia.
Qed.

(** A string of bits parses to the number whose numeral it is. *)
Lemma int2_acc_bits s :
  Forall is_bit s →
  ∃ v, int2_acc 0 s = Some v ∧ 0 ≤ v < 2 ^ Z.of_nat (length s)
       ∧ bits_of (length s) v = s.
Proof.
  induction s as [|c s IH] using rev_ind; intros Hs.
  - exists 0. cbn. split_and!; try done; lia.
  - apply Forall_app in Hs as [Hs Hc].
    destruct (IH Hs) as (v & Hv & Hr & Hb).
    apply Forall_cons in Hc as [Hc _].
    rewrite int2_acc_app, Hv, length_app. cbn [length int2_acc].
    replace (length s + 1)%nat with (S (length s)) by lia.
    rewrite Nat2Z.inj_succ, Z.pow_succ_r by lia.
    destruct Hc as [->| ->]; cbn [bit_val decide].
    + exists (2 * v + 0). split_and!; [done|lia|lia|].
      cbn [bits_of]. replace (Z.div2 (2 * v + 0)) with v.
      2:{ rewrite Z.div2_div. apply Z.div_unique with 0; lia. }
      rewrite Hb. replace (Z.odd (2 * v + 0)) with false; [done|].
      rewrite Z.add_0_r, Z.odd_mul. done.
    + exists (2 * v + 1). split_and!; [done|lia|lia|].
      cbn [bits_of]. replace (Z.div2 (2 * v + 1)) with v.
      2:{ rewrite Z.div2_div. apply Z.div_unique with 1; lia. }
      rewrite Hb. replace (Z.odd (2 * v + 1)) with true; [done|].
      rewrite Z.odd_add, Z.odd_mul. done.
Qed.

(** ** Cutting a bit string into bytes *)

Lemma int2_octet c :
  octet c →
  ∃ v, int2 c = Some v ∧ is_byte v ∧ format_0b 8 v = c.
Proof.
  intros [Hl Hb]. destruct (int2_acc_bits c Hb) as (v & Hv & Hr & Hs).
  rewrite Hl in Hr, Hs. exists v. split_and!.
  - rewrite int2_nonempty; [done|]. intros ->. done.
  - unfold is_byte. change (2 ^ Z.of_nat 8) with 256 in Hr. lia.
  - rewrite format_0b_bits_of; [done|lia|].
    change (2 ^ Z.of_nat 8) with 256 in Hr. change (2 ^ 8) with 256. lia.
Qed.

Lemma format_0b_octet b : is_byte b → octet (format_0b 8 b).
Proof.
  intros Hb. rewrite format_0b_bits_of; [|lia|by change (2 ^ 8) with 256].
  split; [apply length_bits_of|apply bits_of_is_bit].
Qed.

Lemma int2_format_0b_byte b : is_byte b → int2 (format_0b 8 b) = Some b.
Proof.
  intros Hb. rewrite format_0b_bits_of; [|lia|by change (2 ^ 8) with 256].
  apply int2_bits_of; [cbn; lia|done].
Qed.

Lemma octet_val_format b : is_byte b → octet_val (format_0b 8 b) = b.
Proof. intros Hb. unfold octet_val. by rewrite int2_format_0b_byte. Qed.

Lemma join_bits_octet_vals chunks :
  Forall octet chunks → join_bits (map octet_val chunks) = concat chunks.
Proof.
  induction 1 as [|c cs Hc _ IH]; [done|].
  unfold join_bits in *. cbn [map concat]. rewrite IH. f_equal.
  destruct (int2_octet c Hc) as (v & Hv & _ & Hf).
  unfold octet_val. by rewrite Hv.
Qed.

Lemma octet_vals_bytes chunks :
  Forall octet chunks → Forall is_byte (map octet_val chunks).
Proof.
  induction 1 as [|c cs Hc _ IH]; [constructor|].
  cbn [map]. constructor; [|done].
  destruct (int2_octet c Hc) as (v & Hv & Hb & _).
  unfold octet_val. by rewrite Hv.
Qed.

Lemma length_concat_octets chunks :
  Forall octet chunks → length (concat chunks) = (8 * length chunks)%nat.
Proof.
  induction 1 as [|c cs [Hc _] _ IH]; [done|].
  cbn [concat length]. rewrite length_app, IH, Hc. lia.
Qed.

Lemma py_slice_middle {A} (pre c post : list A) (i : Z) :
  i = Z.of_nat (length pre) →
  py_slice i (i + Z.of_nat (length c)) (pre ++ c ++ post) = c.
Proof.
  intros ->. unfold py_slice.
  rewrite Nat2Z.id, drop_app_length.
  replace (Z.of_nat (length pre) + Z.of_nat (length c) - Z.of_nat (length pre))
    with (Z.of_nat (length c)) by lia.
  rewrite Nat2Z.id. apply take_app_length.
Qed.

Lemma byte_values_chunks chunks : ∀ pre j,
  length pre = (8 * j)%nat →
  Forall octet chunks →
  byte_values (pre ++ concat chunks)
    (map (λ k, 8 * Z.of_nat k) (seq j (length chunks)))
  = Ret (map octet_val chunks).
Proof.
  induction chunks as [|c cs IH]; intros pre j Hpre Hall; [done|].
  apply Forall_cons in Hall as [Hc Hcs].
  cbn [length seq map byte_values concat].
  replace (8 * Z.of_nat j + 8) with (8 * Z.of_nat j + Z.of_nat (length c))
    by (destruct Hc as [-> _]; lia).
  rewrite py_slice_middle by lia.
  destruct (int2_octet c Hc) as (v & Hv & _ & _). rewrite Hv.
  rewrite app_assoc, (IH (pre ++ c) (S j)); [|rewrite length_app;
    destruct Hc as [-> _]; lia|done].
  unfold octet_val at 2. by rewrite Hv.
Qed.

Lemma py_range8_octets chunks :
  Forall octet chunks →
  py_range8 (length (concat chunks))
  = map (λ k, 8 * Z.of_nat k) (seq 0 (length chunks)).
Proof.
  intros H. unfold py_range8. rewrite length_concat_octets by done.
  do 2 f_equal. rewrite (Nat.mul_comm 8), Nat.div_add_l by lia.
  change (7 / 8)%nat with 0%nat. lia.
Qed.

Lemma byte_values_concat chunks :
  Forall octet chunks →
  byte_values (concat chunks) (py_range8 (length (concat chunks)))
  = Ret (map octet_val chunks).
Proof.
  intros H. rewrite py_range8_octets by done.
  apply (byte_values_chunks chunks [] 0%nat); done.
Qed.

(** The escaping loop is the byte loop followed by the escaping. *)
Lemma frame_loop_byte_values bits idx : ∀ write_bytes,
  frame_loop bits idx write_bytes
  = match byte_values bits idx with
    | Ret bs => Ret (write_bytes ++ flat_map escape_byte bs)
    | Raise e => Raise e
    end.
Proof.
  induction idx as [|i idx IH]; intros wb.
  - cbn. by rewrite app_nil_r.
  - cbn [frame_loop byte_values].
    destruct (int2 (py_slice i (i + 8) bits)); [|done].
    rewrite IH. destruct (byte_values bits idx); [|done].
    cbn [flat_map]. by rewrite app_assoc.
Qed.

Lemma build_frame_byte_values bits :
  build_frame bits
  = match byte_values bits (py_range8 (length bits)) with
    | Ret bs => Ret (frame_of bs)
    | Raise e => Raise e
    end.
Proof.
  unfold build_frame. rewrite frame_loop_byte_values.
  by destruct (byte_values bits (py_range8 (length bits))).
Qed.

Lemma split8_octets k : ∀ s,
  length s = (8 * k)%nat → Forall is_bit s →
  concat (split8 k s) = s ∧ Forall octet (split8 k s)
  ∧ length (split8 k s) = k.
Proof.
  induction k as [|k IH]; intros s Hl Hb.
  - destruct s; [done|cbn in Hl; lia].
  - cbn [split8 concat length].
    destruct (IH (drop 8 s)) as (Hc & Ho & Hk).
    { rewrite length_drop. lia. }
    { by apply Forall_drop. }
    rewrite Hc, take_drop, Hk. split_and!; [done| |done].
    constructor; [|done]. split; [rewrite length_take; lia|].
    by apply Forall_take.
Qed.

Lemma join_bits_octets data :
  Forall is_byte data → Forall octet (map (format_0b 8) data).
Proof.
  induction 1; constructor; [by apply format_0b_octet|done].
Qed.

Lemma octet_vals_join data :
  Forall is_byte data → map octet_val (map (format_0b 8) data) = data.
Proof.
  induction 1 as [|b bs Hb _ IH]; [done|].
  cbn [map]. by rewrite IH, octet_val_format.
Qed.

(** The bytes of a bit string made of the numerals of [payload] are
    [payload]. *)
Lemma byte_values_join_bits payload :
  Forall is_byte payload →
  byte_values (join_bits payload) (py_range8 (length (join_bits payload)))
  = Ret payload.
Proof.
  intros H. unfold join_bits.
  rewrite byte_values_concat by by apply join_bits_octets.
  by rewrite octet_vals_join.
Qed.

(** ** Claims about the frame codec *)

(** C2: for every payload byte sequence, also one that holds the four
    control values, the frame that [write_regs] builds from the payload's
    bits is [START_WRITE], the payload with an [ESCAPE] before each control
    value, [END_WRITE]; and the receive loop of [read_regs], fed that frame,
    returns exactly the payload and stops right after the frame. *)
Theorem frame_roundtrip (payload rest : list Z) :
  Forall is_byte payload →
  build_frame (join_bits payload) = Ret (frame_of payload)
  ∧ recv_frame (frame_of payload ++ rest) = (Ret payload, rest).
Proof.
  intros Hp. split.
  - rewrite build_frame_byte_values. by rewrite byte_values_join_bits.
  - apply recv_frame_frame_of.
Qed.

Lemma frame_roundtrip_witness :
  Forall is_byte [0x0A; 0x0B; 0x0C; 0x0D; 0x00; 0xFF]
  ∧ build_frame (join_bits [0x0A; 0x0B; 0x0C; 0x0D; 0x00; 0xFF])
    = Ret (frame_of [0x0A; 0x0B; 0x0C; 0x0D; 0x00; 0xFF])
  ∧ recv_frame (frame_of [0x0A; 0x0B; 0x0C; 0x0D; 0x00; 0xFF] ++ [0x42])
    = (Ret [0x0A; 0x0B; 0x0C; 0x0D; 0x00; 0xFF], [0x42]).
Proof.
  assert (H : Forall is_byte [0x0A; 0x0B; 0x0C; 0x0D; 0x00; 0xFF])
    by (repeat constructor; unfold is_byte; lia).
  split; [exact H|].
  exact (frame_roundtrip [0x0A; 0x0B; 0x0C; 0x0D; 0x00; 0xFF] [0x42] H).
Defined.

(** C5, as stated, fails: the bytes received before a second
    [START_WRITE] stay in the payload. *)
Lemma restart_keeps_earlier_bytes :
  fst (recv_frame [START_WRITE; 0x05; START_WRITE; 0x01; END_WRITE])
  ≠ Ret [0x01].
Proof. vm_compute. discriminate. Qed.

(** C5, amended: a [START_WRITE] whose previous byte is not [ESCAPE] is
    consumed without being added to the payload and sets the receiving
    flag, but the payload accumulated so far and the pending escape are
    kept; so [START_WRITE, 0x05, START_WRITE, 0x01, END_WRITE] yields
    [[0x05; 0x01]], and [START_WRITE, START_WRITE, 0x01, END_WRITE] yields
    [[0x01]]. *)
Theorem start_write_keeps_payload (rx : list Z) (prev_byte : option Z)
    (receiving_data escape_next : bool) (data : list Z) :
  prev_byte ≠ Some ESCAPE →
  recv_loop (START_WRITE :: rx) prev_byte receiving_data escape_next data
  = recv_loop rx (Some START_WRITE) true escape_next data
  ∧ recv_frame [START_WRITE; 0x05; START_WRITE; 0x01; END_WRITE]
    = (Ret [0x05; 0x01], [])
  ∧ recv_frame [START_WRITE; START_WRITE; 0x01; END_WRITE]
    = (Ret [0x01], []).
Proof.
  intros Hp. split; [|split; reflexivity].
  cbn [recv_loop].
  rewrite (bool_decide_eq_true_2 (START_WRITE = START_WRITE)) by done.
  rewrite (bool_decide_eq_false_2 (prev_byte = Some ESCAPE)) by done.
  reflexivity.
Qed.

Lemma start_write_keeps_payload_witness :
  Some 0x05 ≠ Some ESCAPE
  ∧ recv_loop (START_WRITE :: [0x01; END_WRITE]) (Some 0x05) true false [0x05]
    = recv_loop [0x01; END_WRITE] (Some START_WRITE) true false [0x05]
  ∧ recv_frame [START_WRITE; 0x05; START_WRITE; 0x01; END_WRITE]
    = (Ret [0x05; 0x01], [])
  ∧ recv_frame [START_WRITE; START_WRITE; 0x01; END_WRITE]
    = (Ret [0x01], []).
Proof.
  assert (H : Some 0x05 ≠ Some ESCAPE) by discriminate.
  split; [exact H|].
  exact (start_write_keeps_payload [0x01; END_WRITE] (Some 0x05)
           true false [0x05] H).
Defined.

(** C6 on the code: the loop starts with [receiving_data = True], so a
    byte that arrives before the first [START_WRITE] is appended to the
    payload, and an [END_WRITE] that arrives before any [START_WRITE] ends
    the frame. *)
Theorem bytes_before_start_are_kept :
  recv_frame [0x05; START_WRITE; 0x01; END_WRITE] = (Ret [0x05; 0x01], [])
  ∧ recv_frame [END_WRITE; START_WRITE; 0x01; END_WRITE]
    = (Ret [], [START_WRITE; 0x01; END_WRITE]).
Proof. split; reflexivity. Qed.

(** ** The packing loop *)

Lemma is_out_true r : is_out r = true ↔ reg_mode r = ModeOut.
Proof. unfold is_out. destruct (reg_mode r); split; done. Qed.

Lemma is_out_false r : is_out r = false ↔ reg_mode r ≠ ModeOut.
Proof. unfold is_out. destruct (reg_mode r); split; done. Qed.

(** The range check of the code is the representable range. *)
Lemma out_of_range_false r v : out_of_range r v = false ↔ representable r v.
Proof.
  unfold out_of_range, representable, is_signed.
  rewrite !Z.shiftl_1_l.
  destruct (reg_type r); rewrite orb_false_iff;
    rewrite ?Z.leb_gt, ?Z.ltb_ge; lia.
Qed.

Lemma out_of_range_true r v : out_of_range r v = true ↔ ¬ representable r v.
Proof.
  rewrite <- out_of_range_false. destruct (out_of_range r v); split; done.
Qed.

Lemma representable_pattern_bound r v :
  0 < reg_length r → 0 ≤ pattern r v < 2 ^ reg_length r.
Proof. intros H. unfold pattern. apply Z.mod_pos_bound. lia. Qed.

(** The bits written for a value are the numeral of its pattern. *)
Lemma value_bits_pattern r v :
  0 < reg_length r → representable r v →
  value_bits r v = bits_of (Z.to_nat (reg_length r)) (pattern r v).
Proof.
  intros Hl Hr. unfold value_bits, pattern.
  assert (Hpow : 2 ^ (reg_length r - 1) < 2 ^ reg_length r)
    by (apply Z.pow_lt_mono_r; lia).
  destruct (is_signed r && (v <? 0)) eqn:Hneg.
  - rewrite Z.shiftl_1_l.
    change (2 ^ reg_length r - 1) with (Z.pred (2 ^ reg_length r)).
    rewrite <- Z.ones_equiv, Z.land_ones by lia.
    apply format_0b_bits_of; [done|]. apply Z.mod_pos_bound. lia.
  - assert (0 ≤ v < 2 ^ reg_length r) as Hv.
    { unfold representable, is_signed in *.
      destruct (reg_type r); lia. }
    rewrite Z.mod_small by done. by apply format_0b_bits_of.
Qed.

Lemma pack_loop_ok write_values regs : ∀ acc,
  (∀ r, r ∈ regs → reg_mode r = ModeOut →
        ∃ v, write_values !! reg_name r = Some v ∧ representable r v) →
  pack_loop write_values regs acc = Ret (acc ++ out_chunks write_values regs).
Proof.
  unfold out_chunks.
  induction regs as [|r regs IH]; intros acc Hall.
  - cbn. by rewrite app_nil_r.
  - cbn [pack_loop]. destruct (is_out r) eqn:Ho.
    + apply is_out_true in Ho.
      destruct (Hall r) as (v & Hv & Hr); [by left|done|].
      rewrite Hv. apply out_of_range_false in Hr. rewrite Hr.
      rewrite IH by (intros; apply Hall; [by right|done]).
      rewrite filter_cons_True by done.
      cbn [map concat]. rewrite Hv. cbn [default]. by rewrite app_assoc.
    + apply is_out_false in Ho. rewrite filter_cons_False by done.
      apply IH. intros; apply Hall; [by right|done].
Qed.

Lemma pack_loop_raise write_values regs : ∀ acc e,
  pack_loop write_values regs acc = Raise e →
  ∃ r, r ∈ regs ∧ reg_mode r = ModeOut ∧
    ((write_values !! reg_name r = None ∧ e = KeyError (reg_name r))
     ∨ ∃ v, write_values !! reg_name r = Some v ∧ ¬ representable r v
            ∧ e = range_error r v).
Proof.
  induction regs as [|r regs IH]; intros acc e He; [done|].
  cbn [pack_loop] in He. destruct (is_out r) eqn:Ho.
  - apply is_out_true in Ho.
    destruct (write_values !! reg_name r) as [v|] eqn:Hv.
    + destruct (out_of_range r v) eqn:Hr.
      * exists r. split_and!; [by left|done|]. right. exists v.
        apply out_of_range_true in Hr. split_and!; [done|done|congruence].
      * destruct (IH _ _ He) as (r' & Hin & Hrest).
        exists r'. split; [by right|done].
    + exists r. split_and!; [by left|done|]. left. split; [done|congruence].
  - destruct (IH _ _ He) as (r' & Hin & Hrest).
    exists r'. split; [by right|done].
Qed.

Lemma elem_of_rev_iff {A} (x : A) l : x ∈ rev l ↔ x ∈ l.
Proof. rewrite !list_elem_of_In. symmetry. apply in_rev. Qed.

Lemma pack_bits_raise registers write_values e :
  pack_bits registers write_values = Raise e →
  ∃ r, r ∈ registers ∧ reg_mode r = ModeOut ∧
    ((write_values !! reg_name r = None ∧ e = KeyError (reg_name r))
     ∨ ∃ v, write_values !! reg_name r = Some v ∧ ¬ representable r v
            ∧ e = range_error r v).
Proof.
  unfold pack_bits. intros He.
  destruct (pack_loop write_values (rev registers) []) as [bits|e'] eqn:Hl;
    [done|].
  inversion He; subst e'.
  destruct (pack_loop_raise _ _ _ _ Hl) as (r & Hin & Hrest).
  exists r. split; [by apply elem_of_rev_iff|done].
Qed.

Lemma pack_bits_ok registers write_values :
  (∀ r, r ∈ registers → reg_mode r = ModeOut →
        ∃ v, write_values !! reg_name r = Some v ∧ representable r v) →
  pack_bits registers write_values
  = Ret (pad_bits (out_chunks write_values (rev registers))).
Proof.
  intros Hall. unfold pack_bits.
  rewrite pack_loop_ok; [done|].
  intros r Hin. apply Hall. by apply elem_of_rev_iff.
Qed.

(** ** Claims about packing *)

(** C3: for the schema that declares the 1-bit out register [a] and then
    the 8-bit out register [b], packing [a = 1], [b = 0xFF] gives the bytes
    [[0xFF; 0x80]]: the bit string is the eight bits of [b], then the bit
    of [a], then seven zero padding bits. *)
Theorem pack_a_b_bytes :
  pack_bits regs_ab {[ "a" := 1; "b" := 0xFF ]}
  = Ret (format_0b 8 0xFF ++ format_0b 1 1 ++ replicate 7 "0"%char)
  ∧ pack_bytes regs_ab {[ "a" := 1; "b" := 0xFF ]} = Ret [0xFF; 0x80].
Proof. split; vm_compute; reflexivity. Qed.

(** With every out-direction register supplied, packing raises exactly
    when a value is not representable, and what it raises is the range
    error of such a register. *)
Lemma pack_bits_range registers write_values :
  covers_out registers write_values →
  ((∃ r v, r ∈ registers ∧ reg_mode r = ModeOut
           ∧ write_values !! reg_name r = Some v ∧ ¬ representable r v)
   ↔ ∃ e, pack_bits registers write_values = Raise e)
  ∧ (∀ e, pack_bits registers write_values = Raise e →
       ∃ r v, r ∈ registers ∧ reg_mode r = ModeOut
              ∧ write_values !! reg_name r = Some v ∧ ¬ representable r v
              ∧ e = range_error r v).
Proof.
  intros Hcov.
  assert (Hraise : ∀ e, pack_bits registers write_values = Raise e →
       ∃ r v, r ∈ registers ∧ reg_mode r = ModeOut
              ∧ write_values !! reg_name r = Some v ∧ ¬ representable r v
              ∧ e = range_error r v).
  { intros e He.
    destruct (pack_bits_raise _ _ _ He) as (r & Hin & Ho & [[Hn _]|Hbad]).
    - destruct (Hcov r Hin Ho) as [v Hv]. congruence.
    - destruct Hbad as (v & Hv & Hr & ->). by exists r, v. }
  split; [split|exact Hraise].
  - intros (r & v & Hin & Ho & Hv & Hr).
    destruct (pack_bits registers write_values) as [bits|e] eqn:Hp;
      [|by exists e].
    exfalso. unfold pack_bits in Hp.
    destruct (pack_loop write_values (rev registers) []) as [b|] eqn:Hl;
      [|done].
    clear Hp. apply elem_of_rev_iff in Hin.
    revert Hl. generalize (@nil ascii) as acc.
    induction (rev registers) as [|r' regs IH]; intros acc Hl.
    + by apply elem_of_nil in Hin.
    + cbn [pack_loop] in Hl. apply elem_of_cons in Hin as [<-|Hin].
      * apply is_out_true in Ho. rewrite Ho, Hv in Hl.
        apply out_of_range_true in Hr. by rewrite Hr in Hl.
      * destruct (is_out r'); [|by eapply IH].
        destruct (write_values !! reg_name r'); [|done].
        destruct (out_of_range r' z); [done|by eapply IH].
  - intros [e He]. destruct (Hraise e He) as (r & v & ? & ? & ? & ? & _).
    by exists r, v.
Qed.

(** C7: with a value supplied for every out-direction register, packing
    fails exactly when some value is outside the representable range of
    its register ([0 ≤ v < 2^n], or [-2^(n-1) ≤ v < 2^(n-1)] for a signed
    register); the error is then the [ValueError] whose message gives the
    attempted value, the name of that register and its width. In
    particular a 4-bit unsigned register rejects 16 and a 4-bit signed
    register rejects 8 and -9, while 15, 7 and -8 are packed. *)
Theorem pack_range_check (registers : list Register)
    (write_values : gmap string Z) :
  covers_out registers write_values →
  ((∃ r v, r ∈ registers ∧ reg_mode r = ModeOut
           ∧ write_values !! reg_name r = Some v ∧ ¬ representable r v)
   ↔ ∃ e, pack_bits registers write_values = Raise e)
  ∧ (∀ e, pack_bits registers write_values = Raise e →
       ∃ r v, r ∈ registers ∧ reg_mode r = ModeOut
              ∧ write_values !! reg_name r = Some v ∧ ¬ representable r v
              ∧ e = range_error r v
              ∧ e = ValueError
                      ("The value " +:+ str_Z v +:+ " for register "
                       +:+ reg_name r +:+ " exceeds the "
                       +:+ str_Z (reg_length r) +:+ "-bit length allowed for "
                       +:+ (match reg_type r with
                            | signed => "signed."
                            | _ => "unsigned."
                            end)))
  ∧ pack_bits [mkReg "u" ModeOut 4 unsigned] {[ "u" := 16 ]}
    = Raise (ValueError
        "The value 16 for register u exceeds the 4-bit length allowed for unsigned.")
  ∧ pack_bits [mkReg "s" ModeOut 4 signed] {[ "s" := 8 ]}
    = Raise (ValueError
        "The value 8 for register s exceeds the 4-bit length allowed for signed.")
  ∧ pack_bits [mkReg "s" ModeOut 4 signed] {[ "s" := -9 ]}
    = Raise (ValueError
        "The value -9 for register s exceeds the 4-bit length allowed for signed.")
  ∧ pack_bits [mkReg "u" ModeOut 4 unsigned] {[ "u" := 15 ]}
    = Ret (bits_of 4 15 ++ bits_of 4 0)
  ∧ pack_bits [mkReg "s" ModeOut 4 signed] {[ "s" := 7 ]}
    = Ret (bits_of 4 7 ++ bits_of 4 0)
  ∧ pack_bits [mkReg "s" ModeOut 4 signed] {[ "s" := -8 ]}
    = Ret (bits_of 4 8 ++ bits_of 4 0).
Proof.
  intros Hcov.
  destruct (pack_bits_range registers write_values Hcov) as [Hiff Hraise].
  split; [exact Hiff|]. split.
  - intros e He.
    destruct (Hraise e He) as (r & v & Hin & Ho & Hv & Hr & ->).
    exists r, v. split_and!; try done.
    unfold range_error, is_signed. by destruct (reg_type r).
  - repeat split; vm_compute; reflexivity.
Qed.

Lemma pack_range_check_witness :
  covers_out [mkReg "u" ModeOut 4 unsigned] {[ "u" := 16 ]}
  ∧ ∃ e, pack_bits [mkReg "u" ModeOut 4 unsigned] {[ "u" := 16 ]} = Raise e
      ∧ ∃ r v, r ∈ [mkReg "u" ModeOut 4 unsigned] ∧ reg_mode r = ModeOut
          ∧ ({[ "u" := 16 ]} : gmap string Z) !! reg_name r = Some v
          ∧ ¬ representable r v
          ∧ e = ValueError
                  ("The value " +:+ str_Z v +:+ " for register "
                   +:+ reg_name r +:+ " exceeds the "
                   +:+ str_Z (reg_length r) +:+ "-bit length allowed for "
                   +:+ (match reg_type r with
                        | signed => "signed."
                        | _ => "unsigned."
                        end)).
Proof.
  assert (H1 : covers_out [mkReg "u" ModeOut 4 unsigned] {[ "u" := 16 ]}).
  { intros r Hr _. apply list_elem_of_singleton in Hr as ->.
    exists 16. reflexivity. }
  split; [exact H1|].
  destruct (pack_range_check [mkReg "u" ModeOut 4 unsigned] {[ "u" := 16 ]}
              H1) as (_ & Hraise & _).
  eexists. split; [reflexivity|].
  destruct (Hraise _ eq_refl) as (r & v & Hin & Ho & Hv & Hr & _ & He).
  by exists r, v.
Defined.

(** The boundary cases of the range check, to the bytes. *)
Example pack_range_examples :
  pack_bytes [mkReg "u" ModeOut 4 unsigned] {[ "u" := 15 ]} = Ret [0xF0]
  ∧ pack_bytes [mkReg "s" ModeOut 4 signed] {[ "s" := 7 ]} = Ret [0x70]
  ∧ pack_bytes [mkReg "s" ModeOut 4 signed] {[ "s" := -8 ]} = Ret [0x80].
Proof. repeat split; vm_compute; reflexivity. Qed.

(** ** The extraction loop *)

Lemma regs_length_cons m r regs :
  regs_length m (r :: regs)
  = (if decide (reg_mode r = m) then reg_length r else 0)
    + regs_length m regs.
Proof.
  unfold regs_length. destruct (decide (reg_mode r = m)).
  - by rewrite filter_cons_True.
  - by rewrite filter_cons_False.
Qed.

Lemma regs_length_app m l1 l2 :
  regs_length m (l1 ++ l2) = regs_length m l1 + regs_length m l2.
Proof.
  induction l1 as [|r l1 IH]; [done|].
  cbn [app]. rewrite !regs_length_cons, IH. lia.
Qed.

Lemma regs_length_rev m regs : regs_length m (rev regs) = regs_length m regs.
Proof.
  induction regs as [|r regs IH]; [done|].
  cbn [rev]. rewrite regs_length_app, !regs_length_cons, IH.
  change (regs_length m []) with 0. lia.
Qed.

Lemma regs_length_nonneg m regs :
  Forall (λ r, 0 < reg_length r) regs → 0 ≤ regs_length m regs.
Proof.
  induction 1 as [|r regs Hr _ IH]; [done|].
  rewrite regs_length_cons. destruct (decide (reg_mode r = m)); lia.
Qed.

Lemma int2_py_slice_bits s a n :
  Forall is_bit s → 0 ≤ a → 0 < n → a + n ≤ Z.of_nat (length s) →
  ∃ v, int2 (py_slice a (a + n) s) = Some v ∧ 0 ≤ v < 2 ^ n
       ∧ bits_of (Z.to_nat n) v = py_slice a (a + n) s.
Proof.
  intros Hs Ha Hn Hlen. unfold py_slice.
  replace (a + n - a) with n by lia.
  set (c := take (Z.to_nat n) (drop (Z.to_nat a) s)).
  assert (Hc : length c = Z.to_nat n).
  { unfold c. rewrite length_take, length_drop. lia. }
  assert (Hb : Forall is_bit c).
  { unfold c. by apply Forall_take, Forall_drop. }
  destruct (int2_acc_bits c Hb) as (v & Hv & Hr & Hbits).
  exists v. rewrite Hc in Hbits. rewrite Hc, Z2Nat.id in Hr by lia.
  split; [|done].
  rewrite int2_nonempty; [done|]. intros Hnil.
  rewrite Hnil in Hc. cbn in Hc. lia.
Qed.

Lemma int2_py_slice s a n :
  Forall is_bit s → 0 ≤ a → 0 < n → a + n ≤ Z.of_nat (length s) →
  ∃ v, int2 (py_slice a (a + n) s) = Some v ∧ 0 ≤ v < 2 ^ n.
Proof.
  intros Hs Ha Hn Hlen.
  destruct (int2_py_slice_bits s a n Hs Ha Hn Hlen) as (v & Hv & Hr & _).
  by exists v.
Qed.

Lemma extract_loop_spec regs in_regs out_regs :
  Forall is_bit in_regs → Forall is_bit out_regs →
  ∀ start_bit_in start_bit_out regs_values,
  NoDup (map reg_name regs) →
  Forall (λ r, 0 < reg_length r) regs →
  0 ≤ start_bit_in → 0 ≤ start_bit_out →
  start_bit_in + regs_length ModeIn regs ≤ Z.of_nat (length in_regs) →
  start_bit_out + regs_length ModeOut regs ≤ Z.of_nat (length out_regs) →
  ∃ m,
    extract_loop regs in_regs out_regs start_bit_in start_bit_out regs_values
    = Ret m
    ∧ (∀ n, n ∉ map reg_name regs → m !! n = regs_values !! n)
    ∧ (∀ l1 r l2, regs = l1 ++ r :: l2 →
         let start := start_of (reg_mode r) start_bit_in start_bit_out
                      + regs_length (reg_mode r) l1 in
         m !! reg_name r
         = int2 (py_slice start (start + reg_length r)
                   (region_of (reg_mode r) in_regs out_regs))).
Proof.
  intros Hbi Hbo.
  induction regs as [|r regs IH];
    intros si so m0 Hnd Hpos Hsi Hso Hli Hlo.
  - exists m0. split_and!; [done|done|].
    intros l1 r l2 Heq. by destruct l1.
  - apply NoDup_cons in Hnd as [Hfresh Hnd].
    apply Forall_cons in Hpos as [Hr Hpos].
    rewrite regs_length_cons in Hli, Hlo.
    pose proof (regs_length_nonneg ModeIn regs Hpos) as Hni.
    pose proof (regs_length_nonneg ModeOut regs Hpos) as Hno.
    cbn [extract_loop]. unfold extract_bits.
    destruct (reg_mode r) eqn:Hm.
    + rewrite decide_True in Hli by done.
      rewrite decide_False in Hlo by done.
      replace (si + reg_length r - 1 + 1) with (si + reg_length r) by lia.
      destruct (int2_py_slice in_regs si (reg_length r)) as (v & Hv & _);
        [done|lia|lia|lia|].
      rewrite Hv.
      destruct (IH (si + reg_length r) so (<[reg_name r := v]> m0))
        as (m & Hm1 & Hm2 & Hm3); [done|done|lia|lia|lia|lia|].
      exists m. split_and!; [done| |].
      * intros n Hn. cbn [map] in Hn. apply not_elem_of_cons in Hn as [? ?].
        rewrite Hm2 by done. by rewrite lookup_insert_ne.
      * intros l1 r' l2 Heq. destruct l1 as [|r0 l1].
        -- cbn [app] in Heq. inversion Heq; subst r' l2.
           rewrite Hm. cbn [start_of region_of].
           change (regs_length ModeIn []) with 0. rewrite Z.add_0_r.
           rewrite Hm2, lookup_insert_eq by done. by rewrite Hv.
        -- cbn [app] in Heq. inversion Heq; subst r0 regs.
           rewrite (Hm3 l1 r' l2 eq_refl). rewrite regs_length_cons.
           destruct (reg_mode r') eqn:Hm'; cbn [start_of region_of].
           ++ rewrite decide_True by done. do 2 f_equal; lia.
           ++ rewrite decide_False by congruence. do 2 f_equal; lia.
    + rewrite decide_False in Hli by done.
      rewrite decide_True in Hlo by done.
      replace (so + reg_length r - 1 + 1) with (so + reg_length r) by lia.
      destruct (int2_py_slice out_regs so (reg_length r)) as (v & Hv & _);
        [done|lia|lia|lia|].
      rewrite Hv.
      destruct (IH si (so + reg_length r) (<[reg_name r := v]> m0))
        as (m & Hm1 & Hm2 & Hm3); [done|done|lia|lia|lia|lia|].
      exists m. split_and!; [done| |].
      * intros n Hn. cbn [map] in Hn. apply not_elem_of_cons in Hn as [? ?].
        rewrite Hm2 by done. by rewrite lookup_insert_ne.
      * intros l1 r' l2 Heq. destruct l1 as [|r0 l1].
        -- cbn [app] in Heq. inversion Heq; subst r' l2.
           rewrite Hm. cbn [start_of region_of].
           change (regs_length ModeOut []) with 0. rewrite Z.add_0_r.
           rewrite Hm2, lookup_insert_eq by done. by rewrite Hv.
        -- cbn [app] in Heq. inversion Heq; subst r0 regs.
           rewrite (Hm3 l1 r' l2 eq_refl). rewrite regs_length_cons.
           destruct (reg_mode r') eqn:Hm'; cbn [start_of region_of].
           ++ rewrite decide_False by congruence. do 2 f_equal; lia.
           ++ rewrite decide_True by done. do 2 f_equal; lia.
Qed.

(** ** The regions cut out of the received bytes *)

Lemma pad8_bounds n : n ≤ pad8 n < n + 8.
Proof. unfold pad8. Z.div_mod_to_equations. lia. Qed.

Lemma pad8_div n : pad8 n / 8 * 8 = pad8 n.
Proof. unfold pad8. Z.div_mod_to_equations. lia. Qed.

Lemma expected_bytes_split registers :
  expected_bytes registers
  = in_regs_length registers / 8 + out_regs_length registers / 8.
Proof.
  unfold expected_bytes, in_regs_length, out_regs_length, pad8.
  Z.div_mod_to_equations. lia.
Qed.

Lemma py_suffix_all {A} n (s : list A) :
  (n = 0 ∨ length s ≤ n)%nat → py_suffix n s = s.
Proof.
  intros H. unfold py_suffix. destruct (decide (n = 0%nat)); [done|].
  replace (length s - n)%nat with 0%nat by lia. done.
Qed.

Lemma py_suffix_Forall {A} (P : A → Prop) n s :
  Forall P s → Forall P (py_suffix n s).
Proof.
  intros H. unfold py_suffix. destruct (decide (n = 0%nat)); [done|].
  by apply Forall_drop.
Qed.

Lemma py_suffix_length_ge {A} n (s : list A) :
  (n ≤ length s → n ≤ length (py_suffix n s))%nat.
Proof.
  intros H. unfold py_suffix. destruct (decide (n = 0%nat)); [lia|].
  rewrite length_drop. lia.
Qed.

Lemma py_suffix_app {A} (s1 s2 : list A) :
  s2 ≠ [] → py_suffix (length s2) (s1 ++ s2) = s2.
Proof.
  intros Hne. unfold py_suffix.
  destruct (decide (length s2 = 0%nat)) as [H0|_].
  - by destruct s2.
  - rewrite length_app.
    replace (length s1 + length s2 - length s2)%nat with (length s1) by lia.
    apply drop_app_length.
Qed.

Lemma join_bits_is_bit data :
  Forall is_byte data → Forall is_bit (join_bits data).
Proof.
  induction 1 as [|b bs Hb _ IH]; [constructor|].
  unfold join_bits in *. cbn [map concat]. apply Forall_app. split; [|done].
  by destruct (format_0b_octet b Hb).
Qed.

Lemma length_join_bits data :
  Forall is_byte data → length (join_bits data) = (8 * length data)%nat.
Proof.
  induction 1 as [|b bs Hb _ IH]; [done|].
  unfold join_bits in *. cbn [map concat length]. rewrite length_app, IH.
  destruct (format_0b_octet b Hb) as [-> _]. lia.
Qed.

(** The strings [in_regs] and [out_regs] of [read_regs] are bit strings
    long enough for the registers of their direction. *)
Lemma decode_regions registers data :
  Forall (λ r, 0 < reg_length r) registers →
  Forall is_byte data →
  Z.of_nat (length data) = expected_bytes registers →
  let in_regs :=
    py_suffix (Z.to_nat (in_regs_length registers))
      (join_bits (py_suffix (Z.to_nat (in_regs_length registers / 8)) data)) in
  let out_regs :=
    py_suffix (Z.to_nat (out_regs_length registers))
      (join_bits (take (Z.to_nat (out_regs_length registers / 8)) data)) in
  Forall is_bit in_regs ∧ Forall is_bit out_regs
  ∧ regs_length ModeIn registers ≤ Z.of_nat (length in_regs)
  ∧ regs_length ModeOut registers ≤ Z.of_nat (length out_regs)
  ∧ out_regs
    = join_bits (take (Z.to_nat (out_regs_length registers / 8)) data).
Proof.
  intros Hpos Hb Hlen. rewrite expected_bytes_split in Hlen.
  pose proof (regs_length_nonneg ModeIn registers Hpos) as Hni.
  pose proof (regs_length_nonneg ModeOut registers Hpos) as Hno.
  unfold in_regs_length, out_regs_length in *.
  pose proof (pad8_bounds (regs_length ModeIn registers)) as Hpi.
  pose proof (pad8_bounds (regs_length ModeOut registers)) as Hpo.
  pose proof (pad8_div (regs_length ModeIn registers)) as Hdi.
  pose proof (pad8_div (regs_length ModeOut registers)) as Hdo.
  set (Li := pad8 (regs_length ModeIn registers)) in *.
  set (Lo := pad8 (regs_length ModeOut registers)) in *.
  assert (Hbi : Forall is_byte (py_suffix (Z.to_nat (Li / 8)) data))
    by by apply py_suffix_Forall.
  assert (Hbo : Forall is_byte (take (Z.to_nat (Lo / 8)) data))
    by by apply Forall_take.
  assert (0 ≤ Li / 8 ∧ 0 ≤ Lo / 8) as [Hi0 Ho0]
    by (split; apply Z.div_pos; lia).
  cbv zeta. split_and!.
  - by apply py_suffix_Forall, join_bits_is_bit.
  - by apply py_suffix_Forall, join_bits_is_bit.
  - match goal with |- _ ≤ Z.of_nat (length ?s) =>
      assert (Z.to_nat Li ≤ length s)%nat; [|lia] end.
    apply py_suffix_length_ge. rewrite length_join_bits by done.
    assert (Z.to_nat (Li / 8)
            ≤ length (py_suffix (Z.to_nat (Li / 8)) data))%nat
      by (apply py_suffix_length_ge; lia).
    lia.
  - match goal with |- _ ≤ Z.of_nat (length ?s) =>
      assert (Z.to_nat Lo ≤ length s)%nat; [|lia] end.
    apply py_suffix_length_ge. rewrite length_join_bits by done.
    rewrite length_take. lia.
  - apply py_suffix_all. right.
    rewrite length_join_bits by done. rewrite length_take. lia.
Qed.

(** With the expected number of bytes, [read_regs] returns for every
    register the number read from its slice of its region. *)
Lemma decode_values_slices registers data :
  valid_schema registers →
  Forall is_byte data →
  Z.of_nat (length data) = expected_bytes registers →
  ∃ m, decode_values registers data = Ret m
    ∧ ∀ l1 r l2, rev registers = l1 ++ r :: l2 →
        let start := regs_length (reg_mode r) l1 in
        let region :=
          region_of (reg_mode r)
            (py_suffix (Z.to_nat (in_regs_length registers))
               (join_bits
                  (py_suffix (Z.to_nat (in_regs_length registers / 8)) data)))
            (join_bits (take (Z.to_nat (out_regs_length registers / 8)) data))
        in
        ∃ v, m !! reg_name r = Some v
             ∧ int2 (py_slice start (start + reg_length r) region) = Some v
             ∧ 0 ≤ v < 2 ^ reg_length r
             ∧ bits_of (Z.to_nat (reg_length r)) v
               = py_slice start (start + reg_length r) region.
Proof.
  intros [Hnd Hpos] Hb Hlen. unfold decode_values.
  rewrite bool_decide_eq_false_2 by (intros H; by apply H).
  destruct (decode_regions registers data Hpos Hb Hlen)
    as (Hbi & Hbo & Hli & Hlo & Hout).
  cbv zeta in Hbi, Hbo, Hli, Hlo, Hout.
  set (in_regs := py_suffix (Z.to_nat (in_regs_length registers))
     (join_bits (py_suffix (Z.to_nat (in_regs_length registers / 8)) data)))
    in *.
  rewrite Hout in *.
  set (out_regs :=
     join_bits (take (Z.to_nat (out_regs_length registers / 8)) data)) in *.
  assert (Hposr : Forall (λ r, 0 < reg_length r) (rev registers)).
  { apply Forall_forall. intros r Hr. rewrite elem_of_rev_iff in Hr.
    by apply (proj1 (Forall_forall _ _) Hpos). }
  destruct (extract_loop_spec (rev registers) in_regs out_regs Hbi Hbo 0 0 ∅)
    as (m & Hm & _ & Hslices).
  { rewrite map_rev. by apply NoDup_ListNoDup, List.NoDup_rev, NoDup_ListNoDup. }
  { done. }
  { lia. } { lia. }
  { rewrite regs_length_rev. lia. }
  { rewrite regs_length_rev. lia. }
  exists m. split; [done|].
  intros l1 r l2 Heq. cbv zeta.
  specialize (Hslices l1 r l2 Heq). cbv zeta in Hslices.
  assert (H0 : start_of (reg_mode r) 0 0 = 0) by by destruct (reg_mode r).
  rewrite H0, Z.add_0_l in Hslices.
  assert (Hr : 0 < reg_length r).
  { rewrite Forall_forall in Hposr. apply Hposr.
    rewrite Heq. apply elem_of_app. right. by left. }
  assert (Hfit : regs_length (reg_mode r) l1 + reg_length r
                 ≤ Z.of_nat (length (region_of (reg_mode r) in_regs out_regs))).
  { pose proof (regs_length_rev (reg_mode r) registers) as Hrev.
    rewrite Heq, regs_length_app, regs_length_cons in Hrev.
    rewrite decide_True in Hrev by done.
    assert (0 ≤ regs_length (reg_mode r) l2).
    { apply regs_length_nonneg. rewrite Heq in Hposr.
      apply Forall_app in Hposr as [_ H2]. by apply Forall_cons in H2 as [_ ?]. }
    destruct (reg_mode r); cbn [region_of]; lia. }
  assert (Hl1 : 0 ≤ regs_length (reg_mode r) l1).
  { apply regs_length_nonneg. rewrite Heq in Hposr.
    by apply Forall_app in Hposr as [? _]. }
  assert (Hbits : Forall is_bit (region_of (reg_mode r) in_regs out_regs))
    by by destruct (reg_mode r).
  destruct (int2_py_slice_bits (region_of (reg_mode r) in_regs out_regs)
              (regs_length (reg_mode r) l1) (reg_length r) Hbits Hl1 Hr Hfit)
    as (v & Hv & Hrange & Hnum).
  exists v. split; [by rewrite Hslices|by split].
Qed.

Lemma decode_values_spec registers data :
  valid_schema registers →
  Forall is_byte data →
  Z.of_nat (length data) = expected_bytes registers →
  ∃ m, decode_values registers data = Ret m
    ∧ ∀ l1 r l2, rev registers = l1 ++ r :: l2 →
        let start := regs_length (reg_mode r) l1 in
        let region :=
          region_of (reg_mode r)
            (py_suffix (Z.to_nat (in_regs_length registers))
               (join_bits
                  (py_suffix (Z.to_nat (in_regs_length registers / 8)) data)))
            (join_bits (take (Z.to_nat (out_regs_length registers / 8)) data))
        in
        ∃ v, m !! reg_name r = Some v
             ∧ int2 (py_slice start (start + reg_length r) region) = Some v
             ∧ 0 ≤ v < 2 ^ reg_length r.
Proof.
  intros Hvalid Hb Hlen.
  destruct (decode_values_slices registers data Hvalid Hb Hlen)
    as (m & Hm & Hslices).
  exists m. split; [done|]. intros l1 r l2 Heq. cbv zeta.
  destruct (Hslices l1 r l2 Heq) as (v & Hv & Hint & Hrange & _).
  by exists v.
Qed.

(** ** The signed reading of [print_regs] *)

Lemma land_sign_bit n p :
  0 < n → 0 ≤ p < 2 ^ n →
  Z.land p (Z.shiftl 1 (n - 1)) ≠ 0 ↔ 2 ^ (n - 1) ≤ p.
Proof.
  intros Hn Hp. rewrite Z.shiftl_1_l.
  assert (Hpow : 2 ^ n = 2 * 2 ^ (n - 1)).
  { rewrite <- Z.pow_succ_r by lia. f_equal. lia. }
  assert (Hpos : 0 < 2 ^ (n - 1)) by (apply Z.pow_pos_nonneg; lia).
  assert (Hbit : Z.testbit p (n - 1) = true ↔ 2 ^ (n - 1) ≤ p).
  { rewrite Z.testbit_true by lia.
    pose proof (Z.div_mod p (2 ^ (n - 1))) as Hdm.
    pose proof (Z.mod_pos_bound p (2 ^ (n - 1)) Hpos) as Hmb.
    assert (0 ≤ p / 2 ^ (n - 1) < 2) as Hq.
    { split; [apply Z.div_pos; lia|].
      apply Z.div_lt_upper_bound; lia. }
    assert (p / 2 ^ (n - 1) = 0 ∨ p / 2 ^ (n - 1) = 1) as [Hq0|Hq1] by lia.
    - rewrite Hq0 in *. change (0 mod 2) with 0. lia.
    - rewrite Hq1 in *. change (1 mod 2) with 1. lia. }
  rewrite <- Hbit. split.
  - intros Hne. destruct (Z.testbit p (n - 1)) eqn:Ht; [done|].
    exfalso. apply Hne. apply Z.bits_inj_0. intros i.
    rewrite Z.land_spec, Z.pow2_bits_eqb by lia.
    destruct (Z.eqb_spec (n - 1) i) as [<-|]; [by rewrite Ht|].
    apply andb_false_r.
  - intros Ht Hz. apply (f_equal (λ x, Z.testbit x (n - 1))) in Hz.
    rewrite Z.land_spec, Ht, Z.pow2_bits_true, Z.bits_0 in Hz by lia.
    done.
Qed.

(** The "Int val" of a signed register is the two's-complement reading
    of the pattern [read_regs] returned. *)
Lemma int_val_signed r p :
  reg_type r = signed → 0 < reg_length r → 0 ≤ p < 2 ^ reg_length r →
  int_val r p = Some (twos_complement (reg_length r) p).
Proof.
  intros Ht Hn Hp. unfold int_val, twos_complement. rewrite Ht. f_equal.
  pose proof (land_sign_bit (reg_length r) p Hn Hp) as Hs.
  rewrite !Z.shiftl_1_l in *.
  destruct (decide (2 ^ (reg_length r - 1) ≤ p)) as [Hge|Hlt].
  - by rewrite bool_decide_eq_true_2 by by apply Hs.
  - rewrite bool_decide_eq_false_2; [done|]. intros H. by apply Hlt, Hs.
Qed.

Lemma twos_complement_pattern r v :
  reg_type r = signed → 0 < reg_length r → representable r v →
  twos_complement (reg_length r) (pattern r v) = v.
Proof.
  intros Ht Hn Hr. unfold representable in Hr. rewrite Ht in Hr.
  unfold twos_complement, pattern.
  assert (Hpow : 2 ^ reg_length r = 2 * 2 ^ (reg_length r - 1)).
  { rewrite <- Z.pow_succ_r by lia. f_equal. lia. }
  destruct (Z.lt_ge_cases v 0) as [Hneg|Hpos].
  - assert (v mod 2 ^ reg_length r = v + 2 ^ reg_length r) as ->.
    { symmetry. apply Z.mod_unique with (-1); lia. }
    rewrite decide_True by lia. lia.
  - rewrite Z.mod_small by lia. rewrite decide_False by lia. done.
Qed.

Lemma pattern_nonneg r v :
  0 < reg_length r → representable r v → 0 ≤ v → pattern r v = v.
Proof.
  intros Hn Hr Hv. unfold pattern. apply Z.mod_small.
  assert (2 ^ (reg_length r - 1) < 2 ^ reg_length r)
    by (apply Z.pow_lt_mono_r; lia).
  unfold representable in Hr. destruct (reg_type r); lia.
Qed.

Lemma pattern_negative r v :
  0 < reg_length r → representable r v → v < 0 →
  pattern r v = v + 2 ^ reg_length r.
Proof.
  intros Hn Hr Hv. unfold pattern.
  assert (2 ^ (reg_length r - 1) < 2 ^ reg_length r)
    by (apply Z.pow_lt_mono_r; lia).
  symmetry. apply Z.mod_unique with (-1); [|lia].
  unfold representable in Hr. destruct (reg_type r); lia.
Qed.

(** ** [read_regs] on a complete frame *)

Lemma read_regs_frame registers data rest w :
  ser_rx (port w) = frame_of data ++ rest →
  fst (read_regs registers w) = decode_values registers data
  ∧ ser_rx (port (snd (read_regs registers w))) = rest
  ∧ heap (snd (read_regs registers w)) = heap w.
Proof.
  intros Hrx. unfold read_regs. cbn [ser_write ser_rx].
  rewrite Hrx, recv_frame_frame_of. done.
Qed.

(** ** Claims about the values [read_regs] returns *)

(** C4, as stated, fails: for the 4-bit signed register [s] and the region
    byte [0xF0], [read_regs] returns [15], not [-1]. *)
Lemma read_regs_signed_not_reinterpreted :
  ∃ regs_values,
    decode_values regs_s4 [0xF0] = Ret regs_values
    ∧ regs_values !! "s" = Some 15
    ∧ 2 ^ (4 - 1) ≤ 15
    ∧ regs_values !! "s" ≠ Some (15 - 2 ^ 4).
Proof.
  exists {[ "s" := 15 ]}. split_and!.
  - vm_compute. reflexivity.
  - vm_compute. reflexivity.
  - vm_compute. discriminate.
  - vm_compute. discriminate.
Qed.

(** C4, amended: for every schema and every well-formed byte sequence,
    [read_regs] returns for every register, signed ones included, the
    unsigned bit pattern [p] of its slice, [0 ≤ p < 2^n]: [p] is the number
    whose binary numeral is the register's slice of the region of its
    direction, the slice that starts after the registers of that direction
    declared later. The two's-complement reading ([p - 2^n] whenever
    [p ≥ 2^(n-1)]) is what [print_regs] computes from [p] for its "Int val"
    column. *)
Theorem read_regs_returns_patterns (registers : list Register)
    (data rest : list Z) (w : world) :
  valid_schema registers →
  Forall is_byte data →
  Z.of_nat (length data) = expected_bytes registers →
  ser_rx (port w) = frame_of data ++ rest →
  ∃ regs_values,
    fst (read_regs registers w) = Ret regs_values
    ∧ (∀ r, r ∈ registers →
        ∃ p, regs_values !! reg_name r = Some p
             ∧ 0 ≤ p < 2 ^ reg_length r
             ∧ (reg_type r = signed →
                int_val r p = Some (twos_complement (reg_length r) p)))
    ∧ ∀ l1 r l2, rev registers = l1 ++ r :: l2 →
        let start := regs_length (reg_mode r) l1 in
        let region :=
          region_of (reg_mode r) (in_region registers data)
            (out_region registers data) in
        ∃ p, regs_values !! reg_name r = Some p
             ∧ int2 (py_slice start (start + reg_length r) region) = Some p
             ∧ bits_of (Z.to_nat (reg_length r)) p
               = py_slice start (start + reg_length r) region.
Proof.
  intros Hvalid Hb Hlen Hrx.
  destruct (read_regs_frame registers data rest w Hrx) as (-> & _ & _).
  destruct (decode_values_slices registers data Hvalid Hb Hlen)
    as (m & Hm & Hslices).
  exists m. split; [done|]. split.
  - intros r Hr.
    rewrite <- elem_of_rev_iff in Hr.
    apply list_elem_of_split in Hr as (l1 & l2 & Heq).
    destruct (Hslices l1 r l2 Heq) as (p & Hp & _ & Hrange & _).
    exists p. split_and!; [done|lia|lia|].
    intros Ht. apply int_val_signed; [done| |done].
    destruct Hvalid as [_ Hpos]. rewrite Forall_forall in Hpos. apply Hpos.
    rewrite <- elem_of_rev_iff, Heq. apply elem_of_app. right. by left.
  - intros l1 r l2 Heq. cbv zeta.
    destruct (Hslices l1 r l2 Heq) as (p & Hp & Hint & Hrange & Hnum).
    destruct Hvalid as [_ Hpos].
    destruct (decode_regions registers data Hpos Hb Hlen)
      as (_ & _ & _ & _ & Hout).
    cbv zeta in Hout.
    unfold in_region, out_region. rewrite Hout.
    by exists p.
Qed.

Lemma read_regs_returns_patterns_witness :
  valid_schema regs_s4
  ∧ Forall is_byte [0xF0]
  ∧ Z.of_nat (length [0xF0]) = expected_bytes regs_s4
  ∧ ∃ regs_values,
      fst (read_regs regs_s4
             (mkWorld ∅ (mkSerial (frame_of [0xF0] ++ []) None [])))
      = Ret regs_values
      ∧ (∀ r, r ∈ regs_s4 →
          ∃ p, regs_values !! reg_name r = Some p
               ∧ 0 ≤ p < 2 ^ reg_length r
               ∧ (reg_type r = signed →
                  int_val r p = Some (twos_complement (reg_length r) p)))
      ∧ ∀ l1 r l2, rev regs_s4 = l1 ++ r :: l2 →
          let start := regs_length (reg_mode r) l1 in
          let region :=
            region_of (reg_mode r) (in_region regs_s4 [0xF0])
              (out_region regs_s4 [0xF0]) in
          ∃ p, regs_values !! reg_name r = Some p
               ∧ int2 (py_slice start (start + reg_length r) region) = Some p
               ∧ bits_of (Z.to_nat (reg_length r)) p
                 = py_slice start (start + reg_length r) region.
Proof.
  assert (H1 : valid_schema regs_s4).
  { split; [|by repeat constructor].
    apply NoDup_cons. split; [apply not_elem_of_nil|apply NoDup_nil_2]. }
  assert (H2 : Forall is_byte [0xF0])
    by (repeat constructor; unfold is_byte; lia).
  assert (H3 : Z.of_nat (length [0xF0]) = expected_bytes regs_s4)
    by reflexivity.
  split; [exact H1|]. split; [exact H2|]. split; [exact H3|].
  exact (read_regs_returns_patterns regs_s4 [0xF0] []
           (mkWorld ∅ (mkSerial (frame_of [0xF0] ++ []) None []))
           H1 H2 H3 eq_refl).
Defined.

(** ** The packed bit string *)

Lemma out_chunks_app write_values l1 l2 :
  out_chunks write_values (l1 ++ l2)
  = out_chunks write_values l1 ++ out_chunks write_values l2.
Proof. unfold out_chunks. by rewrite filter_app, map_app, concat_app. Qed.

Lemma out_chunks_cons_out write_values r regs v :
  reg_mode r = ModeOut → write_values !! reg_name r = Some v →
  out_chunks write_values (r :: regs)
  = value_bits r v ++ out_chunks write_values regs.
Proof.
  intros Ho Hv. unfold out_chunks. rewrite filter_cons_True by done.
  cbn [map concat]. by rewrite Hv.
Qed.

Lemma out_chunks_cons_in write_values r regs :
  reg_mode r ≠ ModeOut →
  out_chunks write_values (r :: regs) = out_chunks write_values regs.
Proof. intros Ho. unfold out_chunks. by rewrite filter_cons_False. Qed.

Lemma length_value_bits r v :
  0 < reg_length r → representable r v →
  length (value_bits r v) = Z.to_nat (reg_length r).
Proof.
  intros Hn Hr. rewrite value_bits_pattern by done. apply length_bits_of.
Qed.

Lemma out_chunks_bits write_values regs :
  in_range_values regs write_values →
  Forall (λ r, 0 < reg_length r) regs →
  Forall is_bit (out_chunks write_values regs)
  ∧ Z.of_nat (length (out_chunks write_values regs))
    = regs_length ModeOut regs.
Proof.
  intros Hin Hpos. induction Hpos as [|r regs Hr Hpos IH]; [done|].
  destruct IH as [IHb IHl].
  { intros r' Hr' Ho. apply Hin; [by right|done]. }
  rewrite regs_length_cons.
  destruct (decide (reg_mode r = ModeOut)) as [Ho|Ho].
  - destruct (Hin r) as (v & Hv & Hrep); [by left|done|].
    rewrite (out_chunks_cons_out _ _ _ v) by done. split.
    + apply Forall_app. split; [|done].
      rewrite value_bits_pattern by done. apply bits_of_is_bit.
    + rewrite length_app, length_value_bits by done. lia.
  - rewrite out_chunks_cons_in by done. split; [done|lia].
Qed.

Lemma in_range_values_rev registers write_values :
  in_range_values registers write_values →
  in_range_values (rev registers) write_values.
Proof. intros H r Hr. apply H. by apply elem_of_rev_iff. Qed.

Lemma Forall_rev_pos registers :
  Forall (λ r, 0 < reg_length r) registers →
  Forall (λ r, 0 < reg_length r) (rev registers).
Proof.
  intros H. apply Forall_forall. intros r Hr. rewrite elem_of_rev_iff in Hr.
  by apply (proj1 (Forall_forall _ _) H).
Qed.

Lemma pad_bits_is_bit s : Forall is_bit s → Forall is_bit (pad_bits s).
Proof.
  intros H. unfold pad_bits. apply Forall_app. split; [done|].
  apply Forall_replicate. by left.
Qed.

Lemma length_pad_bits s :
  Z.of_nat (length (pad_bits s)) = pad8 (Z.of_nat (length s)).
Proof.
  unfold pad_bits, pad8. rewrite length_app, length_replicate.
  rewrite Nat2Z.inj_add, Nat2Z.inj_mod, Nat2Z.inj_sub, Nat2Z.inj_mod.
  2:{ pose proof (Nat.mod_upper_bound (length s) 8). lia. }
  change (Z.of_nat 8) with 8. Z.div_mod_to_equations. lia.
Qed.

(** The bytes packed for in-range values: as many as the out region has,
    and their bits are the padded bit string. *)
Lemma pack_bytes_ok registers write_values :
  Forall (λ r, 0 < reg_length r) registers →
  in_range_values registers write_values →
  ∃ out_bytes,
    pack_bytes registers write_values = Ret out_bytes
    ∧ Forall is_byte out_bytes
    ∧ Z.of_nat (length out_bytes) = out_regs_length registers / 8
    ∧ join_bits out_bytes
      = pad_bits (out_chunks write_values (rev registers)).
Proof.
  intros Hpos Hin. unfold pack_bytes. rewrite pack_bits_ok by done.
  destruct (out_chunks_bits write_values (rev registers))
    as [Hb Hl]; [by apply in_range_values_rev|by apply Forall_rev_pos|].
  rewrite regs_length_rev in Hl.
  set (padded := pad_bits (out_chunks write_values (rev registers))).
  assert (Hpl : Z.of_nat (length padded) = out_regs_length registers).
  { unfold padded, out_regs_length. by rewrite length_pad_bits, Hl. }
  assert (Hpb : Forall is_bit padded) by by apply pad_bits_is_bit.
  set (k := Z.to_nat (out_regs_length registers / 8)).
  assert (Hk : length padded = (8 * k)%nat).
  { unfold k. pose proof (pad8_div (regs_length ModeOut registers)) as Hd.
    pose proof (pad8_bounds (regs_length ModeOut registers)).
    pose proof (regs_length_nonneg ModeOut registers Hpos).
    unfold out_regs_length in *.
    assert (0 ≤ pad8 (regs_length ModeOut registers) / 8)
      by (apply Z.div_pos; lia).
    lia. }
  destruct (split8_octets k padded Hk Hpb) as (Hc & Ho & Hlk).
  pose proof (byte_values_concat (split8 k padded) Ho) as Hbv.
  rewrite Hc in Hbv. rewrite Hbv.
  exists (map octet_val (split8 k padded)). split_and!.
  - done.
  - by apply octet_vals_bytes.
  - rewrite length_map, Hlk. unfold k. apply Z2Nat.id.
    apply Z.div_pos; [|lia]. rewrite <- Hpl. lia.
  - by rewrite join_bits_octet_vals.
Qed.

(** ** Claims about the round trip *)

(** C1, as stated, fails for a negative value of a signed register:
    [-1] in the 4-bit signed register [s] is packed as the byte [0xF0], and
    the extraction of [read_regs] returns [15] for it. *)
Lemma roundtrip_negative_signed :
  representable (mkReg "s" ModeOut 4 signed) (-1)
  ∧ pack_bytes regs_s4 {[ "s" := -1 ]} = Ret [0xF0]
  ∧ decode_values regs_s4 [0xF0] = Ret {[ "s" := 15 ]}
  ∧ ({[ "s" := 15 ]} : gmap string Z) ≠ {[ "s" := -1 ]}.
Proof.
  split_and!.
  - unfold representable. cbn. lia.
  - vm_compute. reflexivity.
  - vm_compute. reflexivity.
  - intros H. apply (f_equal (λ m : gmap string Z, m !! "s")) in H.
    vm_compute in H. discriminate.
Qed.

(** C1, amended: for every schema and every assignment of in-range values
    to the out-direction registers (the direction [write_regs] packs),
    the extraction of [read_regs] applied to the packed bytes (followed by
    the bytes of the in region) returns for each out register the bit
    pattern of its value: the value itself when it is not negative, and
    the value plus [2^n] for a negative value of a signed register; the
    signed reading that [print_regs] computes from that pattern is the
    original value. *)
Theorem pack_unpack_roundtrip (registers : list Register)
    (write_values : gmap string Z) (in_bytes : list Z) :
  valid_schema registers →
  in_range_values registers write_values →
  Forall is_byte in_bytes →
  Z.of_nat (length in_bytes) = in_regs_length registers / 8 →
  ∃ out_bytes regs_values,
    pack_bytes registers write_values = Ret out_bytes
    ∧ decode_values registers (out_bytes ++ in_bytes) = Ret regs_values
    ∧ ∀ r v, r ∈ registers → reg_mode r = ModeOut →
        write_values !! reg_name r = Some v →
        regs_values !! reg_name r = Some (pattern r v)
        ∧ (0 ≤ v → pattern r v = v)
        ∧ (v < 0 → pattern r v = v + 2 ^ reg_length r)
        ∧ (reg_type r = signed → int_val r (pattern r v) = Some v).
Proof.
  intros Hvalid Hin Hib Hil. pose proof Hvalid as [Hnd Hpos].
  destruct (pack_bytes_ok registers write_values Hpos Hin)
    as (out_bytes & Hpack & Hob & Hol & Hjoin).
  assert (Hdata : Forall is_byte (out_bytes ++ in_bytes))
    by (apply Forall_app; by split).
  assert (Hlen : Z.of_nat (length (out_bytes ++ in_bytes))
                 = expected_bytes registers).
  { rewrite expected_bytes_split, length_app. lia. }
  destruct (decode_values_spec registers _ Hvalid Hdata Hlen)
    as (m & Hm & Hslices).
  exists out_bytes, m. split_and!; [done|done|].
  intros r v Hr Ho Hv.
  assert (Hrpos : 0 < reg_length r)
    by by apply (proj1 (Forall_forall _ _) Hpos).
  destruct (Hin r Hr Ho) as (v' & Hv' & Hrep).
  assert (v' = v) as -> by congruence.
  assert (regs_values_r : m !! reg_name r = Some (pattern r v)).
  { pose proof Hr as Hrr. rewrite <- elem_of_rev_iff in Hrr.
    apply list_elem_of_split in Hrr as (l1 & l2 & Heq).
    destruct (Hslices l1 r l2 Heq) as (p & Hp & Hslice & _).
    rewrite Hp. f_equal. rewrite Ho in Hslice. cbn [region_of] in Hslice.
    replace (Z.to_nat (out_regs_length registers / 8))
      with (length out_bytes) in Hslice by lia.
    rewrite take_app_length, Hjoin, Heq in Hslice.
    rewrite out_chunks_app, (out_chunks_cons_out _ _ _ v) in Hslice by done.
    unfold pad_bits in Hslice. rewrite <- !app_assoc in Hslice.
    assert (Hl1 : regs_length ModeOut l1
                  = Z.of_nat (length (out_chunks write_values l1))).
    { pose proof (in_range_values_rev _ _ Hin) as Hin'.
      pose proof (Forall_rev_pos _ Hpos) as Hpos'.
      rewrite Heq in Hin', Hpos'.
      apply Forall_app in Hpos' as [Hpos1 _].
      destruct (out_chunks_bits write_values l1) as [_ <-]; [|done|done].
      intros r' Hr' Ho'. apply Hin'; [|done].
      apply elem_of_app. by left. }
    replace (regs_length ModeOut l1 + reg_length r)
      with (regs_length ModeOut l1 + Z.of_nat (length (value_bits r v)))
      in Hslice by (rewrite length_value_bits by done; lia).
    rewrite py_slice_middle in Hslice by done.
    rewrite value_bits_pattern in Hslice by done.
    rewrite int2_bits_of in Hslice.
    - congruence.
    - lia.
    - rewrite Z2Nat.id by lia. by apply representable_pattern_bound. }
  split_and!; [done| | |].
  - by apply pattern_nonneg.
  - by apply pattern_negative.
  - intros Ht. rewrite int_val_signed;
      [|done|done|by apply representable_pattern_bound].
    by rewrite twos_complement_pattern.
Qed.

Lemma pack_unpack_roundtrip_witness :
  valid_schema regs_s4
  ∧ in_range_values regs_s4 {[ "s" := -1 ]}
  ∧ Forall is_byte []
  ∧ Z.of_nat (length (@nil Z)) = in_regs_length regs_s4 / 8
  ∧ ∃ out_bytes regs_values,
      pack_bytes regs_s4 {[ "s" := -1 ]} = Ret out_bytes
      ∧ decode_values regs_s4 (out_bytes ++ []) = Ret regs_values
      ∧ ∀ r v, r ∈ regs_s4 → reg_mode r = ModeOut →
          ({[ "s" := -1 ]} : gmap string Z) !! reg_name r = Some v →
          regs_values !! reg_name r = Some (pattern r v)
          ∧ (0 ≤ v → pattern r v = v)
          ∧ (v < 0 → pattern r v = v + 2 ^ reg_length r)
          ∧ (reg_type r = signed → int_val r (pattern r v) = Some v).
Proof.
  assert (H1 : valid_schema regs_s4).
  { split; [|by repeat constructor].
    apply NoDup_cons. split; [apply not_elem_of_nil|apply NoDup_nil_2]. }
  assert (H2 : in_range_values regs_s4 {[ "s" := -1 ]}).
  { intros r Hr _. apply list_elem_of_singleton in Hr as ->.
    exists (-1). split; [reflexivity|]. unfold representable. cbn. lia. }
  assert (H3 : Forall is_byte []) by constructor.
  assert (H4 : Z.of_nat (length (@nil Z)) = in_regs_length regs_s4 / 8)
    by reflexivity.
  split; [exact H1|]. split; [exact H2|]. split; [exact H3|].
  split; [exact H4|].
  exact (pack_unpack_roundtrip regs_s4 {[ "s" := -1 ]} [] H1 H2 H3 H4).
Defined.

(** ** The heap and the port under [write_regs] *)

Lemma alloc_spec d w :
  ∀ l0, is_Some (heap w !! l0) →
    (alloc d w).1 ≠ l0 ∧ heap (alloc d w).2 !! l0 = heap w !! l0.
Proof.
  intros l0 Hl0. unfold alloc. cbn [fst snd heap].
  assert (fresh (dom (heap w)) ≠ l0) as Hne.
  { intros <-. apply elem_of_dom in Hl0. by apply is_fresh in Hl0. }
  split; [done|]. by rewrite lookup_insert_ne.
Qed.

Lemma deref_alloc d w : deref (alloc d w).2 (alloc d w).1 = d.
Proof. unfold alloc, deref. cbn [fst snd heap]. by rewrite lookup_insert_eq. Qed.

Lemma port_alloc d w : port (alloc d w).2 = port w.
Proof. done. Qed.

Lemma read_regs_heap registers w :
  heap (snd (read_regs registers w)) = heap w.
Proof.
  unfold read_regs. cbn [ser_write].
  destruct (recv_frame _) as [[data|e] rest]; done.
Qed.

(** [read_regs] starts by sending [READ_REQ], and only adds to the log. *)
Lemma read_regs_log registers w :
  ∃ more,
    ser_log (port (snd (read_regs registers w)))
    = ser_log (port w)
      ++ Sent [READ_REQ] (fst (ser_write [READ_REQ] (port w))) :: more.
Proof.
  unfold read_regs. cbn [ser_write fst].
  destruct (recv_frame _) as [[data|e] rest]; cbn [snd port ser_log with_port];
    rewrite <- app_assoc; eexists; reflexivity.
Qed.

Lemma read_regs_port_only registers w1 w2 :
  port w1 = port w2 →
  fst (read_regs registers w1) = fst (read_regs registers w2)
  ∧ port (snd (read_regs registers w1)) = port (snd (read_regs registers w2)).
Proof.
  intros Hp. unfold read_regs. rewrite Hp. cbn [ser_write].
  destruct (recv_frame _) as [[data|e] rest]; done.
Qed.

Lemma fill_missing_other names current_values cwv : ∀ w,
  port (snd (fill_missing names current_values cwv w)) = port w
  ∧ ∀ l, l ≠ cwv →
      heap (snd (fill_missing names current_values cwv w)) !! l
      = heap w !! l.
Proof.
  induction names as [|name names IH]; intros w; [done|].
  cbn [fill_missing]. destruct (current_values !! name) as [v|]; [|done].
  destruct (IH (store cwv (<[name:=v]> (deref w cwv)) w)) as [Hp Hh].
  split; [by rewrite Hp|].
  intros l Hl. rewrite Hh by done. unfold store. cbn [heap].
  by rewrite lookup_insert_ne.
Qed.

(** What [read_back_missing_out_regs] leaves behind: every object that
    existed before keeps its contents. *)
Lemma read_back_keeps_heap registers write_values w :
  ∀ l, is_Some (heap w !! l) →
    heap (snd (read_back_missing_out_regs registers write_values w)) !! l
    = heap w !! l.
Proof.
  intros l Hl. unfold read_back_missing_out_regs.
  destruct (alloc_spec (deref w write_values) w l Hl) as [Hne Hh].
  destruct (alloc (deref w write_values) w) as [cwv w1] eqn:Ha.
  cbn [fst snd] in Hne, Hh. unfold merge_missing.
  destruct (missing_out registers (deref w1 cwv)) as [|n names]; [done|].
  pose proof (read_regs_heap registers w1) as Hrh.
  destruct (read_regs registers w1) as [[current_values|e] w2];
    cbn [snd] in Hrh; [|cbn [snd]; by rewrite Hrh].
  destruct (fill_missing_other (n :: names) current_values cwv w2) as [_ Hf].
  specialize (Hf l (not_eq_sym Hne)).
  destruct (fill_missing (n :: names) current_values cwv w2) as [[?|e] w3];
    cbn [snd] in *; by rewrite Hf, Hrh.
Qed.

Lemma write_regs_heap registers write_values w :
  heap (snd (write_regs registers write_values w))
  = heap (snd (read_back_missing_out_regs registers write_values w)).
Proof.
  unfold write_regs.
  destruct (read_back_missing_out_regs registers write_values w)
    as [[cwv|e] w1]; [|done].
  destruct (pack_bits registers (deref w1 cwv)) as [bits|e]; [|done].
  destruct (build_frame bits) as [write_bytes|e]; [|done].
  cbn [ser_write]. by destruct (bool_decide _).
Qed.

(** ** Claim about the caller's mapping *)

(** C10: [write_regs] never changes the mapping object the caller passed:
    whatever the call does (also when it fills missing registers from a
    read-back, and when it raises), the object holds the same entries
    afterwards; the merge is made on the copy. *)
Theorem write_regs_keeps_caller_mapping (registers : list Register)
    (write_values : loc) (d : gmap string Z) (w : world) :
  heap w !! write_values = Some d →
  heap (snd (write_regs registers write_values w)) !! write_values = Some d.
Proof.
  intros Hd. rewrite write_regs_heap, read_back_keeps_heap; [done|].
  by exists d.
Qed.

Lemma write_regs_keeps_caller_mapping_witness :
  heap (mkWorld {[ 1%positive := {[ "a" := 1 ]} ]}
          (mkSerial (frame_of [0x01; 0x80]) None []))
    !! 1%positive = Some {[ "a" := 1 ]}
  ∧ heap (snd (write_regs regs_ab 1%positive
                 (mkWorld {[ 1%positive := {[ "a" := 1 ]} ]}
                    (mkSerial (frame_of [0x01; 0x80]) None []))))
      !! 1%positive = Some {[ "a" := 1 ]}.
Proof.
  assert (H : heap (mkWorld {[ 1%positive := {[ "a" := 1 ]} ]}
                      (mkSerial (frame_of [0x01; 0x80]) None []))
                !! 1%positive = Some ({[ "a" := 1 ]} : gmap string Z))
    by reflexivity.
  split; [exact H|].
  exact (write_regs_keeps_caller_mapping regs_ab 1%positive {[ "a" := 1 ]}
           (mkWorld {[ 1%positive := {[ "a" := 1 ]} ]}
              (mkSerial (frame_of [0x01; 0x80]) None [])) H).
Defined.

(** ** Missing registers and the read-back *)

Lemma elem_of_out_register_names registers r :
  r ∈ registers → reg_mode r = ModeOut →
  reg_name r ∈ out_register_names registers.
Proof.
  intros Hr Ho. unfold out_register_names. apply list_elem_of_fmap.
  exists r. split; [done|]. by apply list_elem_of_filter.
Qed.

Lemma missing_out_nil registers d :
  missing_out registers d = [] ↔ covers_out registers d.
Proof.
  unfold missing_out, covers_out, out_register_names. split.
  - intros Hnil r Hr Ho.
    destruct (d !! reg_name r) as [v|] eqn:Hv; [by exists v|].
    exfalso.
    assert (reg_name r ∈ filter (λ name, d !! name = None)
              (map reg_name (filter (λ r, reg_mode r = ModeOut) registers)))
      as Hin.
    { apply list_elem_of_filter. split; [done|].
      by apply elem_of_out_register_names. }
    rewrite Hnil in Hin. by apply elem_of_nil in Hin.
  - intros Hcov.
    destruct (filter _ _) as [|n ns] eqn:Hf; [done|]. exfalso.
    assert (n ∈ n :: ns) as Hin by by left.
    rewrite <- Hf in Hin. apply list_elem_of_filter in Hin as [Hnone Hin].
    apply list_elem_of_fmap in Hin as (r & -> & Hr).
    apply list_elem_of_filter in Hr as [Ho Hr].
    destruct (Hcov r Hr Ho) as [v Hv]. congruence.
Qed.

(** With every out register supplied, the read-back block does nothing. *)
Lemma merge_missing_covered registers cwv w1 :
  covers_out registers (deref w1 cwv) →
  merge_missing registers cwv w1 = (Ret cwv, w1).
Proof.
  intros Hcov. unfold merge_missing.
  by rewrite (proj2 (missing_out_nil _ _) Hcov).
Qed.

(** With an out register missing, the read-back block starts by sending
    [READ_REQ]. *)
Lemma merge_missing_log registers cwv w1 :
  ¬ covers_out registers (deref w1 cwv) →
  ∃ more,
    ser_log (port (snd (merge_missing registers cwv w1)))
    = ser_log (port w1)
      ++ Sent [READ_REQ] (fst (ser_write [READ_REQ] (port w1))) :: more.
Proof.
  intros Hcov. unfold merge_missing.
  destruct (missing_out registers (deref w1 cwv)) as [|n names] eqn:Hm.
  { exfalso. by apply Hcov, missing_out_nil. }
  destruct (read_regs_log registers w1) as [more Hlog].
  destruct (read_regs registers w1) as [[current_values|e] w2];
    cbn [snd] in Hlog; [|by exists more].
  destruct (fill_missing_other (n :: names) current_values cwv w2) as [Hp _].
  destruct (fill_missing (n :: names) current_values cwv w2) as [[?|e] w3];
    cbn [snd] in *; rewrite Hp; by exists more.
Qed.

(** After the read-back, [write_regs] only adds to the log. *)
Lemma write_regs_log_extends registers write_values w :
  ∃ more,
    ser_log (port (snd (write_regs registers write_values w)))
    = ser_log (port (snd (read_back_missing_out_regs registers
                            write_values w))) ++ more.
Proof.
  unfold write_regs.
  destruct (read_back_missing_out_regs registers write_values w)
    as [[cwv|e] w1]; [|exists []; by rewrite app_nil_r].
  destruct (pack_bits registers (deref w1 cwv)) as [bits|e];
    [|exists []; by rewrite app_nil_r].
  destruct (build_frame bits) as [write_bytes|e];
    [|exists []; by rewrite app_nil_r].
  cbn [ser_write]. destruct (bool_decide _); cbn [snd port with_port ser_log];
    eexists; reflexivity.
Qed.

(** ** Claim about the order of the range check and the transport *)

(** C8, as stated, fails: with register [b] missing from the supplied
    values and the out-of-range value [2] for the 1-bit register [a],
    [write_regs] sends [READ_REQ] and reads the whole response before it
    raises the range error. *)
Lemma range_error_after_read_back :
  let w := mkWorld {[ 1%positive := {[ "a" := 2 ]} ]}
             (mkSerial (frame_of [0x01; 0x80]) None []) in
  fst (write_regs regs_ab 1%positive w)
  = Raise (range_error (mkReg "a" ModeOut 1 std_logic) 2)
  ∧ ser_log (port (snd (write_regs regs_ab 1%positive w)))
    = [ Sent [READ_REQ] 1; Recv (Some START_WRITE); Recv (Some 0x01);
        Recv (Some 0x80); Recv (Some END_WRITE) ]
  ∧ ser_log (port (snd (write_regs regs_ab 1%positive w)))
    ≠ ser_log (port w).
Proof. split_and!; vm_compute; [reflexivity|reflexivity|discriminate]. Qed.

(** ** Entries that are not out-direction registers *)

Lemma pack_loop_agree d1 d2 regs : ∀ acc,
  (∀ r, r ∈ regs → reg_mode r = ModeOut →
        d1 !! reg_name r = d2 !! reg_name r) →
  pack_loop d1 regs acc = pack_loop d2 regs acc.
Proof.
  induction regs as [|r regs IH]; intros acc Hag; [done|].
  cbn [pack_loop]. destruct (is_out r) eqn:Ho.
  - apply is_out_true in Ho. rewrite (Hag r) by (done || by left).
    destruct (d2 !! reg_name r) as [v|]; [|done].
    destruct (out_of_range r v); [done|].
    apply IH. intros r' Hr'. apply Hag. by right.
  - apply IH. intros r' Hr'. apply Hag. by right.
Qed.

Lemma pack_bits_agree registers d1 d2 :
  agree_out registers d1 d2 → pack_bits registers d1 = pack_bits registers d2.
Proof.
  intros Hag. unfold pack_bits.
  rewrite (pack_loop_agree d1 d2); [done|].
  intros r Hr Ho. apply Hag. rewrite elem_of_rev_iff in Hr.
  by apply elem_of_out_register_names.
Qed.

Lemma missing_out_agree registers d1 d2 :
  agree_out registers d1 d2 →
  missing_out registers d1 = missing_out registers d2.
Proof.
  unfold agree_out, missing_out.
  induction (out_register_names registers) as [|n names IH]; intros Hag;
    [done|].
  assert (Hn : d1 !! n = d2 !! n) by (apply Hag; by left).
  assert (Hrest : filter (λ name, d1 !! name = None) names
                  = filter (λ name, d2 !! name = None) names).
  { apply IH. intros n' Hn'. apply Hag. by right. }
  destruct (d2 !! n) as [v|] eqn:Hv.
  - rewrite !filter_cons_False by (rewrite ?Hn, ?Hv; done). done.
  - rewrite !filter_cons_True by (rewrite ?Hn, ?Hv; done). by rewrite Hrest.
Qed.

Lemma deref_store l d w : deref (store l d w) l = d.
Proof. unfold deref, store. cbn [heap]. by rewrite lookup_insert_eq. Qed.

Lemma fill_missing_agree registers names current_values cwv : ∀ w1 w2,
  port w1 = port w2 →
  agree_out registers (deref w1 cwv) (deref w2 cwv) →
  fst (fill_missing names current_values cwv w1)
  = fst (fill_missing names current_values cwv w2)
  ∧ port (snd (fill_missing names current_values cwv w1))
    = port (snd (fill_missing names current_values cwv w2))
  ∧ agree_out registers
      (deref (snd (fill_missing names current_values cwv w1)) cwv)
      (deref (snd (fill_missing names current_values cwv w2)) cwv).
Proof.
  induction names as [|name names IH]; intros w1 w2 Hp Hag; [done|].
  cbn [fill_missing]. destruct (current_values !! name) as [v|]; [|done].
  apply IH; [done|].
  rewrite !deref_store. intros n Hn.
  destruct (decide (name = n)) as [->|Hne].
  - by rewrite !lookup_insert_eq.
  - rewrite !lookup_insert_ne by done. by apply Hag.
Qed.

Lemma deref_read_regs registers w l :
  deref (snd (read_regs registers w)) l = deref w l.
Proof. unfold deref. by rewrite read_regs_heap. Qed.

Lemma merge_missing_agree registers cwv w1 w2 :
  port w1 = port w2 →
  agree_out registers (deref w1 cwv) (deref w2 cwv) →
  fst (merge_missing registers cwv w1) = fst (merge_missing registers cwv w2)
  ∧ port (snd (merge_missing registers cwv w1))
    = port (snd (merge_missing registers cwv w2))
  ∧ agree_out registers
      (deref (snd (merge_missing registers cwv w1)) cwv)
      (deref (snd (merge_missing registers cwv w2)) cwv).
Proof.
  intros Hp Hag. unfold merge_missing.
  rewrite (missing_out_agree registers _ _ Hag).
  destruct (missing_out registers (deref w2 cwv)) as [|n names]; [done|].
  destruct (read_regs_port_only registers w1 w2 Hp) as [Hres Hport].
  pose proof (deref_read_regs registers w1 cwv) as Hd1.
  pose proof (deref_read_regs registers w2 cwv) as Hd2.
  destruct (read_regs registers w1) as [res1 w1'].
  destruct (read_regs registers w2) as [res2 w2'].
  cbn [fst snd] in *. subst res2.
  destruct res1 as [current_values|e].
  - destruct (fill_missing_agree registers (n :: names) current_values cwv
                w1' w2' Hport) as (Hf & Hfp & Hfa);
      [by rewrite Hd1, Hd2|].
    destruct (fill_missing (n :: names) current_values cwv w1')
      as [res1 w1''].
    destruct (fill_missing (n :: names) current_values cwv w2')
      as [res2 w2''].
    cbn [fst snd] in *. subst res2. by destruct res1.
  - cbn [fst snd]. split_and!; [done|done|]. by rewrite Hd1, Hd2.
Qed.

Lemma merge_missing_ret registers cwv w cwv' :
  fst (merge_missing registers cwv w) = Ret cwv' → cwv' = cwv.
Proof.
  unfold merge_missing.
  destruct (missing_out registers (deref w cwv)); [cbn; congruence|].
  destruct (read_regs registers w) as [[?|?] ?]; [|cbn; congruence].
  destruct (fill_missing _ _ _ _) as [[?|?] ?]; cbn; congruence.
Qed.

Lemma read_back_with_entry registers l d name value w :
  heap w !! l = Some d →
  name ∉ out_register_names registers →
  ∃ res w1 w2,
    read_back_missing_out_regs registers l (with_entry l name value d w)
    = (res, w1)
    ∧ read_back_missing_out_regs registers l w = (res, w2)
    ∧ port w1 = port w2
    ∧ ∀ cwv, res = Ret cwv →
        agree_out registers (deref w1 cwv) (deref w2 cwv).
Proof.
  intros Hd Hname. unfold read_back_missing_out_regs, alloc.
  assert (Hdom : dom (heap (with_entry l name value d w)) = dom (heap w)).
  { unfold with_entry. cbn [heap]. apply dom_insert_lookup_L. by exists d. }
  rewrite Hdom. set (cwv := fresh (dom (heap w))).
  assert (Hd1 : deref (with_entry l name value d w) l = <[name := value]> d).
  { unfold deref, with_entry. cbn [heap]. by rewrite lookup_insert_eq. }
  assert (Hd2 : deref w l = d) by (unfold deref; by rewrite Hd).
  rewrite Hd1, Hd2.
  set (w1 := {| heap := <[cwv := <[name := value]> d]>
                          (heap (with_entry l name value d w));
                port := port (with_entry l name value d w) |}).
  set (w2 := {| heap := <[cwv := d]> (heap w); port := port w |}).
  assert (Hag : agree_out registers (deref w1 cwv) (deref w2 cwv)).
  { unfold deref, w1, w2. cbn [heap]. rewrite !lookup_insert_eq. cbn [default].
    change (agree_out registers (<[name := value]> d) d).
    intros n Hn. rewrite lookup_insert_ne; [done|]. by intros ->. }
  destruct (merge_missing_agree registers cwv w1 w2 eq_refl Hag)
    as (Hres & Hport & Hagree).
  pose proof (merge_missing_ret registers cwv w1) as Hret1.
  destruct (merge_missing registers cwv w1) as [res1 w1'].
  destruct (merge_missing registers cwv w2) as [res2 w2'].
  cbn [fst snd] in *. subst res2.
  exists res1, w1', w2'. split_and!; try done.
  intros cwv' Hret. by rewrite (Hret1 cwv' Hret).
Qed.

Lemma check_names_ok out_names keys :
  check_names out_names keys = Ret tt
  ↔ ∀ n, n ∈ keys → n ∈ out_names.
Proof.
  induction keys as [|k keys IH].
  - split; [|done]. intros _ n Hn. by apply elem_of_nil in Hn.
  - cbn [check_names]. destruct (bool_decide (k ∈ out_names)) eqn:Hk.
    + apply bool_decide_eq_true in Hk. rewrite IH. split.
      * intros H n [->|Hn]%elem_of_cons; [done|by apply H].
      * intros H n Hn. apply H. by right.
    + apply bool_decide_eq_false in Hk. split; [done|].
      intros H. exfalso. apply Hk, H. by left.
Qed.

Lemma fold_insert_lookup (values : list (string * Z)) :
  ∀ (m0 : gmap string Z) (n : string),
  fold_left (λ (m : gmap string Z) kv, <[kv.1 := kv.2]> m) values m0 !! n
  = match last (filter (λ kv, kv.1 = n) values) with
    | Some kv => Some kv.2
    | None => m0 !! n
    end.
Proof.
  induction values as [|[k v] values IH]; intros m0 n; [done|].
  cbn [fold_left]. rewrite IH. cbn [fst snd].
  destruct (decide (k = n)) as [->|Hne].
  - rewrite filter_cons_True by done. rewrite last_cons.
    destruct (last (filter (λ kv, kv.1 = n) values)); [done|].
    cbn [snd]. by rewrite lookup_insert_eq.
  - rewrite filter_cons_False by done.
    destruct (last (filter (λ kv, kv.1 = n) values)); [done|].
    by rewrite lookup_insert_ne.
Qed.

Lemma parse_write_value_ret py_int0 v kv :
  parse_write_value py_int0 v = Ret kv ↔ parsed_as py_int0 v kv.
Proof.
  unfold parse_write_value, parsed_as. destruct kv as [k z]. cbn [fst snd].
  destruct (split_on "=" v) as [|name [|value [|? ?]]].
  - split; [done|]. by intros (? & ? & _).
  - split; [done|]. by intros (? & ? & _).
  - split.
    + destruct (py_int0 value) as [z'|] eqn:Hz; [|done].
      intros H. inversion H; subst. by exists value.
    + intros (value' & Heq & Hz). inversion Heq; subst. by rewrite Hz.
  - split; [done|]. by intros (? & ? & _).
Qed.

Lemma parse_write_value_raise py_int0 v e :
  parse_write_value py_int0 v = Raise e → ∃ msg, e = ValueError msg.
Proof.
  unfold parse_write_value.
  destruct (split_on "=" v) as [|name [|value [|? ?]]];
    [| |destruct (py_int0 value)|]; intros H; inversion H; by eexists.
Qed.

Lemma parse_write_values_ret py_int0 values : ∀ pairs,
  parse_write_values py_int0 values = Ret pairs
  ↔ Forall2 (parsed_as py_int0) values pairs.
Proof.
  induction values as [|v values IH]; intros pairs.
  - cbn. split.
    + intros H. inversion H. constructor.
    + intros H. by apply Forall2_nil_inv_l in H as ->.
  - cbn [parse_write_values]. split.
    + destruct (parse_write_value py_int0 v) as [kv|] eqn:Hv; [|done].
      destruct (parse_write_values py_int0 values) as [kvs|] eqn:Hvs; [|done].
      intros H. inversion H; subst. constructor.
      * by apply parse_write_value_ret.
      * by apply IH.
    + intros H. apply Forall2_cons_inv_l in H as (kv & kvs & Hkv & Hkvs & ->).
      apply parse_write_value_ret in Hkv. apply IH in Hkvs.
      by rewrite Hkv, Hkvs.
Qed.

Lemma parse_write_values_raise py_int0 values e :
  parse_write_values py_int0 values = Raise e → ∃ msg, e = ValueError msg.
Proof.
  induction values as [|v values IH]; [done|].
  cbn [parse_write_values].
  destruct (parse_write_value py_int0 v) as [kv|e'] eqn:Hv.
  - destruct (parse_write_values py_int0 values) as [kvs|e'']; [done|].
    intros H. inversion H; subst. by apply IH.
  - intros H. inversion H; subst. by eapply parse_write_value_raise.
Qed.

Lemma check_names_first_bad out_names keys e :
  check_names out_names keys = Raise e →
  ∃ l1 bad l2, keys = l1 ++ bad :: l2
    ∧ (∀ n, n ∈ l1 → n ∈ out_names) ∧ (bad ∉ out_names)
    ∧ e = ParserError ("argument -w/--write: " +:+ bad
                       +:+ " is not a valid out-mode register name.").
Proof.
  induction keys as [|k keys IH]; [done|].
  cbn [check_names]. destruct (bool_decide (k ∈ out_names)) eqn:Hk.
  - apply bool_decide_eq_true in Hk. intros H.
    destruct (IH H) as (l1 & bad & l2 & -> & Hl1 & Hbad & ->).
    exists (k :: l1), bad, l2. split_and!; [done| |done|done].
    intros n [->|Hn]%elem_of_cons; [done|by apply Hl1].
  - apply bool_decide_eq_false in Hk. intros H. inversion H.
    exists [], k, keys. split_and!; [done| |done|done].
    intros n Hn. by apply elem_of_nil in Hn.
Qed.

(** [WriteAction] once every argument has been parsed. *)
Lemma WriteAction_parsed py_int0 registers values pairs :
  values ≠ [] → Forall2 (parsed_as py_int0) values pairs →
  WriteAction py_int0 registers values
  = match check_names (out_register_names registers) (map fst pairs) with
    | Raise e => Raise e
    | Ret _ =>
        Ret (fold_left (λ (m : gmap string Z) kv, <[kv.1 := kv.2]> m)
               pairs ∅)
    end.
Proof.
  intros Hne Hp. unfold WriteAction.
  destruct values as [|v values]; [done|].
  rewrite bool_decide_eq_false_2 by (cbn; lia).
  by rewrite (proj2 (parse_write_values_ret _ _ _) Hp).
Qed.

(** An argument that does not parse ends [WriteAction] in [ValueError]. *)
Lemma WriteAction_unparsed py_int0 registers values :
  values ≠ [] →
  (¬ ∃ pairs, Forall2 (parsed_as py_int0) values pairs) →
  ∃ msg, WriteAction py_int0 registers values = Raise (ValueError msg).
Proof.
  intros Hne Hno. unfold WriteAction.
  destruct values as [|v values]; [done|].
  rewrite bool_decide_eq_false_2 by (cbn; lia).
  destruct (parse_write_values py_int0 (v :: values)) as [pairs|e] eqn:Hp.
  - exfalso. apply Hno. exists pairs. by apply parse_write_values_ret.
  - destruct (parse_write_values_raise _ _ _ Hp) as [msg ->]. by exists msg.
Qed.

Lemma WriteAction_ret py_int0 registers values m :
  WriteAction py_int0 registers values = Ret m →
  values ≠ []
  ∧ ∃ pairs, Forall2 (parsed_as py_int0) values pairs
      ∧ (∀ n, n ∈ map fst pairs → n ∈ out_register_names registers)
      ∧ m = fold_left (λ (m : gmap string Z) kv, <[kv.1 := kv.2]> m)
              pairs ∅.
Proof.
  unfold WriteAction. destruct values as [|v values]; [done|].
  rewrite bool_decide_eq_false_2 by (cbn; lia).
  destruct (parse_write_values py_int0 (v :: values)) as [pairs|] eqn:Hp;
    [|done].
  destruct (check_names _ _) as [[]|] eqn:Hc; [|done].
  intros H. inversion H. split; [done|]. exists pairs. split_and!.
  - by apply parse_write_values_ret.
  - by apply check_names_ok.
  - done.
Qed.

(** ** Claim about names that are not out-direction registers *)

(** C9, as stated, fails: [write_regs] called with the extra name [zz]
    raises nothing and sends the frame. *)
Lemma write_regs_accepts_unknown_name :
  let w := mkWorld {[ 1%positive := {[ "a" := 1; "b" := 0xFF; "zz" := 7 ]} ]}
             (mkSerial [] None []) in
  ("zz" ∉ out_register_names regs_ab)
  ∧ fst (write_regs regs_ab 1%positive w) = Ret tt
  ∧ ser_log (port (snd (write_regs regs_ab 1%positive w)))
    = [ Sent [START_WRITE; 0xFF; 0x80; END_WRITE] 4 ].
Proof.
  split_and!.
  - vm_compute. intros H. repeat (apply elem_of_cons in H as [H|H];
      [discriminate|]). by apply elem_of_nil in H.
  - vm_compute. reflexivity.
  - vm_compute. reflexivity.
Qed.

(** C9, amended: [write_regs] does not validate the supplied names: an
    entry whose name is not a declared out-direction register is ignored
    (the call has the outcome and the transport activity of the call
    without that entry). On the command line such a name never reaches
    [write_regs]: no mapping that [WriteAction] accepts holds it. When
    every argument has the form [name=value] with a value that
    [int(value, 0)] accepts, [WriteAction] ends in the parser error that
    names the first name that is not an out-mode register; when some
    argument does not have that form, it ends, before any name is checked,
    in the uncaught [ValueError] of the dict comprehension. *)
Theorem write_regs_ignores_other_names (registers : list Register)
    (write_values : loc) (d : gmap string Z) (name : string) (value : Z)
    (w : world) :
  heap w !! write_values = Some d →
  name ∉ out_register_names registers →
  fst (write_regs registers write_values
         (with_entry write_values name value d w))
  = fst (write_regs registers write_values w)
  ∧ port (snd (write_regs registers write_values
                 (with_entry write_values name value d w)))
    = port (snd (write_regs registers write_values w))
  ∧ (∀ py_int0 values m,
       WriteAction py_int0 registers values = Ret m → m !! name = None)
  ∧ (∀ py_int0 values pairs,
       Forall2 (parsed_as py_int0) values pairs →
       name ∈ map fst pairs →
       ∃ l1 bad l2,
         map fst pairs = l1 ++ bad :: l2
         ∧ (∀ n, n ∈ l1 → n ∈ out_register_names registers)
         ∧ (bad ∉ out_register_names registers)
         ∧ WriteAction py_int0 registers values
           = Raise (ParserError
                      ("argument -w/--write: " +:+ bad
                       +:+ " is not a valid out-mode register name.")))
  ∧ (∀ py_int0 values,
       values ≠ [] →
       (¬ ∃ pairs, Forall2 (parsed_as py_int0) values pairs) →
       ∃ msg, WriteAction py_int0 registers values = Raise (ValueError msg)).
Proof.
  intros Hd Hname.
  assert (Hcli1 : ∀ py_int0 values m,
       WriteAction py_int0 registers values = Ret m → m !! name = None).
  { intros py_int0 values m Hm.
    destruct (WriteAction_ret _ _ _ _ Hm) as (_ & pairs & _ & Hall & ->).
    rewrite fold_insert_lookup.
    destruct (last (filter (λ kv, kv.1 = name) pairs)) as [kv|] eqn:Hl;
      [|by rewrite lookup_empty].
    exfalso. apply last_Some_elem_of, list_elem_of_filter in Hl as [Hk Hin].
    apply Hname, Hall. apply list_elem_of_fmap. by exists kv. }
  assert (Hcli2 : ∀ py_int0 values pairs,
       Forall2 (parsed_as py_int0) values pairs →
       name ∈ map fst pairs →
       ∃ l1 bad l2,
         map fst pairs = l1 ++ bad :: l2
         ∧ (∀ n, n ∈ l1 → n ∈ out_register_names registers)
         ∧ (bad ∉ out_register_names registers)
         ∧ WriteAction py_int0 registers values
           = Raise (ParserError
                      ("argument -w/--write: " +:+ bad
                       +:+ " is not a valid out-mode register name."))).
  { intros py_int0 values pairs Hp Hin.
    assert (Hne : values ≠ []).
    { intros ->. apply Forall2_nil_inv_l in Hp as ->.
      by apply elem_of_nil in Hin. }
    rewrite (WriteAction_parsed _ _ _ _ Hne Hp).
    destruct (check_names (out_register_names registers) (map fst pairs))
      as [[]|e] eqn:Hc.
    - exfalso. apply Hname. by apply (proj1 (check_names_ok _ _) Hc).
    - destruct (check_names_first_bad _ _ _ Hc)
        as (l1 & bad & l2 & Heq & Hl1 & Hbad & ->).
      by exists l1, bad, l2. }
  assert (Hcli3 : ∀ py_int0 values,
       values ≠ [] →
       (¬ ∃ pairs, Forall2 (parsed_as py_int0) values pairs) →
       ∃ msg, WriteAction py_int0 registers values = Raise (ValueError msg)).
  { intros py_int0 values. apply WriteAction_unparsed. }
  destruct (read_back_with_entry registers write_values d name value w
              Hd Hname) as (res & w1 & w2 & Hrb1 & Hrb2 & Hport & Hag).
  unfold write_regs. rewrite Hrb1, Hrb2.
  destruct res as [cwv|e]; [|done].
  rewrite (pack_bits_agree registers _ _ (Hag cwv eq_refl)).
  destruct (pack_bits registers (deref w2 cwv)) as [bits|e]; [|done].
  destruct (build_frame bits) as [write_bytes|e]; [|done].
  rewrite Hport. cbn [ser_write].
  destruct (bool_decide _); done.
Qed.

Lemma write_regs_ignores_other_names_witness :
  let w := mkWorld {[ 1%positive := {[ "a" := 1; "b" := 0xFF ]} ]}
             (mkSerial [] None []) in
  heap w !! 1%positive = Some {[ "a" := 1; "b" := 0xFF ]}
  ∧ ("zz" ∉ out_register_names regs_ab)
  ∧ fst (write_regs regs_ab 1%positive
           (with_entry 1%positive "zz" 7 {[ "a" := 1; "b" := 0xFF ]} w))
    = fst (write_regs regs_ab 1%positive w)
  ∧ port (snd (write_regs regs_ab 1%positive
                 (with_entry 1%positive "zz" 7
                    {[ "a" := 1; "b" := 0xFF ]} w)))
    = port (snd (write_regs regs_ab 1%positive w))
  ∧ (∀ py_int0 values m,
       WriteAction py_int0 regs_ab values = Ret m → m !! "zz" = None)
  ∧ (∀ py_int0 values pairs,
       Forall2 (parsed_as py_int0) values pairs →
       "zz" ∈ map fst pairs →
       ∃ l1 bad l2,
         map fst pairs = l1 ++ bad :: l2
         ∧ (∀ n, n ∈ l1 → n ∈ out_register_names regs_ab)
         ∧ (bad ∉ out_register_names regs_ab)
         ∧ WriteAction py_int0 regs_ab values
           = Raise (ParserError
                      ("argument -w/--write: " +:+ bad
                       +:+ " is not a valid out-mode register name.")))
  ∧ (∀ py_int0 values,
       values ≠ [] →
       (¬ ∃ pairs, Forall2 (parsed_as py_int0) values pairs) →
       ∃ msg, WriteAction py_int0 regs_ab values = Raise (ValueError msg)).
Proof.
  intros w.
  assert (H1 : heap w !! 1%positive
               = Some ({[ "a" := 1; "b" := 0xFF ]} : gmap string Z))
    by reflexivity.
  assert (H2 : "zz" ∉ out_register_names regs_ab).
  { vm_compute. intros H. repeat (apply elem_of_cons in H as [H|H];
      [discriminate|]). by apply elem_of_nil in H. }
  split; [exact H1|]. split; [exact H2|].
  exact (write_regs_ignores_other_names regs_ab 1%positive
           {[ "a" := 1; "b" := 0xFF ]} "zz" 7 w H1 H2).
Defined.

(** ** Further facts about the code *)

(** While [receiving_data] is false the loop does skip every byte that is
    not a start marker, an [END_WRITE] included: the guard on the flag is
    there, and it is the initial value [True] of the flag that lets the
    bytes before the first [START_WRITE] into the payload. *)
Lemma not_receiving_skips b rx prev escape_next data :
  b ≠ START_WRITE →
  recv_loop (b :: rx) prev false escape_next data
  = recv_loop rx (Some b) false escape_next data.
Proof.
  intros Hb. cbn [recv_loop].
  by rewrite (bool_decide_eq_false_2 (b = START_WRITE)) by done.
Qed.

Lemma not_receiving_skips_all pre : ∀ rx prev escape_next data,
  START_WRITE ∉ pre → pre ≠ [] →
  recv_loop (pre ++ rx) prev false escape_next data
  = recv_loop rx (last pre) false escape_next data.
Proof.
  induction pre as [|b pre IH]; intros rx prev esc data Hs Hne; [done|].
  apply not_elem_of_cons in Hs as [Hb Hs].
  cbn [app]. rewrite not_receiving_skips by done.
  destruct pre as [|b' pre]; [done|].
  rewrite IH by done. done.
Qed.

(** The read-back feeds the pattern of a signed register to the signed
    range check: with the 4-bit signed out register [s] holding [-1] on the
    device, [write_regs] called without a value for [s] reads [15] back
    and raises the range error for it. *)
Example read_back_of_negative_signed :
  let w := mkWorld {[ 1%positive := ∅ ]}
             (mkSerial (frame_of [0xF0]) None []) in
  fst (write_regs regs_s4 1%positive w)
  = Raise (ValueError
      "The value 15 for register s exceeds the 4-bit length allowed for signed.").
Proof. vm_compute. reflexivity. Qed.

(** The merge of the read-back goes to the copy: the caller's object still
    has the one entry, the copy has both. *)
Example read_back_merges_into_copy :
  let w := mkWorld {[ 1%positive := {[ "a" := 1 ]} ]}
             (mkSerial (frame_of [0x01; 0x80]) None []) in
  let w' := snd (write_regs regs_ab 1%positive w) in
  heap w' !! 1%positive = Some {[ "a" := 1 ]}
  ∧ heap w' !! 2%positive = Some {[ "a" := 1; "b" := 1 ]}
  ∧ ser_log (port w')
    = [ Sent [READ_REQ] 1; Recv (Some START_WRITE); Recv (Some 0x01);
        Recv (Some 0x80); Recv (Some END_WRITE);
        Sent [START_WRITE; 0x01; 0x80; END_WRITE] 4 ].
Proof. split_and!; vm_compute; reflexivity. Qed.

(** The escaped start marker is data. *)
Example escaped_start_is_data :
  recv_frame [START_WRITE; ESCAPE; START_WRITE; END_WRITE]
  = (Ret [START_WRITE], []).
Proof. reflexivity. Qed.

(** * Further properties of the code *)

(** ** [read_regs]: timeout, length check, what it returns *)

Lemma recv_loop_no_end rx : ∀ prev receiving_data escape_next data,
  END_WRITE ∉ rx →
  recv_loop rx prev receiving_data escape_next data
  = (Raise (SystemExit 1), []).
Proof.
  induction rx as [|b rx IH]; intros prev rcv esc data Hno; [done|].
  apply not_elem_of_cons in Hno as [Hb Hno].
  cbn [recv_loop].
  rewrite (bool_decide_eq_false_2 (b = END_WRITE)) by done.
  cbn [andb].
  destruct (bool_decide (b = START_WRITE) && _); [by apply IH|].
  destruct rcv; [|by apply IH].
  destruct (negb (bool_decide (b = ESCAPE)) || esc); [by apply IH|].
  destruct (bool_decide (b = ESCAPE)); by apply IH.
Qed.

(** X1: when the bytes the device delivers hold no [END_WRITE],
    [read_regs] sends [READ_REQ], reads every byte, runs into the read
    timeout and leaves the program with exit status 1. *)
Theorem read_regs_timeout (registers : list Register) (w : world) :
  END_WRITE ∉ ser_rx (port w) →
  fst (read_regs registers w) = Raise (SystemExit 1)
  ∧ ser_rx (port (snd (read_regs registers w))) = []
  ∧ ser_log (port (snd (read_regs registers w)))
    = ser_log (port w)
      ++ Sent [READ_REQ] (fst (ser_write [READ_REQ] (port w)))
         :: map (λ b, Recv (Some b)) (ser_rx (port w)) ++ [Recv None].
Proof.
  intros Hno. unfold read_regs. cbn [ser_write ser_rx fst].
  unfold recv_frame. rewrite recv_loop_no_end by done.
  cbn [fst snd port with_port ser_rx ser_log]. unfold recv_events.
  cbn [length].
  rewrite Nat.sub_0_r, firstn_all, <- app_assoc. done.
Qed.

Lemma read_regs_timeout_witness :
  (END_WRITE
   ∉ ser_rx (port (mkWorld ∅ (mkSerial [START_WRITE; 0x01] None []))))
  ∧ fst (read_regs regs_ab
           (mkWorld ∅ (mkSerial [START_WRITE; 0x01] None [])))
    = Raise (SystemExit 1)
  ∧ ser_rx (port (snd (read_regs regs_ab
                    (mkWorld ∅ (mkSerial [START_WRITE; 0x01] None [])))))
    = []
  ∧ ser_log (port (snd (read_regs regs_ab
                    (mkWorld ∅ (mkSerial [START_WRITE; 0x01] None [])))))
    = ser_log (port (mkWorld ∅ (mkSerial [START_WRITE; 0x01] None [])))
      ++ Sent [READ_REQ]
           (fst (ser_write [READ_REQ]
                   (port (mkWorld ∅ (mkSerial [START_WRITE; 0x01] None [])))))
         :: map (λ b, Recv (Some b))
              (ser_rx (port (mkWorld ∅
                               (mkSerial [START_WRITE; 0x01] None []))))
            ++ [Recv None].
Proof.
  assert (H : END_WRITE
              ∉ ser_rx (port (mkWorld ∅
                                (mkSerial [START_WRITE; 0x01] None [])))).
  { cbn. intros H. repeat (apply elem_of_cons in H as [H|H]; [discriminate|]).
    by apply elem_of_nil in H. }
  split; [exact H|].
  exact (read_regs_timeout regs_ab
           (mkWorld ∅ (mkSerial [START_WRITE; 0x01] None [])) H).
Defined.

(** X2: a complete frame whose payload has not the expected number of
    bytes makes [read_regs] raise the [IOError] that gives both counts; the
    frame is consumed and no mapping is returned. *)
Theorem read_regs_length_mismatch (registers : list Register)
    (data rest : list Z) (w : world) :
  ser_rx (port w) = frame_of data ++ rest →
  Z.of_nat (length data) ≠ expected_bytes registers →
  fst (read_regs registers w)
  = Raise (IOError ("Received " +:+ str_Z (Z.of_nat (length data))
                    +:+ " bytes, but expected "
                    +:+ str_Z (expected_bytes registers) +:+ " bytes."))
  ∧ ser_rx (port (snd (read_regs registers w))) = rest.
Proof.
  intros Hrx Hlen.
  destruct (read_regs_frame registers data rest w Hrx) as (-> & -> & _).
  split; [|done]. unfold decode_values.
  by rewrite bool_decide_eq_true_2.
Qed.

Lemma read_regs_length_mismatch_witness :
  ser_rx (port (mkWorld ∅ (mkSerial (frame_of [0xFF] ++ []) None [])))
  = frame_of [0xFF] ++ []
  ∧ Z.of_nat (length [0xFF]) ≠ expected_bytes regs_ab
  ∧ fst (read_regs regs_ab
           (mkWorld ∅ (mkSerial (frame_of [0xFF] ++ []) None [])))
    = Raise (IOError ("Received " +:+ str_Z (Z.of_nat (length [0xFF]))
                      +:+ " bytes, but expected "
                      +:+ str_Z (expected_bytes regs_ab) +:+ " bytes."))
  ∧ ser_rx (port (snd (read_regs regs_ab
                    (mkWorld ∅ (mkSerial (frame_of [0xFF] ++ []) None [])))))
    = [].
Proof.
  assert (H1 : ser_rx (port (mkWorld ∅
                               (mkSerial (frame_of [0xFF] ++ []) None [])))
               = frame_of [0xFF] ++ []) by reflexivity.
  assert (H2 : Z.of_nat (length [0xFF]) ≠ expected_bytes regs_ab)
    by (vm_compute; discriminate).
  split; [exact H1|]. split; [exact H2|].
  exact (read_regs_length_mismatch regs_ab [0xFF] []
           (mkWorld ∅ (mkSerial (frame_of [0xFF] ++ []) None [])) H1 H2).
Defined.

(** The payload holds only bytes that were received. *)
Lemma recv_loop_Forall (P : Z → Prop) rx :
  ∀ prev receiving_data escape_next data d rest,
  recv_loop rx prev receiving_data escape_next data = (Ret d, rest) →
  Forall P rx → Forall P data → Forall P d.
Proof.
  induction rx as [|b rx IH]; intros prev rcv esc data d rest Hl Hrx Hd;
    [done|].
  apply Forall_cons in Hrx as [Hb Hrx].
  assert (Hsnoc : Forall P (data ++ [b])).
  { apply Forall_app. split; [done|]. by constructor. }
  cbn [recv_loop] in Hl.
  destruct (bool_decide (b = START_WRITE) && _); [by eapply IH|].
  destruct rcv; [|by eapply IH].
  destruct (bool_decide (b = END_WRITE) && negb esc); [by inversion Hl; subst|].
  destruct (negb (bool_decide (b = ESCAPE)) || esc); [by eapply IH|].
  destruct (bool_decide (b = ESCAPE)); by eapply IH.
Qed.

(** The mapping [read_regs] builds has the register names as its keys. *)
Lemma decode_values_keys registers data m :
  valid_schema registers →
  Forall is_byte data →
  decode_values registers data = Ret m →
  ∀ n, is_Some (m !! n) → n ∈ map reg_name registers.
Proof.
  intros [Hnd Hpos] Hb Hm n Hn. unfold decode_values in Hm.
  destruct (bool_decide (Z.of_nat (length data) ≠ expected_bytes registers))
    eqn:Hlen; [done|].
  apply bool_decide_eq_false in Hlen.
  assert (Hlen' : Z.of_nat (length data) = expected_bytes registers)
    by (destruct (decide (Z.of_nat (length data) = expected_bytes registers));
        [done|by exfalso; apply Hlen]).
  destruct (decode_regions registers data Hpos Hb Hlen')
    as (Hbi & Hbo & Hli & Hlo & _).
  cbv zeta in Hbi, Hbo, Hli, Hlo.
  destruct (extract_loop_spec (rev registers) _ _ Hbi Hbo 0 0 ∅)
    as (m' & Hm' & Hother & _).
  { rewrite map_rev. by apply NoDup_ListNoDup, List.NoDup_rev, NoDup_ListNoDup. }
  { by apply Forall_rev_pos. }
  { lia. } { lia. }
  { rewrite regs_length_rev. lia. }
  { rewrite regs_length_rev. lia. }
  rewrite Hm' in Hm. inversion Hm; subst m'.
  destruct (decide (n ∈ map reg_name registers)) as [|Hnot]; [done|].
  rewrite Hother in Hn.
  - rewrite lookup_empty in Hn. by destruct Hn.
  - rewrite map_rev. by rewrite elem_of_rev_iff.
Qed.

(** The ways [read_regs] can end. *)
Lemma read_regs_cases (registers : list Register) (w : world) :
  valid_schema registers →
  Forall is_byte (ser_rx (port w)) →
  match fst (read_regs registers w) with
  | Ret m =>
      (∀ r, r ∈ registers →
         ∃ p, m !! reg_name r = Some p ∧ 0 ≤ p < 2 ^ reg_length r)
      ∧ (∀ n, is_Some (m !! n) → n ∈ map reg_name registers)
  | Raise (SystemExit code) => code = 1
  | Raise (IOError _) => True
  | Raise _ => False
  end.
Proof.
  intros Hvalid Hrx. unfold read_regs. cbn [ser_write ser_rx].
  destruct (recv_frame (ser_rx (port w))) as [[data|e] rest] eqn:Hrecv.
  - cbn [fst].
    assert (Hdata : Forall is_byte data).
    { unfold recv_frame in Hrecv.
      eapply recv_loop_Forall; [exact Hrecv|done|constructor]. }
    unfold decode_values at 1.
    destruct (bool_decide (Z.of_nat (length data) ≠ expected_bytes registers))
      eqn:Hlen; [done|].
    apply bool_decide_eq_false in Hlen.
    assert (Hlen' : Z.of_nat (length data) = expected_bytes registers)
      by (destruct (decide (Z.of_nat (length data)
                            = expected_bytes registers));
          [done|by exfalso; apply Hlen]).
    destruct (decode_values_spec registers data Hvalid Hdata Hlen')
      as (m & Hm & Hslices).
    pose proof Hm as Hm2. unfold decode_values in Hm2.
    rewrite bool_decide_eq_false_2 in Hm2 by (intros H; by apply H).
    cbv zeta in Hm2. rewrite Hm2. split.
    + intros r Hr. rewrite <- elem_of_rev_iff in Hr.
      apply list_elem_of_split in Hr as (l1 & l2 & Heq).
      destruct (Hslices l1 r l2 Heq) as (p & Hp & _ & Hrange).
      by exists p.
    + by apply (decode_values_keys registers data m).
  - cbn [fst]. unfold recv_frame in Hrecv.
    assert (e = SystemExit 1) as ->; [|done].
    clear -Hrecv. revert Hrecv.
    generalize (@None Z) as prev, true as rcv, false as esc, (@nil Z) as data.
    induction (ser_rx (port w)) as [|b rx IH]; intros prev rcv esc data Hl.
    + cbn in Hl. congruence.
    + cbn [recv_loop] in Hl.
      destruct (bool_decide (b = START_WRITE) && _); [by eapply IH|].
      destruct rcv; [|by eapply IH].
      destruct (bool_decide (b = END_WRITE) && negb esc); [done|].
      destruct (negb (bool_decide (b = ESCAPE)) || esc); [by eapply IH|].
      destruct (bool_decide (b = ESCAPE)); by eapply IH.
Qed.

(** X3: for every schema and every stream of bytes, [read_regs] ends in
    one of three ways: it returns a mapping whose keys are exactly the
    register names, each with a value in [0, 2^n); it leaves the program
    with status 1 (timeout); or it raises [IOError] (wrong payload
    length). It raises neither [ValueError] nor [KeyError]. *)
Theorem read_regs_outcomes (registers : list Register) (w : world) :
  valid_schema registers →
  Forall is_byte (ser_rx (port w)) →
  match fst (read_regs registers w) with
  | Ret m =>
      (∀ r, r ∈ registers →
         ∃ p, m !! reg_name r = Some p ∧ 0 ≤ p < 2 ^ reg_length r)
      ∧ (∀ n, is_Some (m !! n) → n ∈ map reg_name registers)
  | Raise (SystemExit code) => code = 1
  | Raise (IOError _) => True
  | Raise _ => False
  end.
Proof. apply read_regs_cases. Qed.

Lemma read_regs_outcomes_witness :
  valid_schema regs_s4
  ∧ Forall is_byte
      (ser_rx (port (mkWorld ∅ (mkSerial (frame_of [0xF0]) None []))))
  ∧ match fst (read_regs regs_s4
                 (mkWorld ∅ (mkSerial (frame_of [0xF0]) None []))) with
    | Ret m =>
        (∀ r, r ∈ regs_s4 →
           ∃ p, m !! reg_name r = Some p ∧ 0 ≤ p < 2 ^ reg_length r)
        ∧ (∀ n, is_Some (m !! n) → n ∈ map reg_name regs_s4)
    | Raise (SystemExit code) => code = 1
    | Raise (IOError _) => True
    | Raise _ => False
    end.
Proof.
  assert (H1 : valid_schema regs_s4).
  { split; [|by repeat constructor].
    apply NoDup_cons. split; [apply not_elem_of_nil|apply NoDup_nil_2]. }
  assert (H2 : Forall is_byte
      (ser_rx (port (mkWorld ∅ (mkSerial (frame_of [0xF0]) None []))))).
  { cbn. repeat constructor; unfold is_byte, START_WRITE, END_WRITE; lia. }
  split; [exact H1|]. split; [exact H2|].
  exact (read_regs_outcomes regs_s4
           (mkWorld ∅ (mkSerial (frame_of [0xF0]) None [])) H1 H2).
Defined.

(** ** [write_regs]: the merge and the write *)

Lemma fill_missing_ok names current_values cwv : ∀ w,
  (∀ n, n ∈ names → is_Some (current_values !! n)) →
  ∃ w', fill_missing names current_values cwv w = (Ret tt, w')
    ∧ port w' = port w
    ∧ ∀ n, deref w' cwv !! n
           = if decide (n ∈ names) then current_values !! n
             else deref w cwv !! n.
Proof.
  induction names as [|name names IH]; intros w Hall.
  - exists w. split_and!; [done|done|]. intros n.
    rewrite decide_False; [done|apply not_elem_of_nil].
  - cbn [fill_missing].
    destruct (Hall name) as [v Hv]; [by left|]. rewrite Hv.
    destruct (IH (store cwv (<[name:=v]> (deref w cwv)) w))
      as (w' & Hf & Hp & Hd); [intros n Hn; apply Hall; by right|].
    exists w'. split_and!; [done|done|]. intros n. rewrite Hd, deref_store.
    destruct (decide (n ∈ names)) as [Hin|Hnin].
    + rewrite decide_True; [done|by right].
    + destruct (decide (n = name)) as [->|Hne].
      * rewrite decide_True by by left. by rewrite lookup_insert_eq.
      * rewrite decide_False; [by rewrite lookup_insert_ne|].
        intros [?|?]%elem_of_cons; done.
Qed.

Lemma elem_of_missing_out registers d n :
  n ∈ missing_out registers d
  ↔ d !! n = None ∧ n ∈ out_register_names registers.
Proof. unfold missing_out. by rewrite list_elem_of_filter. Qed.

Lemma out_register_names_registers registers n :
  n ∈ out_register_names registers →
  ∃ r, r ∈ registers ∧ reg_mode r = ModeOut ∧ reg_name r = n.
Proof.
  unfold out_register_names. intros (r & -> & Hr)%list_elem_of_fmap.
  apply list_elem_of_filter in Hr as [Ho Hr]. by exists r.
Qed.

(** The read-back block when the read succeeds: the copy gets the value
    read for each missing out register and keeps every entry it had. *)
Lemma merge_missing_read registers cwv w1 m w2 :
  missing_out registers (deref w1 cwv) ≠ [] →
  read_regs registers w1 = (Ret m, w2) →
  (∀ r, r ∈ registers → is_Some (m !! reg_name r)) →
  ∃ w3, merge_missing registers cwv w1 = (Ret cwv, w3)
    ∧ port w3 = port w2
    ∧ ∀ n, deref w3 cwv !! n
           = if decide (n ∈ missing_out registers (deref w1 cwv))
             then m !! n else deref w1 cwv !! n.
Proof.
  intros Hmiss Hread Htotal. unfold merge_missing.
  destruct (missing_out registers (deref w1 cwv)) as [|n0 names] eqn:Hm;
    [done|].
  rewrite Hread.
  destruct (fill_missing_ok (n0 :: names) m cwv w2) as (w3 & Hf & Hp & Hd).
  { intros n Hn. rewrite <- Hm in Hn.
    apply elem_of_missing_out in Hn as [_ Hn].
    apply out_register_names_registers in Hn as (r & Hr & _ & <-).
    by apply Htotal. }
  rewrite Hf. exists w3. split_and!; [done|done|].
  intros n. rewrite Hd.
  pose proof (deref_read_regs registers w1 cwv) as Hdr.
  rewrite Hread in Hdr. cbn [snd] in Hdr. by rewrite Hdr.
Qed.

Lemma pack_loop_ret_in_range write_values regs : ∀ acc bits,
  pack_loop write_values regs acc = Ret bits →
  in_range_values regs write_values.
Proof.
  induction regs as [|r regs IH]; intros acc bits Hp r' Hr' Ho.
  - by apply elem_of_nil in Hr'.
  - cbn [pack_loop] in Hp. destruct (is_out r) eqn:Hor.
    + destruct (write_values !! reg_name r) as [v|] eqn:Hv; [|done].
      destruct (out_of_range r v) eqn:Hrange; [done|].
      apply elem_of_cons in Hr' as [->|Hr'].
      * exists v. split; [done|]. by apply out_of_range_false.
      * by apply (IH _ _ Hp).
    + apply elem_of_cons in Hr' as [->|Hr'].
      * apply is_out_false in Hor. done.
      * by apply (IH _ _ Hp).
Qed.

Lemma pack_bits_ret_in_range registers write_values bits :
  pack_bits registers write_values = Ret bits →
  in_range_values registers write_values.
Proof.
  unfold pack_bits. intros Hp.
  destruct (pack_loop write_values (rev registers) []) as [b|] eqn:Hl;
    [|done].
  intros r Hr. apply (pack_loop_ret_in_range _ _ _ _ Hl).
  by apply elem_of_rev_iff.
Qed.

(** What [write_regs] does once the values are complete and packed. *)
Lemma write_regs_packed registers l w cwv w1 out_bytes :
  read_back_missing_out_regs registers l w = (Ret cwv, w1) →
  pack_bytes registers (deref w1 cwv) = Ret out_bytes →
  write_regs registers l w
  = (if bool_decide (fst (ser_write (frame_of out_bytes) (port w1))
                     ≠ length (frame_of out_bytes))
     then Raise (short_write_error
                   (fst (ser_write (frame_of out_bytes) (port w1)))
                   (length (frame_of out_bytes)))
     else Ret tt,
     with_port w1 (snd (ser_write (frame_of out_bytes) (port w1)))).
Proof.
  intros Hrb Hpack. unfold write_regs. rewrite Hrb.
  unfold pack_bytes in Hpack.
  destruct (pack_bits registers (deref w1 cwv)) as [bits|e]; [|done].
  rewrite build_frame_byte_values, Hpack. cbn [ser_write fst snd].
  by destruct (bool_decide _).
Qed.

Lemma read_back_complete registers l d w :
  heap w !! l = Some d → covers_out registers d →
  ∃ cwv w1, read_back_missing_out_regs registers l w = (Ret cwv, w1)
    ∧ port w1 = port w ∧ deref w1 cwv = d.
Proof.
  intros Hd Hcov. unfold read_back_missing_out_regs.
  assert (Hderef : deref w l = d) by (unfold deref; by rewrite Hd).
  rewrite Hderef.
  pose proof (deref_alloc d w) as Hda.
  destruct (alloc d w) as [cwv w1] eqn:Ha. cbn [fst snd] in Hda.
  pose proof (port_alloc d w) as Hpa. rewrite Ha in Hpa. cbn [snd] in Hpa.
  rewrite merge_missing_covered by by rewrite Hda.
  by exists cwv, w1.
Qed.

Lemma in_range_values_covers registers d :
  in_range_values registers d → covers_out registers d.
Proof. intros H r Hr Ho. destruct (H r Hr Ho) as (v & Hv & _). by exists v. Qed.

(** X4: a call of [write_regs] with an in-range value for every
    out-direction register does no read-back: when the port accepts all
    bytes it sends exactly one frame, the escaped packed bytes between
    [START_WRITE] and [END_WRITE], reads nothing and returns
    normally. *)
Theorem complete_write_sends_one_frame (registers : list Register)
    (write_values : loc) (d : gmap string Z) (w : world) :
  Forall (λ r, 0 < reg_length r) registers →
  heap w !! write_values = Some d →
  in_range_values registers d →
  ser_room (port w) = None →
  ∃ out_bytes,
    pack_bytes registers d = Ret out_bytes
    ∧ fst (write_regs registers write_values w) = Ret tt
    ∧ ser_log (port (snd (write_regs registers write_values w)))
      = ser_log (port w)
        ++ [Sent (frame_of out_bytes) (length (frame_of out_bytes))]
    ∧ ser_rx (port (snd (write_regs registers write_values w)))
      = ser_rx (port w).
Proof.
  intros Hpos Hd Hin Hroom.
  destruct (pack_bytes_ok registers d Hpos Hin) as (out_bytes & Hpack & _).
  destruct (read_back_complete registers write_values d w Hd)
    as (cwv & w1 & Hrb & Hport & Hderef);
    [by apply in_range_values_covers|].
  exists out_bytes. split; [done|].
  rewrite (write_regs_packed registers write_values w cwv w1 out_bytes)
    by (done || by rewrite Hderef).
  rewrite Hport. unfold ser_write. rewrite Hroom. cbn [fst snd].
  rewrite bool_decide_eq_false_2 by (intros H; by apply H).
  done.
Qed.

Lemma complete_write_sends_one_frame_witness :
  let w := mkWorld {[ 1%positive := {[ "a" := 1; "b" := 0xFF ]} ]}
             (mkSerial [] None []) in
  Forall (λ r, 0 < reg_length r) regs_ab
  ∧ heap w !! 1%positive = Some {[ "a" := 1; "b" := 0xFF ]}
  ∧ in_range_values regs_ab {[ "a" := 1; "b" := 0xFF ]}
  ∧ ser_room (port w) = None
  ∧ ∃ out_bytes,
      pack_bytes regs_ab {[ "a" := 1; "b" := 0xFF ]} = Ret out_bytes
      ∧ fst (write_regs regs_ab 1%positive w) = Ret tt
      ∧ ser_log (port (snd (write_regs regs_ab 1%positive w)))
        = ser_log (port w)
          ++ [Sent (frame_of out_bytes) (length (frame_of out_bytes))]
      ∧ ser_rx (port (snd (write_regs regs_ab 1%positive w)))
        = ser_rx (port w).
Proof.
  intros w.
  assert (H1 : Forall (λ r, 0 < reg_length r) regs_ab)
    by (repeat constructor).
  assert (H2 : heap w !! 1%positive
               = Some ({[ "a" := 1; "b" := 0xFF ]} : gmap string Z))
    by reflexivity.
  assert (H3 : in_range_values regs_ab {[ "a" := 1; "b" := 0xFF ]}).
  { intros r Hr _.
    apply elem_of_cons in Hr as [->|Hr];
      [|apply list_elem_of_singleton in Hr as ->].
    - exists 1. split; [reflexivity|]. unfold representable. cbn. lia.
    - exists 0xFF. split; [reflexivity|]. unfold representable. cbn. lia. }
  assert (H4 : ser_room (port w) = None) by reflexivity.
  split; [exact H1|]. split; [exact H2|]. split; [exact H3|].
  split; [exact H4|].
  exact (complete_write_sends_one_frame regs_ab 1%positive
           {[ "a" := 1; "b" := 0xFF ]} w H1 H2 H3 H4).
Defined.

(** X5: when the port takes fewer bytes than the frame has, [write_regs]
    raises the [IOError] that gives the number of bytes written and the
    length of the frame. *)
Theorem short_write_raises (registers : list Register)
    (write_values : loc) (d : gmap string Z) (w : world) (k : nat) :
  Forall (λ r, 0 < reg_length r) registers →
  heap w !! write_values = Some d →
  in_range_values registers d →
  ser_room (port w) = Some k →
  ∃ out_bytes,
    pack_bytes registers d = Ret out_bytes
    ∧ ((k < length (frame_of out_bytes))%nat →
       fst (write_regs registers write_values w)
       = Raise (short_write_error k (length (frame_of out_bytes)))
       ∧ ser_log (port (snd (write_regs registers write_values w)))
         = ser_log (port w) ++ [Sent (frame_of out_bytes) k])
    ∧ ((length (frame_of out_bytes) ≤ k)%nat →
       fst (write_regs registers write_values w) = Ret tt).
Proof.
  intros Hpos Hd Hin Hroom.
  destruct (pack_bytes_ok registers d Hpos Hin) as (out_bytes & Hpack & _).
  destruct (read_back_complete registers write_values d w Hd)
    as (cwv & w1 & Hrb & Hport & Hderef);
    [by apply in_range_values_covers|].
  exists out_bytes. split; [done|].
  rewrite (write_regs_packed registers write_values w cwv w1 out_bytes)
    by (done || by rewrite Hderef).
  rewrite Hport. unfold ser_write. rewrite Hroom. cbn [fst snd].
  split.
  - intros Hk. rewrite Nat.min_l by lia.
    rewrite bool_decide_eq_true_2 by lia. done.
  - intros Hk. rewrite Nat.min_r by lia.
    rewrite bool_decide_eq_false_2 by (intros H; by apply H). done.
Qed.

Lemma short_write_raises_witness :
  let w := mkWorld {[ 1%positive := {[ "a" := 1; "b" := 0xFF ]} ]}
             (mkSerial [] (Some 3%nat) []) in
  Forall (λ r, 0 < reg_length r) regs_ab
  ∧ heap w !! 1%positive = Some {[ "a" := 1; "b" := 0xFF ]}
  ∧ in_range_values regs_ab {[ "a" := 1; "b" := 0xFF ]}
  ∧ ser_room (port w) = Some 3%nat
  ∧ ∃ out_bytes,
      pack_bytes regs_ab {[ "a" := 1; "b" := 0xFF ]} = Ret out_bytes
      ∧ ((3 < length (frame_of out_bytes))%nat →
         fst (write_regs regs_ab 1%positive w)
         = Raise (short_write_error 3 (length (frame_of out_bytes)))
         ∧ ser_log (port (snd (write_regs regs_ab 1%positive w)))
           = ser_log (port w) ++ [Sent (frame_of out_bytes) 3])
      ∧ ((length (frame_of out_bytes) ≤ 3)%nat →
         fst (write_regs regs_ab 1%positive w) = Ret tt).
Proof.
  intros w.
  assert (H1 : Forall (λ r, 0 < reg_length r) regs_ab)
    by (repeat constructor).
  assert (H2 : heap w !! 1%positive
               = Some ({[ "a" := 1; "b" := 0xFF ]} : gmap string Z))
    by reflexivity.
  assert (H3 : in_range_values regs_ab {[ "a" := 1; "b" := 0xFF ]}).
  { intros r Hr _.
    apply elem_of_cons in Hr as [->|Hr];
      [|apply list_elem_of_singleton in Hr as ->].
    - exists 1. split; [reflexivity|]. unfold representable. cbn. lia.
    - exists 0xFF. split; [reflexivity|]. unfold representable. cbn. lia. }
  assert (H4 : ser_room (port w) = Some 3%nat) by reflexivity.
  split; [exact H1|]. split; [exact H2|]. split; [exact H3|].
  split; [exact H4|].
  exact (short_write_raises regs_ab 1%positive
           {[ "a" := 1; "b" := 0xFF ]} w 3 H1 H2 H3 H4).
Defined.

(** ** [write_regs] with missing registers *)

Lemma read_regs_frame_full registers data rest w :
  ser_rx (port w) = frame_of data ++ rest →
  read_regs registers w
  = (decode_values registers data,
     with_port w (port_after_read (port w) data rest)).
Proof.
  intros Hrx. unfold read_regs, port_after_read. cbn [ser_write ser_rx fst snd].
  rewrite Hrx, recv_frame_frame_of. unfold recv_events.
  rewrite length_app.
  replace (length (frame_of data) + length rest - length rest)%nat
    with (length (frame_of data)) by lia.
  rewrite take_app_length, app_nil_r. cbn [ser_log ser_room ser_rx].
  rewrite <- app_assoc. done.
Qed.

Lemma read_back_partial registers l d data rest m w :
  heap w !! l = Some d →
  ¬ covers_out registers d →
  ser_rx (port w) = frame_of data ++ rest →
  decode_values registers data = Ret m →
  (∀ r, r ∈ registers → is_Some (m !! reg_name r)) →
  ∃ cwv w3,
    read_back_missing_out_regs registers l w = (Ret cwv, w3)
    ∧ port w3 = port_after_read (port w) data rest
    ∧ ∀ n, deref w3 cwv !! n
           = if decide (n ∈ missing_out registers d) then m !! n
             else d !! n.
Proof.
  intros Hd Hnc Hrx Hm Htotal. unfold read_back_missing_out_regs.
  assert (Hderef : deref w l = d) by (unfold deref; by rewrite Hd).
  rewrite Hderef.
  pose proof (deref_alloc d w) as Hda.
  pose proof (port_alloc d w) as Hpa.
  destruct (alloc d w) as [cwv w1] eqn:Ha. cbn [fst snd] in Hda, Hpa.
  assert (Hmiss : missing_out registers (deref w1 cwv) ≠ []).
  { rewrite Hda. intros Hnil. by apply Hnc, missing_out_nil. }
  assert (Hread : read_regs registers w1
                  = (Ret m, with_port w1 (port_after_read (port w) data rest))).
  { rewrite (read_regs_frame_full registers data rest w1)
      by by rewrite Hpa.
    by rewrite Hm, Hpa. }
  destruct (merge_missing_read registers cwv w1 m _ Hmiss Hread Htotal)
    as (w3 & Hmerge & Hport & Hlook).
  exists cwv, w3. split_and!; [done|done|].
  intros n. rewrite Hlook, Hda. done.
Qed.

Lemma decode_values_total registers data m :
  valid_schema registers → Forall is_byte data →
  decode_values registers data = Ret m →
  ∀ r, r ∈ registers →
    ∃ p, m !! reg_name r = Some p ∧ 0 ≤ p < 2 ^ reg_length r.
Proof.
  intros Hvalid Hb Hm r Hr.
  assert (Hlen : Z.of_nat (length data) = expected_bytes registers).
  { unfold decode_values in Hm.
    destruct (decide (Z.of_nat (length data) = expected_bytes registers));
      [done|]. by rewrite bool_decide_eq_true_2 in Hm. }
  destruct (decode_values_spec registers data Hvalid Hb Hlen)
    as (m' & Hm' & Hslices).
  assert (m' = m) as -> by congruence.
  rewrite <- elem_of_rev_iff in Hr.
  apply list_elem_of_split in Hr as (l1 & l2 & Heq).
  destruct (Hslices l1 r l2 Heq) as (p & Hp & _ & Hrange). by exists p.
Qed.

(** The merged values of a partial write, looked up at an out register. *)
Lemma merged_lookup registers d (m merged : gmap string Z) :
  (∀ n, merged !! n
        = if decide (n ∈ missing_out registers d) then m !! n else d !! n) →
  ∀ r, r ∈ registers → reg_mode r = ModeOut →
    merged !! reg_name r
    = match d !! reg_name r with
      | Some v => Some v
      | None => m !! reg_name r
      end.
Proof.
  intros Hlook r Hr Ho. rewrite Hlook.
  destruct (d !! reg_name r) as [v|] eqn:Hv.
  - rewrite decide_False; [done|].
    intros [Hnone _]%elem_of_missing_out. congruence.
  - rewrite decide_True; [done|].
    apply elem_of_missing_out. split; [done|].
    by apply elem_of_out_register_names.
Qed.

(** ** The order of the range check and the read-back *)

Lemma read_regs_no_end registers w :
  END_WRITE ∉ ser_rx (port w) →
  fst (read_regs registers w) = Raise (SystemExit 1)
  ∧ ser_rx (port (snd (read_regs registers w))) = []
  ∧ ser_log (port (snd (read_regs registers w)))
    = ser_log (port w)
      ++ Sent [READ_REQ] (fst (ser_write [READ_REQ] (port w)))
         :: map (λ b, Recv (Some b)) (ser_rx (port w)) ++ [Recv None].
Proof.
  intros Hno. unfold read_regs. cbn [ser_write ser_rx fst].
  unfold recv_frame. rewrite recv_loop_no_end by done.
  cbn [fst snd port with_port ser_rx ser_log]. unfold recv_events.
  cbn [length].
  rewrite Nat.sub_0_r, firstn_all, <- app_assoc. done.
Qed.

(** With an out register missing, an exception of the read-back's
    [read_regs] is the outcome of [write_regs]: the packing loop and its
    range check are not reached. *)
Lemma write_regs_read_back_raises registers l d w e :
  heap w !! l = Some d →
  ¬ covers_out registers d →
  fst (read_regs registers w) = Raise e →
  fst (write_regs registers l w) = Raise e
  ∧ port (snd (write_regs registers l w))
    = port (snd (read_regs registers w)).
Proof.
  intros Hd Hnc He. unfold write_regs, read_back_missing_out_regs.
  assert (Hderef : deref w l = d) by (unfold deref; by rewrite Hd).
  rewrite Hderef.
  pose proof (deref_alloc d w) as Hda.
  pose proof (port_alloc d w) as Hpa.
  destruct (alloc d w) as [cwv w1] eqn:Ha. cbn [fst snd] in Hda, Hpa.
  unfold merge_missing.
  destruct (missing_out registers (deref w1 cwv)) as [|n names] eqn:Hmiss.
  { exfalso. apply Hnc, missing_out_nil. by rewrite <- Hda. }
  destruct (read_regs_port_only registers w1 w Hpa) as [Hres Hport].
  destruct (read_regs registers w1) as [res1 w2]. cbn [fst snd] in Hres, Hport.
  rewrite He in Hres. subst res1. done.
Qed.

(** With an out register missing and a well-formed response, the range
    check runs on the merged values, after the response has been read. *)
Lemma write_regs_range_after_read registers l d data rest w :
  valid_schema registers →
  heap w !! l = Some d →
  has_bad_value registers d →
  ¬ covers_out registers d →
  Forall is_byte data →
  Z.of_nat (length data) = expected_bytes registers →
  ser_rx (port w) = frame_of data ++ rest →
  ∃ m r v,
    decode_values registers data = Ret m
    ∧ r ∈ registers ∧ reg_mode r = ModeOut ∧ ¬ representable r v
    ∧ match d !! reg_name r with
      | Some v' => v' = v
      | None => m !! reg_name r = Some v
      end
    ∧ fst (write_regs registers l w) = Raise (range_error r v)
    ∧ port (snd (write_regs registers l w))
      = port_after_read (port w) data rest.
Proof.
  intros Hvalid Hd (r0 & v0 & Hr0 & Ho0 & Hv0 & Hrep0) Hnc Hb Hlen Hrx.
  destruct (decode_values_spec registers data Hvalid Hb Hlen)
    as (m & Hm & _).
  pose proof (decode_values_total registers data m Hvalid Hb Hm) as Htot.
  destruct (read_back_partial registers l d data rest m w
              Hd Hnc Hrx Hm) as (cwv & w3 & Hrb & Hport & Hlook).
  { intros r Hr. destruct (Htot r Hr) as (p & Hp & _). by exists p. }
  pose proof (merged_lookup registers d m (deref w3 cwv) Hlook) as Hmerged.
  assert (Hcov : covers_out registers (deref w3 cwv)).
  { intros r Hr Ho. rewrite (Hmerged r Hr Ho).
    destruct (d !! reg_name r) as [v|]; [by exists v|].
    destruct (Htot r Hr) as (p & Hp & _). by exists p. }
  assert (Hbad : ∃ r v, r ∈ registers ∧ reg_mode r = ModeOut
            ∧ deref w3 cwv !! reg_name r = Some v ∧ ¬ representable r v).
  { exists r0, v0. split_and!; [done|done| |done].
    by rewrite (Hmerged r0 Hr0 Ho0), Hv0. }
  destruct (pack_bits_range registers (deref w3 cwv) Hcov) as [[Hex _] Hraise].
  destruct (Hex Hbad) as [e He].
  destruct (Hraise e He) as (r & v & Hr & Ho & Hv & Hrep & ->).
  exists m, r, v. split_and!; [done|done|done|done|..].
  - rewrite (Hmerged r Hr Ho) in Hv.
    destruct (d !! reg_name r) as [v'|]; [congruence|done].
  - unfold write_regs. by rewrite Hrb, He.
  - unfold write_regs. by rewrite Hrb, He.
Qed.

(** C8, amended: for a call of [write_regs] with a value outside the
    representable range of its out-direction register, either the supplied
    values cover every out-direction register, and then the call raises the
    range error of such a register with the port untouched (nothing sent,
    nothing read); or some out-direction register is missing, and then the
    first thing the call does is to send [READ_REQ] for the read-back, and
    the ranges are checked only after the response has been read: when the
    response holds no [END_WRITE] the call ends in the timeout exit, when
    its payload has the wrong length it ends in [IOError], in both cases
    without a range error; and when the response is well formed the whole
    frame is read, nothing more is sent, and the call raises the range
    error of an out-direction register whose merged value (the supplied
    one, or the one read back if none was supplied) is not representable. *)
Theorem range_check_before_io_when_complete (registers : list Register)
    (write_values : loc) (d : gmap string Z) (w : world) :
  heap w !! write_values = Some d →
  has_bad_value registers d →
  (covers_out registers d
   ∧ ∃ r v, r ∈ registers ∧ reg_mode r = ModeOut
            ∧ d !! reg_name r = Some v ∧ ¬ representable r v
            ∧ fst (write_regs registers write_values w)
              = Raise (range_error r v)
            ∧ port (snd (write_regs registers write_values w)) = port w)
  ∨ (¬ covers_out registers d
     ∧ (∃ more,
         ser_log (port (snd (write_regs registers write_values w)))
         = ser_log (port w)
           ++ Sent [READ_REQ] (fst (ser_write [READ_REQ] (port w))) :: more)
     ∧ (END_WRITE ∉ ser_rx (port w) →
        fst (write_regs registers write_values w) = Raise (SystemExit 1)
        ∧ ser_log (port (snd (write_regs registers write_values w)))
          = ser_log (port w)
            ++ Sent [READ_REQ] (fst (ser_write [READ_REQ] (port w)))
               :: map (λ b, Recv (Some b)) (ser_rx (port w)) ++ [Recv None])
     ∧ (∀ data rest,
        ser_rx (port w) = frame_of data ++ rest →
        (Z.of_nat (length data) ≠ expected_bytes registers →
         (∃ msg, fst (write_regs registers write_values w)
                 = Raise (IOError msg))
         ∧ ser_log (port (snd (write_regs registers write_values w)))
           = ser_log (port w)
             ++ Sent [READ_REQ] (fst (ser_write [READ_REQ] (port w)))
                :: map (λ b, Recv (Some b)) (frame_of data))
        ∧ (valid_schema registers → Forall is_byte data →
           Z.of_nat (length data) = expected_bytes registers →
           ∃ m r v,
             decode_values registers data = Ret m
             ∧ r ∈ registers ∧ reg_mode r = ModeOut ∧ ¬ representable r v
             ∧ match d !! reg_name r with
               | Some v' => v' = v
               | None => m !! reg_name r = Some v
               end
             ∧ fst (write_regs registers write_values w)
               = Raise (range_error r v)
             ∧ ser_log (port (snd (write_regs registers write_values w)))
               = ser_log (port w)
                 ++ Sent [READ_REQ] (fst (ser_write [READ_REQ] (port w)))
                    :: map (λ b, Recv (Some b)) (frame_of data)
             ∧ ser_rx (port (snd (write_regs registers write_values w)))
               = rest))).
Proof.
  intros Hd Hbad.
  assert (Hderef : deref w write_values = d) by (unfold deref; by rewrite Hd).
  destruct (missing_out registers d) as [|n names] eqn:Hm.
  - left. apply missing_out_nil in Hm as Hcov. split; [done|].
    destruct (pack_bits_range registers d Hcov) as [[Hex _] Hraise].
    destruct (Hex Hbad) as [e He].
    destruct (Hraise e He) as (r & v & Hr & Ho & Hv & Hrep & ->).
    exists r, v. split_and!; try done.
    + unfold write_regs, read_back_missing_out_regs. rewrite Hderef.
      destruct (alloc d w) as [cwv w1] eqn:Ha.
      pose proof (deref_alloc d w) as Hda. rewrite Ha in Hda.
      cbn [fst snd] in Hda.
      rewrite merge_missing_covered by by rewrite Hda.
      by rewrite Hda, He.
    + unfold write_regs, read_back_missing_out_regs. rewrite Hderef.
      destruct (alloc d w) as [cwv w1] eqn:Ha.
      pose proof (deref_alloc d w) as Hda. rewrite Ha in Hda.
      pose proof (port_alloc d w) as Hpa. rewrite Ha in Hpa.
      cbn [fst snd] in Hda, Hpa.
      rewrite merge_missing_covered by by rewrite Hda.
      by rewrite Hda, He.
  - right. assert (Hnc : ¬ covers_out registers d).
    { intros Hcov. apply missing_out_nil in Hcov. congruence. }
    split; [done|]. split; [|split].
    + destruct (write_regs_log_extends registers write_values w)
        as [more2 Hlog2].
      rewrite Hlog2. unfold read_back_missing_out_regs. rewrite Hderef.
      destruct (alloc d w) as [cwv w1] eqn:Ha.
      pose proof (deref_alloc d w) as Hda. rewrite Ha in Hda.
      pose proof (port_alloc d w) as Hpa. rewrite Ha in Hpa.
      cbn [fst snd] in Hda, Hpa.
      destruct (merge_missing_log registers cwv w1) as [more1 Hlog1];
        [by rewrite Hda|].
      rewrite Hlog1, Hpa, <- app_assoc. cbn [app]. by eexists.
    + intros Hno.
      destruct (read_regs_no_end registers w Hno) as (Hres & _ & Hlog).
      destruct (write_regs_read_back_raises registers write_values d w _
                  Hd Hnc Hres) as [Hw Hp].
      split; [done|]. by rewrite Hp.
    + intros data rest Hrx. split.
      * intros Hlen.
        pose proof (read_regs_frame_full registers data rest w Hrx) as Hread.
        assert (He : ∃ msg, decode_values registers data = Raise (IOError msg)).
        { unfold decode_values. rewrite bool_decide_eq_true_2 by done.
          by eexists. }
        destruct He as [msg He].
        destruct (write_regs_read_back_raises registers write_values d w
                    (IOError msg) Hd Hnc) as [Hw Hp].
        { by rewrite Hread, He. }
        split; [by exists msg|]. rewrite Hp, Hread. done.
      * intros Hvalid Hb Hlen.
        destruct (write_regs_range_after_read registers write_values d data
                    rest w Hvalid Hd Hbad Hnc Hb Hlen Hrx)
          as (m & r & v & Hm' & Hr & Ho & Hrep & Hval & Hw & Hp).
        exists m, r, v. split_and!; try done; by rewrite Hp.
Qed.

Lemma range_check_before_io_when_complete_witness :
  let w := mkWorld {[ 1%positive := {[ "a" := 2 ]} ]}
             (mkSerial (frame_of [0x01; 0x80] ++ []) None []) in
  heap w !! 1%positive = Some {[ "a" := 2 ]}
  ∧ has_bad_value regs_ab {[ "a" := 2 ]}
  ∧ valid_schema regs_ab
  ∧ Forall is_byte [0x01; 0x80]
  ∧ Z.of_nat (length [0x01; 0x80]) = expected_bytes regs_ab
  ∧ ¬ covers_out regs_ab {[ "a" := 2 ]}
  ∧ ∃ m r v,
      decode_values regs_ab [0x01; 0x80] = Ret m
      ∧ r ∈ regs_ab ∧ reg_mode r = ModeOut ∧ ¬ representable r v
      ∧ match ({[ "a" := 2 ]} : gmap string Z) !! reg_name r with
        | Some v' => v' = v
        | None => m !! reg_name r = Some v
        end
      ∧ fst (write_regs regs_ab 1%positive w) = Raise (range_error r v)
      ∧ ser_log (port (snd (write_regs regs_ab 1%positive w)))
        = ser_log (port w)
          ++ Sent [READ_REQ] (fst (ser_write [READ_REQ] (port w)))
             :: map (λ b, Recv (Some b)) (frame_of [0x01; 0x80])
      ∧ ser_rx (port (snd (write_regs regs_ab 1%positive w))) = [].
Proof.
  intros w.
  assert (H1 : heap w !! 1%positive
               = Some ({[ "a" := 2 ]} : gmap string Z))
    by reflexivity.
  assert (H2 : has_bad_value regs_ab {[ "a" := 2 ]}).
  { exists (mkReg "a" ModeOut 1 std_logic), 2. split_and!.
    - by left.
    - reflexivity.
    - reflexivity.
    - unfold representable. cbn. lia. }
  assert (H3 : valid_schema regs_ab).
  { split; [|by repeat constructor].
    apply NoDup_cons. split.
    - intros H. apply list_elem_of_singleton in H. discriminate.
    - apply NoDup_cons. split; [apply not_elem_of_nil|apply NoDup_nil_2]. }
  assert (H4 : Forall is_byte [0x01; 0x80])
    by (repeat constructor; unfold is_byte; lia).
  assert (H5 : Z.of_nat (length [0x01; 0x80]) = expected_bytes regs_ab)
    by reflexivity.
  assert (H6 : ¬ covers_out regs_ab {[ "a" := 2 ]}).
  { intros Hcov.
    destruct (Hcov (mkReg "b" ModeOut 8 std_logic_vector)) as [v Hv].
    - right. by left.
    - reflexivity.
    - vm_compute in Hv. discriminate. }
  split; [exact H1|]. split; [exact H2|]. split; [exact H3|].
  split; [exact H4|]. split; [exact H5|]. split; [exact H6|].
  destruct (range_check_before_io_when_complete regs_ab 1%positive
              {[ "a" := 2 ]} w H1 H2) as [[Hcov _]|(_ & _ & _ & Hframe)].
  - exfalso. exact (H6 Hcov).
  - exact (proj2 (Hframe [0x01; 0x80] [] eq_refl) H3 H4 H5).
Defined.

(** X6: a partial write is a read-modify-write. With some out register
    missing, a well-formed response of the device, in-range supplied
    values and no signed register among the missing ones, [write_regs]
    sends [READ_REQ] once, reads the frame, and sends one frame that packs
    the supplied value of every supplied out register and the value just
    read of every missing one; then it returns normally. *)
Theorem partial_write_merges (registers : list Register)
    (write_values : loc) (d : gmap string Z) (data rest : list Z)
    (w : world) :
  valid_schema registers →
  heap w !! write_values = Some d →
  ¬ covers_out registers d →
  ser_rx (port w) = frame_of data ++ rest →
  Forall is_byte data →
  Z.of_nat (length data) = expected_bytes registers →
  ser_room (port w) = None →
  (∀ r v, r ∈ registers → reg_mode r = ModeOut →
          d !! reg_name r = Some v → representable r v) →
  (∀ r, r ∈ registers → reg_mode r = ModeOut →
        d !! reg_name r = None → reg_type r ≠ signed) →
  ∃ m merged out_bytes,
    decode_values registers data = Ret m
    ∧ (∀ r, r ∈ registers → reg_mode r = ModeOut →
         merged !! reg_name r
         = match d !! reg_name r with
           | Some v => Some v
           | None => m !! reg_name r
           end)
    ∧ pack_bytes registers merged = Ret out_bytes
    ∧ fst (write_regs registers write_values w) = Ret tt
    ∧ ser_log (port (snd (write_regs registers write_values w)))
      = ser_log (port w)
        ++ Sent [READ_REQ] 1
           :: map (λ b, Recv (Some b)) (frame_of data)
           ++ [Sent (frame_of out_bytes) (length (frame_of out_bytes))]
    ∧ ser_rx (port (snd (write_regs registers write_values w))) = rest.
Proof.
  intros Hvalid Hd Hnc Hrx Hb Hlen Hroom Hsup Hmis.
  pose proof Hvalid as [_ Hpos].
  destruct (decode_values_spec registers data Hvalid Hb Hlen)
    as (m & Hm & _).
  pose proof (decode_values_total registers data m Hvalid Hb Hm) as Htot.
  destruct (read_back_partial registers write_values d data rest m w
              Hd Hnc Hrx Hm) as (cwv & w3 & Hrb & Hport & Hlook).
  { intros r Hr. destruct (Htot r Hr) as (p & Hp & _). by exists p. }
  pose proof (merged_lookup registers d m (deref w3 cwv) Hlook) as Hmerged.
  assert (Hin : in_range_values registers (deref w3 cwv)).
  { intros r Hr Ho. rewrite (Hmerged r Hr Ho).
    destruct (d !! reg_name r) as [v|] eqn:Hv.
    - exists v. split; [done|]. by apply (Hsup r v).
    - destruct (Htot r Hr) as (p & Hp & Hrange). exists p. split; [done|].
      pose proof (Hmis r Hr Ho Hv) as Hns.
      unfold representable. by destruct (reg_type r). }
  destruct (pack_bytes_ok registers (deref w3 cwv) Hpos Hin)
    as (out_bytes & Hpack & _).
  exists m, (deref w3 cwv), out_bytes. split_and!; [done|done|done|..];
    rewrite (write_regs_packed registers write_values w cwv w3 out_bytes)
      by done;
    rewrite Hport; unfold port_after_read, ser_write; rewrite Hroom;
    cbn [fst snd port with_port ser_log ser_rx ser_room fmap option_fmap
         option_map length].
  - rewrite bool_decide_eq_false_2 by (intros H; by apply H). done.
  - rewrite <- !app_assoc. done.
  - done.
Qed.

Lemma partial_write_merges_witness :
  let w := mkWorld {[ 1%positive := {[ "a" := 1 ]} ]}
             (mkSerial (frame_of [0x2A; 0x00] ++ []) None []) in
  valid_schema regs_ab
  ∧ heap w !! 1%positive = Some {[ "a" := 1 ]}
  ∧ ¬ covers_out regs_ab {[ "a" := 1 ]}
  ∧ ser_rx (port w) = frame_of [0x2A; 0x00] ++ []
  ∧ Forall is_byte [0x2A; 0x00]
  ∧ Z.of_nat (length [0x2A; 0x00]) = expected_bytes regs_ab
  ∧ ser_room (port w) = None
  ∧ ∃ m merged out_bytes,
      decode_values regs_ab [0x2A; 0x00] = Ret m
      ∧ (∀ r, r ∈ regs_ab → reg_mode r = ModeOut →
           merged !! reg_name r
           = match ({[ "a" := 1 ]} : gmap string Z) !! reg_name r with
             | Some v => Some v
             | None => m !! reg_name r
             end)
      ∧ pack_bytes regs_ab merged = Ret out_bytes
      ∧ fst (write_regs regs_ab 1%positive w) = Ret tt
      ∧ ser_log (port (snd (write_regs regs_ab 1%positive w)))
        = ser_log (port w)
          ++ Sent [READ_REQ] 1
             :: map (λ b, Recv (Some b)) (frame_of [0x2A; 0x00])
             ++ [Sent (frame_of out_bytes) (length (frame_of out_bytes))]
      ∧ ser_rx (port (snd (write_regs regs_ab 1%positive w))) = [].
Proof.
  intros w.
  assert (H1 : valid_schema regs_ab).
  { split; [|by repeat constructor].
    apply NoDup_cons. split.
    - intros H. apply list_elem_of_singleton in H. discriminate.
    - apply NoDup_cons. split; [apply not_elem_of_nil|apply NoDup_nil_2]. }
  assert (H2 : heap w !! 1%positive = Some ({[ "a" := 1 ]} : gmap string Z))
    by reflexivity.
  assert (H3 : ¬ covers_out regs_ab {[ "a" := 1 ]}).
  { intros Hcov.
    destruct (Hcov (mkReg "b" ModeOut 8 std_logic_vector)) as [v Hv].
    - right. by left.
    - reflexivity.
    - vm_compute in Hv. discriminate. }
  assert (H4 : ser_rx (port w) = frame_of [0x2A; 0x00] ++ []) by reflexivity.
  assert (H5 : Forall is_byte [0x2A; 0x00])
    by (repeat constructor; unfold is_byte; lia).
  assert (H6 : Z.of_nat (length [0x2A; 0x00]) = expected_bytes regs_ab)
    by reflexivity.
  assert (H7 : ser_room (port w) = None) by reflexivity.
  assert (H8 : ∀ r v, r ∈ regs_ab → reg_mode r = ModeOut →
     ({[ "a" := 1 ]} : gmap string Z) !! reg_name r = Some v →
     representable r v).
  { intros r v Hr _ Hv.
    apply elem_of_cons in Hr as [->|Hr];
      [|apply list_elem_of_singleton in Hr as ->].
    - vm_compute in Hv. inversion Hv; subst v.
      unfold representable. cbn. lia.
    - vm_compute in Hv. discriminate. }
  assert (H9 : ∀ r, r ∈ regs_ab → reg_mode r = ModeOut →
     ({[ "a" := 1 ]} : gmap string Z) !! reg_name r = None →
     reg_type r ≠ signed).
  { intros r Hr _ _.
    apply elem_of_cons in Hr as [->|Hr];
      [|apply list_elem_of_singleton in Hr as ->]; discriminate. }
  split; [exact H1|]. split; [exact H2|]. split; [exact H3|].
  split; [exact H4|]. split; [exact H5|]. split; [exact H6|].
  split; [exact H7|].
  exact (partial_write_merges regs_ab 1%positive {[ "a" := 1 ]}
           [0x2A; 0x00] [] w H1 H2 H3 H4 H5 H6 H7 H8 H9).
Defined.

(** X7: the read-back does not undo the two's complement. When a signed
    out register is missing from the supplied values and the device
    reports for it a pattern with the top bit set (a negative value),
    [write_regs] reads the response and then raises a range error; no
    frame is written. *)
Theorem read_back_rejects_negative_signed (registers : list Register)
    (write_values : loc) (d : gmap string Z) (data rest : list Z)
    (m : gmap string Z) (r : Register) (p : Z) (w : world) :
  valid_schema registers →
  heap w !! write_values = Some d →
  ser_rx (port w) = frame_of data ++ rest →
  Forall is_byte data →
  decode_values registers data = Ret m →
  r ∈ registers → reg_mode r = ModeOut → reg_type r = signed →
  d !! reg_name r = None →
  m !! reg_name r = Some p → 2 ^ (reg_length r - 1) ≤ p →
  ∃ r' v', r' ∈ registers ∧ reg_mode r' = ModeOut ∧ ¬ representable r' v'
    ∧ fst (write_regs registers write_values w) = Raise (range_error r' v')
    ∧ ser_log (port (snd (write_regs registers write_values w)))
      = ser_log (port w)
        ++ Sent [READ_REQ] (fst (ser_write [READ_REQ] (port w)))
           :: map (λ b, Recv (Some b)) (frame_of data).
Proof.
  intros Hvalid Hd Hrx Hb Hm Hr Ho Ht Hnone Hp Hneg.
  pose proof (decode_values_total registers data m Hvalid Hb Hm) as Htot.
  assert (Hnc : ¬ covers_out registers d).
  { intros Hcov. destruct (Hcov r Hr Ho) as [v Hv]. congruence. }
  destruct (read_back_partial registers write_values d data rest m w
              Hd Hnc Hrx Hm) as (cwv & w3 & Hrb & Hport & Hlook).
  { intros r0 Hr0. destruct (Htot r0 Hr0) as (p0 & Hp0 & _). by exists p0. }
  pose proof (merged_lookup registers d m (deref w3 cwv) Hlook) as Hmerged.
  assert (Hcov : covers_out registers (deref w3 cwv)).
  { intros r0 Hr0 Ho0. rewrite (Hmerged r0 Hr0 Ho0).
    destruct (d !! reg_name r0) as [v|]; [by exists v|].
    destruct (Htot r0 Hr0) as (p0 & Hp0 & _). by exists p0. }
  assert (Hbad : ∃ r0 v0, r0 ∈ registers ∧ reg_mode r0 = ModeOut
            ∧ deref w3 cwv !! reg_name r0 = Some v0 ∧ ¬ representable r0 v0).
  { exists r, p. split_and!; [done|done| |].
    - by rewrite (Hmerged r Hr Ho), Hnone.
    - unfold representable. rewrite Ht. lia. }
  destruct (pack_bits_range registers (deref w3 cwv) Hcov) as [[Hex _] Hraise].
  destruct (Hex Hbad) as [e He].
  destruct (Hraise e He) as (r' & v' & Hr' & Ho' & _ & Hrep' & ->).
  exists r', v'. split_and!; [done|done|done|..];
    unfold write_regs; rewrite Hrb, He; cbn [fst snd]; [done|].
  by rewrite Hport.
Qed.

Lemma read_back_rejects_negative_signed_witness :
  let w := mkWorld {[ 1%positive := ∅ ]}
             (mkSerial (frame_of [0xF0] ++ []) None []) in
  let r := mkReg "s" ModeOut 4 signed in
  valid_schema regs_s4
  ∧ heap w !! 1%positive = Some ∅
  ∧ ser_rx (port w) = frame_of [0xF0] ++ []
  ∧ Forall is_byte [0xF0]
  ∧ decode_values regs_s4 [0xF0] = Ret {[ "s" := 15 ]}
  ∧ r ∈ regs_s4 ∧ reg_mode r = ModeOut ∧ reg_type r = signed
  ∧ (∅ : gmap string Z) !! reg_name r = None
  ∧ ({[ "s" := 15 ]} : gmap string Z) !! reg_name r = Some 15
  ∧ 2 ^ (reg_length r - 1) ≤ 15
  ∧ ∃ r' v', r' ∈ regs_s4 ∧ reg_mode r' = ModeOut ∧ ¬ representable r' v'
      ∧ fst (write_regs regs_s4 1%positive w) = Raise (range_error r' v')
      ∧ ser_log (port (snd (write_regs regs_s4 1%positive w)))
        = ser_log (port w)
          ++ Sent [READ_REQ] (fst (ser_write [READ_REQ] (port w)))
             :: map (λ b, Recv (Some b)) (frame_of [0xF0]).
Proof.
  intros w r.
  assert (H1 : valid_schema regs_s4).
  { split; [|by repeat constructor].
    apply NoDup_cons. split; [apply not_elem_of_nil|apply NoDup_nil_2]. }
  assert (H2 : heap w !! 1%positive = Some (∅ : gmap string Z))
    by reflexivity.
  assert (H3 : ser_rx (port w) = frame_of [0xF0] ++ []) by reflexivity.
  assert (H4 : Forall is_byte [0xF0])
    by (repeat constructor; unfold is_byte; lia).
  assert (H5 : decode_values regs_s4 [0xF0] = Ret {[ "s" := 15 ]})
    by (vm_compute; reflexivity).
  assert (H6 : r ∈ regs_s4) by by left.
  assert (H7 : reg_mode r = ModeOut) by reflexivity.
  assert (H8 : reg_type r = signed) by reflexivity.
  assert (H9 : (∅ : gmap string Z) !! reg_name r = None) by reflexivity.
  assert (H10 : ({[ "s" := 15 ]} : gmap string Z) !! reg_name r = Some 15)
    by reflexivity.
  assert (H11 : 2 ^ (reg_length r - 1) ≤ 15) by (cbn; lia).
  split; [exact H1|]. split; [exact H2|]. split; [exact H3|].
  split; [exact H4|]. split; [exact H5|]. split; [exact H6|].
  split; [exact H7|]. split; [exact H8|]. split; [exact H9|].
  split; [exact H10|]. split; [exact H11|].
  exact (read_back_rejects_negative_signed regs_s4 1%positive ∅ [0xF0] []
           {[ "s" := 15 ]} r 15 w H1 H2 H3 H4 H5 H6 H7 H8 H9 H10 H11).
Defined.

(** ** The ways [write_regs] can end *)

Lemma read_back_cases registers l d w :
  valid_schema registers →
  heap w !! l = Some d →
  Forall is_byte (ser_rx (port w)) →
  match read_back_missing_out_regs registers l w with
  | (Ret cwv, w1) => covers_out registers (deref w1 cwv)
  | (Raise (SystemExit code), _) => code = 1
  | (Raise (IOError _), _) => True
  | (Raise _, _) => False
  end.
Proof.
  intros Hvalid Hd Hrx. unfold read_back_missing_out_regs.
  assert (Hderef : deref w l = d) by (unfold deref; by rewrite Hd).
  rewrite Hderef.
  pose proof (deref_alloc d w) as Hda.
  pose proof (port_alloc d w) as Hpa.
  destruct (alloc d w) as [cwv w1] eqn:Ha. cbn [fst snd] in Hda, Hpa.
  destruct (missing_out registers (deref w1 cwv)) as [|n0 names] eqn:Hmiss.
  - unfold merge_missing. rewrite Hmiss. by apply missing_out_nil.
  - pose proof (read_regs_cases registers w1 Hvalid) as Hcases.
    rewrite Hpa in Hcases. specialize (Hcases Hrx).
    destruct (read_regs registers w1) as [[m|e] w2] eqn:Hread;
      cbn [fst] in Hcases.
    + destruct Hcases as [Htot _].
      destruct (merge_missing_read registers cwv w1 m w2)
        as (w3 & -> & _ & Hlook); [by rewrite Hmiss|done| |].
      { intros r Hr. destruct (Htot r Hr) as (p & Hp & _). by exists p. }
      intros r Hr Ho. rewrite Hlook.
      destruct (decide (reg_name r ∈ missing_out registers (deref w1 cwv)))
        as [Hin|Hnin].
      * destruct (Htot r Hr) as (p & Hp & _). by exists p.
      * destruct (deref w1 cwv !! reg_name r) as [v|] eqn:Hv; [by exists v|].
        exfalso. apply Hnin, elem_of_missing_out. split; [done|].
        by apply elem_of_out_register_names.
    + unfold merge_missing. rewrite Hmiss, Hread. by destruct e.
Qed.

Lemma write_regs_cases registers l d w :
  valid_schema registers →
  heap w !! l = Some d →
  Forall is_byte (ser_rx (port w)) →
  match fst (write_regs registers l w) with
  | Ret _ => True
  | Raise (SystemExit code) => code = 1
  | Raise (IOError _) => True
  | Raise (ValueError msg) =>
      ∃ r v, r ∈ registers ∧ reg_mode r = ModeOut ∧ ¬ representable r v
             ∧ ValueError msg = range_error r v
  | Raise _ => False
  end.
Proof.
  intros Hvalid Hd Hrx. pose proof Hvalid as [_ Hpos].
  pose proof (read_back_cases registers l d w Hvalid Hd Hrx) as Hrb.
  unfold write_regs.
  destruct (read_back_missing_out_regs registers l w) as [[cwv|e] w1];
    [|by destruct e].
  destruct (pack_bits registers (deref w1 cwv)) as [bits|e] eqn:Hp.
  - pose proof (pack_bits_ret_in_range _ _ _ Hp) as Hin.
    destruct (pack_bytes_ok registers (deref w1 cwv) Hpos Hin)
      as (out_bytes & Hpack & _).
    unfold pack_bytes in Hpack. rewrite Hp in Hpack.
    rewrite build_frame_byte_values, Hpack. cbn [ser_write].
    by destruct (bool_decide _).
  - destruct (pack_bits_range registers (deref w1 cwv) Hrb) as [_ Hraise].
    destruct (Hraise e Hp) as (r & v & Hr & Ho & _ & Hrep & ->).
    cbn [fst]. unfold range_error. by exists r, v.
Qed.

(** X8: for every schema, every mapping object and every stream of bytes,
    [write_regs] ends in one of four ways: it returns normally; it leaves
    the program with status 1 (timeout of the read-back); it raises
    [IOError] (wrong length of the read-back payload, or a short write);
    or it raises the range error of an out-direction register. It never
    raises [KeyError], and no bit string it builds fails to parse. *)
Theorem write_regs_outcomes (registers : list Register)
    (write_values : loc) (d : gmap string Z) (w : world) :
  valid_schema registers →
  heap w !! write_values = Some d →
  Forall is_byte (ser_rx (port w)) →
  match fst (write_regs registers write_values w) with
  | Ret _ => True
  | Raise (SystemExit code) => code = 1
  | Raise (IOError _) => True
  | Raise (ValueError msg) =>
      ∃ r v, r ∈ registers ∧ reg_mode r = ModeOut ∧ ¬ representable r v
             ∧ ValueError msg = range_error r v
  | Raise _ => False
  end.
Proof. apply write_regs_cases. Qed.

Lemma write_regs_outcomes_witness :
  let w := mkWorld {[ 1%positive := {[ "a" := 2 ]} ]}
             (mkSerial (frame_of [0x01; 0x80]) None []) in
  valid_schema regs_ab
  ∧ heap w !! 1%positive = Some {[ "a" := 2 ]}
  ∧ Forall is_byte (ser_rx (port w))
  ∧ match fst (write_regs regs_ab 1%positive w) with
    | Ret _ => True
    | Raise (SystemExit code) => code = 1
    | Raise (IOError _) => True
    | Raise (ValueError msg) =>
        ∃ r v, r ∈ regs_ab ∧ reg_mode r = ModeOut ∧ ¬ representable r v
               ∧ ValueError msg = range_error r v
    | Raise _ => False
    end.
Proof.
  intros w.
  assert (H1 : valid_schema regs_ab).
  { split; [|by repeat constructor].
    apply NoDup_cons. split.
    - intros H. apply list_elem_of_singleton in H. discriminate.
    - apply NoDup_cons. split; [apply not_elem_of_nil|apply NoDup_nil_2]. }
  assert (H2 : heap w !! 1%positive = Some ({[ "a" := 2 ]} : gmap string Z))
    by reflexivity.
  assert (H3 : Forall is_byte (ser_rx (port w))).
  { cbn. repeat constructor; unfold is_byte, START_WRITE, END_WRITE; lia. }
  split; [exact H1|]. split; [exact H2|]. split; [exact H3|].
  exact (write_regs_outcomes regs_ab 1%positive {[ "a" := 2 ]} w H1 H2 H3).
Defined.

(** ** The size of what is sent *)

Lemma length_flat_map_escape payload :
  length (flat_map escape_byte payload)
  = (length payload + control_count payload)%nat.
Proof.
  unfold control_count. induction payload as [|b payload IH]; [done|].
  cbn [flat_map]. rewrite length_app, IH. unfold escape_byte.
  destruct (is_control b) eqn:Hc.
  - rewrite filter_cons_True by done. cbn [length]. lia.
  - rewrite filter_cons_False by (rewrite Hc; done). cbn [length]. lia.
Qed.

Lemma control_count_values payload :
  control_count payload
  = length (filter (λ b, b ∈ [0x0A; 0x0B; 0x0C; 0x0D]%Z) payload).
Proof.
  unfold control_count. f_equal. apply list_filter_iff. intros b.
  unfold is_control. by rewrite bool_decide_eq_true.
Qed.

(** X9: the frame [write_regs] builds and sends for in-range values of
    every out-direction register is longer than the packed bytes by the
    two markers and by one [ESCAPE] for each packed byte that has a control
    value (0x0A to 0x0D); so it has at most twice the number of packed
    bytes plus two bytes. It starts with [START_WRITE] and ends with
    [END_WRITE]. *)
Theorem frame_length (registers : list Register) (write_values : loc)
    (d : gmap string Z) (w : world) :
  Forall (λ r, 0 < reg_length r) registers →
  heap w !! write_values = Some d →
  in_range_values registers d →
  ser_room (port w) = None →
  ∃ bits out_bytes frame,
    pack_bits registers d = Ret bits
    ∧ pack_bytes registers d = Ret out_bytes
    ∧ build_frame bits = Ret frame
    ∧ ser_log (port (snd (write_regs registers write_values w)))
      = ser_log (port w) ++ [Sent frame (length frame)]
    ∧ length frame
      = (length out_bytes
         + length (filter (λ b, b ∈ [0x0A; 0x0B; 0x0C; 0x0D]%Z) out_bytes)
         + 2)%nat
    ∧ (length out_bytes + 2 ≤ length frame)%nat
    ∧ (length frame ≤ 2 * length out_bytes + 2)%nat
    ∧ head frame = Some 0x0B ∧ last frame = Some 0x0C.
Proof.
  intros Hpos Hd Hin Hroom.
  destruct (pack_bytes_ok registers d Hpos Hin) as (out_bytes & Hpack & _).
  destruct (read_back_complete registers write_values d w Hd)
    as (cwv & w1 & Hrb & Hport & Hderef);
    [by apply in_range_values_covers|].
  pose proof Hpack as Hpack'. unfold pack_bytes in Hpack'.
  destruct (pack_bits registers d) as [bits|e] eqn:Hbits; [|done].
  exists bits, out_bytes, (frame_of out_bytes).
  assert (Hc : (length (filter (λ b, b ∈ [0x0A; 0x0B; 0x0C; 0x0D]%Z) out_bytes)
                ≤ length out_bytes)%nat) by apply length_filter.
  assert (Hlen : length (frame_of out_bytes)
            = (length out_bytes
               + length (filter (λ b, b ∈ [0x0A; 0x0B; 0x0C; 0x0D]%Z) out_bytes)
               + 2)%nat).
  { unfold frame_of. cbn [length].
    rewrite length_app, length_flat_map_escape, control_count_values.
    cbn [length]. lia. }
  split_and!; [done|done| | |done|lia|lia|done|].
  - by rewrite build_frame_byte_values, Hpack'.
  - rewrite (write_regs_packed registers write_values w cwv w1 out_bytes)
      by (done || by rewrite Hderef).
    rewrite Hport. unfold ser_write. rewrite Hroom. done.
  - unfold frame_of. rewrite app_comm_cons. apply last_snoc.
Qed.

Lemma frame_length_witness :
  let w := mkWorld {[ 1%positive := {[ "a" := 0; "b" := 0x0B ]} ]}
             (mkSerial [] None []) in
  Forall (λ r, 0 < reg_length r) regs_ab
  ∧ heap w !! 1%positive = Some {[ "a" := 0; "b" := 0x0B ]}
  ∧ in_range_values regs_ab {[ "a" := 0; "b" := 0x0B ]}
  ∧ ser_room (port w) = None
  ∧ ∃ bits out_bytes frame,
      pack_bits regs_ab {[ "a" := 0; "b" := 0x0B ]} = Ret bits
      ∧ pack_bytes regs_ab {[ "a" := 0; "b" := 0x0B ]} = Ret out_bytes
      ∧ build_frame bits = Ret frame
      ∧ ser_log (port (snd (write_regs regs_ab 1%positive w)))
        = ser_log (port w) ++ [Sent frame (length frame)]
      ∧ length frame
        = (length out_bytes
           + length (filter (λ b, b ∈ [0x0A; 0x0B; 0x0C; 0x0D]%Z) out_bytes)
           + 2)%nat
      ∧ (length out_bytes + 2 ≤ length frame)%nat
      ∧ (length frame ≤ 2 * length out_bytes + 2)%nat
      ∧ head frame = Some 0x0B ∧ last frame = Some 0x0C.
Proof.
  intros w.
  assert (H1 : Forall (λ r, 0 < reg_length r) regs_ab)
    by (repeat constructor).
  assert (H2 : heap w !! 1%positive
               = Some ({[ "a" := 0; "b" := 0x0B ]} : gmap string Z))
    by reflexivity.
  assert (H3 : in_range_values regs_ab {[ "a" := 0; "b" := 0x0B ]}).
  { intros r Hr _.
    apply elem_of_cons in Hr as [->|Hr];
      [|apply list_elem_of_singleton in Hr as ->].
    - exists 0. split; [reflexivity|]. unfold representable. cbn. lia.
    - exists 0x0B. split; [reflexivity|]. unfold representable. cbn. lia. }
  assert (H4 : ser_room (port w) = None) by reflexivity.
  split; [exact H1|]. split; [exact H2|]. split; [exact H3|].
  split; [exact H4|].
  exact (frame_length regs_ab 1%positive
           {[ "a" := 0; "b" := 0x0B ]} w H1 H2 H3 H4).
Defined.

(** The frame of that example: the packed byte [0x0B] is escaped. *)
Example frame_length_example :
  let w := mkWorld {[ 1%positive := {[ "a" := 0; "b" := 0x0B ]} ]}
             (mkSerial [] None []) in
  pack_bytes regs_ab {[ "a" := 0; "b" := 0x0B ]} = Ret [0x0B; 0x00]
  ∧ ser_log (port (snd (write_regs regs_ab 1%positive w)))
    = [Sent [START_WRITE; ESCAPE; 0x0B; 0x00; END_WRITE] 5].
Proof. split; vm_compute; reflexivity. Qed.

(** X10: for in-range values the packed out region has
    [ceil(out bits / 8)] bytes, each in [0, 256), and the bits after the
    last register (the filler of the last byte) are all zero. *)
Theorem pack_bytes_size (registers : list Register)
    (write_values : gmap string Z) :
  Forall (λ r, 0 < reg_length r) registers →
  in_range_values registers write_values →
  ∃ out_bytes,
    pack_bytes registers write_values = Ret out_bytes
    ∧ Forall is_byte out_bytes
    ∧ Z.of_nat (length out_bytes) = (regs_length ModeOut registers + 7) / 8
    ∧ drop (Z.to_nat (regs_length ModeOut registers)) (join_bits out_bytes)
      = replicate
          (8 * length out_bytes - Z.to_nat (regs_length ModeOut registers))
          "0"%char.
Proof.
  intros Hpos Hin.
  destruct (pack_bytes_ok registers write_values Hpos Hin)
    as (out_bytes & Hpack & Hb & Hl & Hjoin).
  exists out_bytes. split_and!; [done|done| |].
  - rewrite Hl. unfold out_regs_length, pad8.
    rewrite Z.div_mul by lia. done.
  - destruct (out_chunks_bits write_values (rev registers))
      as [_ Hlen]; [by apply in_range_values_rev|by apply Forall_rev_pos|].
    rewrite regs_length_rev in Hlen.
    pose proof (length_join_bits out_bytes Hb) as Hjl.
    rewrite Hjoin in Hjl |- *. unfold pad_bits in Hjl |- *.
    rewrite length_app, length_replicate in Hjl.
    rewrite <- Hlen, Nat2Z.id, drop_app_length. f_equal. lia.
Qed.

Lemma pack_bytes_size_witness :
  Forall (λ r, 0 < reg_length r) regs_ab
  ∧ in_range_values regs_ab {[ "a" := 1; "b" := 0xFF ]}
  ∧ ∃ out_bytes,
      pack_bytes regs_ab {[ "a" := 1; "b" := 0xFF ]} = Ret out_bytes
      ∧ Forall is_byte out_bytes
      ∧ Z.of_nat (length out_bytes) = (regs_length ModeOut regs_ab + 7) / 8
      ∧ drop (Z.to_nat (regs_length ModeOut regs_ab)) (join_bits out_bytes)
        = replicate
            (8 * length out_bytes - Z.to_nat (regs_length ModeOut regs_ab))
            "0"%char.
Proof.
  assert (H1 : Forall (λ r, 0 < reg_length r) regs_ab)
    by (repeat constructor).
  assert (H2 : in_range_values regs_ab {[ "a" := 1; "b" := 0xFF ]}).
  { intros r Hr _.
    apply elem_of_cons in Hr as [->|Hr];
      [|apply list_elem_of_singleton in Hr as ->].
    - exists 1. split; [reflexivity|]. unfold representable. cbn. lia.
    - exists 0xFF. split; [reflexivity|]. unfold representable. cbn. lia. }
  split; [exact H1|]. split; [exact H2|].
  exact (pack_bytes_size regs_ab {[ "a" := 1; "b" := 0xFF ]} H1 H2).
Defined.

(** ** The command line: [WriteAction] *)

(** X11: [WriteAction] accepts exactly the non-empty argument lists in
    which every argument splits at its [=] into exactly a name and a value
    that [int(value, 0)] accepts, and every name is an out-mode register;
    the mapping it then hands to [write_regs] has, for a name given several
    times, the value given last, and no other names. A non-empty list with
    an argument that does not parse ends in an uncaught [ValueError],
    whatever its names are. *)
Theorem WriteAction_accepts (py_int0 : string → option Z)
    (registers : list Register) (values : list string) :
  ((∃ m, WriteAction py_int0 registers values = Ret m)
   ↔ values ≠ []
     ∧ ∃ pairs, Forall2 (parsed_as py_int0) values pairs
         ∧ ∀ n, n ∈ map fst pairs → n ∈ out_register_names registers)
  ∧ (∀ m pairs, WriteAction py_int0 registers values = Ret m →
       Forall2 (parsed_as py_int0) values pairs →
       ∀ n, m !! n = snd <$> last (filter (λ kv, kv.1 = n) pairs))
  ∧ (values ≠ [] →
     (¬ ∃ pairs, Forall2 (parsed_as py_int0) values pairs) →
     ∃ msg, WriteAction py_int0 registers values = Raise (ValueError msg))
  ∧ (values = [] →
     WriteAction py_int0 registers values
     = Raise (ParserError "argument -w/--write: must provide at least one out-mode register value in the format reg_name=value.")).
Proof.
  split; [split|split; [|split]].
  - intros [m Hm].
    destruct (WriteAction_ret _ _ _ _ Hm) as (Hne & pairs & Hp & Hall & _).
    split; [done|]. by exists pairs.
  - intros (Hne & pairs & Hp & Hall).
    rewrite (WriteAction_parsed _ _ _ _ Hne Hp).
    rewrite (proj2 (check_names_ok _ _) Hall). by eexists.
  - intros m pairs Hm Hp n.
    destruct (WriteAction_ret _ _ _ _ Hm) as (_ & pairs' & Hp' & _ & ->).
    apply parse_write_values_ret in Hp, Hp'.
    assert (pairs' = pairs) as -> by congruence.
    rewrite fold_insert_lookup.
    destruct (last (filter _ pairs)); [done|]. by rewrite lookup_empty.
  - by apply WriteAction_unparsed.
  - by intros ->.
Qed.

(** [WriteAction] on examples, with a reading of decimal digits for
    [int(value, 0)] (the two agree on the values used here): the check of
    the names comes after every argument has been parsed. *)
Example WriteAction_examples :
  WriteAction digits_int regs_ab ["a=1"; "b=255"; "a=0"]
  = Ret {[ "a" := 0; "b" := 255 ]}
  ∧ WriteAction digits_int regs_ab ["zz=1"]
    = Raise (ParserError
        "argument -w/--write: zz is not a valid out-mode register name.")
  ∧ WriteAction digits_int regs_ab ["zz"]
    = Raise (ValueError "not enough values to unpack (expected 2, got 1)")
  ∧ WriteAction digits_int regs_ab ["zz=1"; "a"]
    = Raise (ValueError "not enough values to unpack (expected 2, got 1)")
  ∧ WriteAction digits_int regs_ab ["a=1=2"]
    = Raise (ValueError "too many values to unpack (expected 2)")
  ∧ WriteAction digits_int regs_ab ["a=x"]
    = Raise (ValueError "invalid literal for int() with base 0: 'x'").
Proof. repeat split; vm_compute; reflexivity. Qed.

(** ** The generator: what [RegisterAction] accepts *)

Lemma parse_register_ret py_int registers value r :
  parse_register py_int registers value = Ret r →
  reg_name r = spec_name value
  ∧ (reg_name r ∉ map reg_name registers)
  ∧ 0 < reg_length r
  ∧ (reg_type r = std_logic → reg_length r = 1).
Proof.
  unfold parse_register, spec_name.
  destruct (split_on "=" value) as [|name [|rest [|? ?]]]; try done.
  destruct (bool_decide (name ∈ map reg_name registers)) eqn:Hdup; [done|].
  apply bool_decide_eq_false in Hdup.
  destruct (py_int _) as [len|]; [|done]. cbv zeta.
  destruct (bool_decide (len ≤ 0)) eqn:Hlen; [done|].
  apply bool_decide_eq_false in Hlen.
  destruct (mode_of_str _) as [mode|]; [|done].
  destruct (type_of_str _) as [ty|]; [|done].
  destruct (bool_decide (ty = std_logic) && bool_decide (len ≠ 1)) eqn:Hsl;
    [done|].
  intros Hr. inversion Hr; subst r. cbn.
  split_and!; [done|done|lia|].
  intros ->. rewrite bool_decide_eq_true_2 in Hsl by done.
  cbn [andb] in Hsl. apply bool_decide_eq_false in Hsl.
  destruct (decide (len = 1)); [done|by exfalso; apply Hsl].
Qed.

Lemma register_loop_ret py_int values : ∀ acc registers,
  register_loop py_int values acc = Ret registers →
  NoDup (map reg_name acc) →
  Forall (λ r, 0 < reg_length r) acc →
  (∀ r, r ∈ acc → reg_type r = std_logic → reg_length r = 1) →
  NoDup (map reg_name registers)
  ∧ Forall (λ r, 0 < reg_length r) registers
  ∧ (∀ r, r ∈ registers → reg_type r = std_logic → reg_length r = 1)
  ∧ map reg_name registers = map reg_name acc ++ map spec_name values.
Proof.
  induction values as [|value values IH]; intros acc registers Hl Hnd Hpos Hsl.
  - cbn in Hl. inversion Hl; subst. by rewrite app_nil_r.
  - cbn [register_loop] in Hl.
    destruct (parse_register py_int acc value) as [r|] eqn:Hp; [|done].
    destruct (parse_register_ret _ _ _ _ Hp) as (Hname & Hfresh & Hr & Hrsl).
    destruct (IH _ _ Hl) as (H1 & H2 & H3 & H4).
    + rewrite map_app. cbn [map]. apply NoDup_app. split_and!; [done| |].
      * intros n Hn [->|[]%elem_of_nil]%elem_of_cons. done.
      * apply NoDup_singleton.
    + apply Forall_app. split; [done|]. by constructor.
    + intros r' [Hr'|Hr']%elem_of_app; [by apply Hsl|].
      apply list_elem_of_singleton in Hr' as ->. done.
    + split_and!; [done|done|done|].
      rewrite H4, map_app, <- app_assoc. cbn [map app]. by rewrite Hname.
Qed.

(** X12: every register list that [RegisterAction] accepts is a valid
    schema: it is not empty, has one register for each argument, under the
    name written before the [=], no name twice, every bit length positive,
    and bit length 1 for every [std_logic] register. This holds whatever
    strings [int] accepts. *)
Theorem RegisterAction_valid (py_int : string → option Z)
    (values : list string) (registers : list Register) :
  RegisterAction py_int values = Ret registers →
  registers ≠ []
  ∧ valid_schema registers
  ∧ (∀ r, r ∈ registers → reg_type r = std_logic → reg_length r = 1)
  ∧ map reg_name registers = map spec_name values.
Proof.
  unfold RegisterAction. intros H.
  destruct (register_loop py_int values []) as [regs|] eqn:Hl; [|done].
  destruct (register_loop_ret _ _ _ _ Hl) as (H1 & H2 & H3 & H4);
    [apply NoDup_nil_2|constructor|by intros r ?%elem_of_nil|].
  destruct regs as [|r0 regs]; [done|]. inversion H; subst registers.
  split_and!; [done|by split|done|done].
Qed.

Lemma RegisterAction_valid_witness :
  let registers :=
    [ mkReg "sl" ModeOut 1 std_logic; mkReg "uns" ModeIn 4 unsigned;
      mkReg "slv" ModeOut 8 std_logic_vector; mkReg "sig" ModeIn 4 signed ] in
  RegisterAction digits_int example_values = Ret registers
  ∧ registers ≠ []
  ∧ valid_schema registers
  ∧ (∀ r, r ∈ registers → reg_type r = std_logic → reg_length r = 1)
  ∧ map reg_name registers = map spec_name example_values.
Proof.
  intros registers.
  assert (H : RegisterAction digits_int example_values = Ret registers)
    by (vm_compute; reflexivity).
  split; [exact H|].
  exact (RegisterAction_valid digits_int example_values registers H).
Defined.

(** ** The generator: the VHDL slices *)

Lemma slice_loop_lookup l1 : ∀ r l2 in_ub out_ub,
  slice_loop (l1 ++ r :: l2) in_ub out_ub !! length l1
  = Some (mkSlice r
            (start_of (reg_mode r) in_ub out_ub - regs_length (reg_mode r) l1)
            (start_of (reg_mode r) in_ub out_ub - regs_length (reg_mode r) l1
             - reg_length r + 1)).
Proof.
  induction l1 as [|r0 l1 IH]; intros r l2 in_ub out_ub.
  - cbn [app length slice_loop].
    change (regs_length (reg_mode r) []) with 0. rewrite Z.sub_0_r.
    by destruct (reg_mode r).
  - cbn [app length slice_loop]. rewrite regs_length_cons.
    destruct (reg_mode r0) eqn:Hm0; cbn [lookup list_lookup]; rewrite IH;
      destruct (reg_mode r) eqn:Hm; cbn [start_of];
      rewrite ?decide_True by done; rewrite ?decide_False by done;
      do 2 f_equal; lia.
Qed.

Lemma vhdl_total_length_bounds m registers :
  regs_length m registers ≤ vhdl_total_length m registers
  < regs_length m registers + 8.
Proof. unfold vhdl_total_length. Z.div_mod_to_equations. lia. Qed.

Lemma vhdl_slices_mirror_helper registers l1 l2 r :
  Forall (λ r, 0 < reg_length r) registers →
  rev registers = l1 ++ r :: l2 →
  vhdl_slices registers !! length l1
  = Some (mkSlice r
            (vhdl_total_length (reg_mode r) registers - 1
             - regs_length (reg_mode r) l1)
            (vhdl_total_length (reg_mode r) registers
             - regs_length (reg_mode r) l1 - reg_length r))
  ∧ 0 ≤ vhdl_total_length (reg_mode r) registers
        - regs_length (reg_mode r) l1 - reg_length r
  ∧ 0 ≤ regs_length (reg_mode r) l1.
Proof.
  intros Hpos Heq. unfold vhdl_slices. rewrite Heq.
  rewrite slice_loop_lookup.
  assert (Hst : start_of (reg_mode r)
                  (vhdl_total_length ModeIn registers - 1)
                  (vhdl_total_length ModeOut registers - 1)
                = vhdl_total_length (reg_mode r) registers - 1)
    by by destruct (reg_mode r).
  rewrite Hst.
  pose proof (Forall_rev_pos _ Hpos) as Hposr. rewrite Heq in Hposr.
  apply Forall_app in Hposr as [Hpos1 Hpos2].
  apply Forall_cons in Hpos2 as [Hr Hpos2].
  pose proof (regs_length_nonneg (reg_mode r) l1 Hpos1) as H1.
  pose proof (regs_length_nonneg (reg_mode r) l2 Hpos2) as H2.
  pose proof (regs_length_rev (reg_mode r) registers) as Hrev.
  rewrite Heq, regs_length_app, regs_length_cons in Hrev.
  rewrite decide_True in Hrev by done.
  pose proof (vhdl_total_length_bounds (reg_mode r) registers) as Hb.
  split_and!; [do 2 f_equal; lia|lia|lia].
Qed.

(** X13: the VHDL slices mirror the bit strings of the Python side. The
    register that comes after the registers [l1] in reversed declaration
    order gets the slice [hi downto lo] with [hi = total - 1 - start] and
    [lo = total - start - length], where [start] is the sum of the bit
    lengths of the registers of the same direction in [l1] (the start bit
    of the register in [read_regs] and [write_regs]) and [total] the padded
    length of its direction; the slice lies inside the vector, and the
    vector lengths and byte counts are those the Python side expects. *)
Theorem vhdl_slices_mirror (registers l1 l2 : list Register) (r : Register) :
  Forall (λ r, 0 < reg_length r) registers →
  rev registers = l1 ++ r :: l2 →
  let start := regs_length (reg_mode r) l1 in
  let total := vhdl_total_length (reg_mode r) registers in
  vhdl_slices registers !! length l1
  = Some (mkSlice r (total - 1 - start) (total - start - reg_length r))
  ∧ 0 ≤ total - start - reg_length r
  ∧ total - start - reg_length r ≤ total - 1 - start
  ∧ total - 1 - start < total
  ∧ vhdl_total_length ModeIn registers = in_regs_length registers
  ∧ vhdl_total_length ModeOut registers = out_regs_length registers
  ∧ vhdl_bytes ModeIn registers + vhdl_bytes ModeOut registers
    = expected_bytes registers.
Proof.
  intros Hpos Heq start total.
  destruct (vhdl_slices_mirror_helper registers l1 l2 r Hpos Heq)
    as (Hs & Hlo & Hstart).
  fold start total in Hs, Hlo, Hstart.
  assert (Hr : 0 < reg_length r).
  { apply (proj1 (Forall_forall _ _) Hpos).
    rewrite <- elem_of_rev_iff, Heq. apply elem_of_app. right. by left. }
  split_and!; [done|done|lia|lia|done|done|].
  unfold vhdl_bytes, vhdl_total_length, expected_bytes, in_regs_length,
    out_regs_length, pad8. Z.div_mod_to_equations. lia.
Qed.

Lemma vhdl_slices_mirror_witness :
  let r := mkReg "uns" ModeIn 4 unsigned in
  let l1 := [ mkReg "sig" ModeIn 4 signed;
              mkReg "slv" ModeOut 8 std_logic_vector ] in
  let l2 := [ mkReg "sl" ModeOut 1 std_logic ] in
  Forall (λ r, 0 < reg_length r) example_registers
  ∧ rev example_registers = l1 ++ r :: l2
  ∧ (let start := regs_length (reg_mode r) l1 in
     let total := vhdl_total_length (reg_mode r) example_registers in
     vhdl_slices example_registers !! length l1
     = Some (mkSlice r (total - 1 - start) (total - start - reg_length r))
     ∧ 0 ≤ total - start - reg_length r
     ∧ total - start - reg_length r ≤ total - 1 - start
     ∧ total - 1 - start < total
     ∧ vhdl_total_length ModeIn example_registers
       = in_regs_length example_registers
     ∧ vhdl_total_length ModeOut example_registers
       = out_regs_length example_registers
     ∧ vhdl_bytes ModeIn example_registers
       + vhdl_bytes ModeOut example_registers
       = expected_bytes example_registers).
Proof.
  intros r l1 l2.
  assert (H1 : Forall (λ r, 0 < reg_length r) example_registers)
    by (repeat constructor).
  assert (H2 : rev example_registers = l1 ++ r :: l2) by reflexivity.
  split; [exact H1|]. split; [exact H2|].
  exact (vhdl_slices_mirror example_registers l1 l2 r H1 H2).
Defined.

(** The assignments written for the example of the help text. *)
Example vhdl_assignments_example :
  vhdl_assignments example_registers
  = [ "  in_regs(7 downto 4) <= std_logic_vector(sig);
";
      "  slv <= out_regs(15 downto 8);
";
      "  in_regs(3 downto 0) <= std_logic_vector(uns);
";
      "  sl <= out_regs(7);
" ].
Proof. vm_compute. reflexivity. Qed.

(** X14: two registers of the same direction never share a bit of the
    vector: the slice of the one that comes later in reversed declaration
    order lies entirely below the slice of the earlier one. *)
Theorem vhdl_slices_disjoint (registers l1 l2 l3 : list Register)
    (r1 r2 : Register) :
  Forall (λ r, 0 < reg_length r) registers →
  rev registers = l1 ++ r1 :: l2 ++ r2 :: l3 →
  reg_mode r1 = reg_mode r2 →
  ∃ s1 s2,
    vhdl_slices registers !! length l1 = Some s1
    ∧ vhdl_slices registers !! (length l1 + 1 + length l2)%nat = Some s2
    ∧ slice_reg s1 = r1 ∧ slice_reg s2 = r2
    ∧ slice_hi s2 < slice_lo s1
    ∧ 0 ≤ slice_lo s2.
Proof.
  intros Hpos Heq Hmode.
  destruct (vhdl_slices_mirror_helper registers l1 (l2 ++ r2 :: l3) r1
              Hpos Heq) as (Hs1 & Hb1 & _).
  assert (Heq2 : rev registers = (l1 ++ r1 :: l2) ++ r2 :: l3)
    by (rewrite Heq, <- app_assoc; done).
  destruct (vhdl_slices_mirror_helper registers (l1 ++ r1 :: l2) l3 r2
              Hpos Heq2) as (Hs2 & Hb2 & _).
  rewrite length_app in Hs2. cbn [length] in Hs2.
  replace (length l1 + S (length l2))%nat
    with (length l1 + 1 + length l2)%nat in Hs2 by lia.
  eexists _, _. split_and!; [exact Hs1|exact Hs2|done|done|cbn|cbn; lia].
  rewrite regs_length_app, regs_length_cons in Hb2 |- *.
  rewrite decide_True in Hb2 |- * by done. rewrite <- Hmode in *.
  pose proof (Forall_rev_pos _ Hpos) as Hposr. rewrite Heq in Hposr.
  apply Forall_app in Hposr as [_ Hposr].
  apply Forall_cons in Hposr as [_ Hposr].
  apply Forall_app in Hposr as [Hposr _].
  pose proof (regs_length_nonneg (reg_mode r1) l2 Hposr). lia.
Qed.

(** ** The tables of [print_table] *)

Lemma string_length_append s1 s2 :
  String.length (s1 +:+ s2) = (String.length s1 + String.length s2)%nat.
Proof. induction s1 as [|c s1 IH]; [done|]. simpl. by f_equal. Qed.

Lemma string_length_repeat_char c n : String.length (repeat_char c n) = n.
Proof. induction n as [|n IH]; [done|]. cbn. by rewrite IH. Qed.

Lemma string_length_ljust width s :
  (String.length s ≤ width)%nat → String.length (ljust width s) = width.
Proof.
  intros H. unfold ljust.
  rewrite string_length_append, string_length_repeat_char. lia.
Qed.

Lemma col_max_ok i rows :
  rows ≠ [] →
  Forall (λ row : list string, (i < length row)%nat) rows →
  ∃ m, col_max i rows = inr m
    ∧ Forall (λ row : list string,
                ∃ item, row !! i = Some item
                        ∧ (String.length item ≤ m)%nat) rows.
Proof.
  intros Hne Hall. induction Hall as [|row rows Hrow Hall IH]; [done|].
  clear Hne. cbn [col_max].
  destruct (lookup_lt_is_Some_2 row i Hrow) as [item Hitem]. rewrite Hitem.
  destruct rows as [|row' rows'].
  - exists (String.length item). split; [done|].
    constructor; [by exists item|constructor].
  - destruct IH as (m & Hm & Hfits); [done|]. rewrite Hm.
    exists (Nat.max (String.length item) m). split; [done|].
    constructor; [exists item; split; [done|lia]|].
    eapply Forall_impl; [exact Hfits|].
    intros row0 (item0 & H0 & Hle). exists item0. split; [done|lia].
Qed.

Lemma col_widths_ok header_cols rows : ∀ i,
  rows ≠ [] →
  Forall (λ row : list string,
            length row = (i + length header_cols)%nat) rows →
  ∃ widths, col_widths i header_cols rows = inr widths
    ∧ fits widths header_cols
    ∧ Forall (λ row, fits widths (drop i row)) rows.
Proof.
  induction header_cols as [|col cols IH]; intros i Hne Hrect.
  - exists []. split_and!; [done|constructor|].
    eapply Forall_impl; [exact Hrect|]. intros row Hrow. cbn in Hrow.
    rewrite drop_ge by lia. constructor.
  - cbn [col_widths].
    destruct (col_max_ok i rows Hne) as (m & Hm & Hfit).
    { eapply Forall_impl; [exact Hrect|]. intros row Hrow.
      cbn [length] in Hrow. lia. }
    rewrite Hm.
    destruct (IH (S i) Hne) as (ws & Hws & Hfc & Hfr).
    { eapply Forall_impl; [exact Hrect|]. intros row Hrow.
      cbn [length] in Hrow. lia. }
    rewrite Hws. eexists. split_and!; [done| |].
    + constructor; [lia|done].
    + rewrite Forall_forall in Hfit, Hfr. apply Forall_forall.
      intros row Hrow. destruct (Hfit row Hrow) as (item & Hitem & Hle).
      rewrite (drop_S _ _ _ Hitem). constructor; [lia|by apply Hfr].
Qed.

Lemma format_header_length header_cols : ∀ widths,
  fits widths header_cols →
  String.length (format_header header_cols widths) = sum_list widths.
Proof.
  induction header_cols as [|col cols IH]; intros widths Hfit.
  - by inversion Hfit.
  - inversion Hfit as [|w c ws cs Hle Hrest]; subst.
    cbn [format_header sum_list sum_list_with].
    rewrite string_length_append, string_length_ljust, IH by done. done.
Qed.

Lemma format_row_length row : ∀ widths,
  fits widths row →
  ∃ line, format_row widths row = Some line
          ∧ String.length line = sum_list widths.
Proof.
  induction row as [|item row IH]; intros widths Hfit.
  - inversion Hfit. by exists EmptyString.
  - inversion Hfit as [|w c ws cs Hle Hrest]; subst.
    destruct (IH ws Hrest) as (line & Hline & Hlen).
    cbn [format_row]. rewrite Hline. eexists. split; [done|].
    cbn [sum_list sum_list_with].
    by rewrite string_length_append, string_length_ljust, Hlen.
Qed.

Lemma print_rows_length widths rows :
  Forall (fits widths) rows →
  ∃ lines, print_rows widths rows = (lines, None)
    ∧ length lines = length rows
    ∧ Forall (λ line, String.length line = sum_list widths) lines.
Proof.
  induction 1 as [|row rows Hrow _ IH].
  - by exists [].
  - destruct IH as (lines & Hlines & Hlen & Hall).
    destruct (format_row_length row widths Hrow) as (line & Hline & Hl).
    cbn [print_rows]. rewrite Hline, Hlines.
    exists (line :: lines). split_and!; [done|cbn; by rewrite Hlen|].
    by constructor.
Qed.

Lemma print_table_rect header_cols rows :
  rows ≠ [] →
  Forall (λ row : list string, length row = length header_cols) rows →
  (print_table header_cols rows).2 = None
  ∧ aligned_table (print_table header_cols rows).1 (length rows).
Proof.
  intros Hne Hrect. unfold print_table.
  destruct (col_widths_ok header_cols rows 0 Hne) as (ws & Hws & Hfc & Hfr);
    [done|].
  rewrite Hws.
  destruct (print_rows_length ws rows) as (lines & Hlines & Hlen & Hall).
  { eapply Forall_impl; [exact Hfr|]. intros row Hrow. exact Hrow. }
  rewrite Hlines. cbn [fst snd]. split; [done|].
  exists (format_header header_cols ws), lines. split_and!; [done|done|].
  eapply Forall_impl; [exact Hall|]. intros line Hl.
  by rewrite Hl, format_header_length.
Qed.

(** X15: [print_table] prints an aligned table. For a non-empty list of
    rows that all have as many items as there are header columns, it
    raises nothing and prints the header, a line of [=] as long as the
    header, and one line for each row, every one as long as the header. *)
Theorem print_table_aligned (header_cols : list string)
    (rows : list (list string)) :
  rows ≠ [] →
  Forall (λ row : list string, length row = length header_cols) rows →
  (print_table header_cols rows).2 = None
  ∧ aligned_table (print_table header_cols rows).1 (length rows).
Proof. apply print_table_rect. Qed.

Lemma print_table_aligned_witness :
  [ ["a"; "1"]; ["register"; "255"] ] ≠ []
  ∧ Forall (λ row : list string, length row = length ["Name"; "Bits"])
      [ ["a"; "1"]; ["register"; "255"] ]
  ∧ (print_table ["Name"; "Bits"] [ ["a"; "1"]; ["register"; "255"] ]).2
    = None
  ∧ aligned_table
      (print_table ["Name"; "Bits"] [ ["a"; "1"]; ["register"; "255"] ]).1
      (length [ ["a"; "1"]; ["register"; "255"] ]).
Proof.
  assert (H1 : [ ["a"; "1"]; ["register"; "255"] ] ≠ []) by discriminate.
  assert (H2 : Forall (λ row : list string,
                         length row = length ["Name"; "Bits"])
                 [ ["a"; "1"]; ["register"; "255"] ])
    by (repeat constructor).
  split; [exact H1|]. split; [exact H2|].
  exact (print_table_aligned ["Name"; "Bits"]
           [ ["a"; "1"]; ["register"; "255"] ] H1 H2).
Defined.

(** ** The tables of [print_regs] and [list_regs] *)

Lemma regs_rows_ok registers regs_values :
  (∀ r, r ∈ registers → is_Some (regs_values !! reg_name r)) →
  ∃ rows, regs_rows registers regs_values = inr rows
    ∧ length rows = length registers
    ∧ Forall (λ row : list string, length row = 5%nat) rows.
Proof.
  induction registers as [|r registers IH]; intros Hall; [by exists []|].
  destruct (Hall r) as [v Hv]; [by left|].
  destruct IH as (rows & Hrows & Hlen & Hfive);
    [intros r' Hr'; apply Hall; by right|].
  cbn [regs_rows]. rewrite Hv, Hrows. eexists. split_and!; [done| |].
  - cbn [length]. by rewrite Hlen.
  - by constructor.
Qed.

Lemma add_int_vals_ok registers regs_values : ∀ rows,
  (∀ r, r ∈ registers → is_Some (regs_values !! reg_name r)) →
  length rows = length registers →
  Forall (λ row : list string, length row = 5%nat) rows →
  ∃ rows', add_int_vals registers regs_values rows = inr rows'
    ∧ length rows' = length registers
    ∧ Forall (λ row : list string, length row = 6%nat) rows'.
Proof.
  induction registers as [|r registers IH]; intros rows Hall Hlen Hfive.
  - exists []. by destruct rows.
  - destruct rows as [|row rows]; [done|].
    apply Forall_cons in Hfive as [Hrow Hfive].
    destruct (Hall r) as [v Hv]; [by left|].
    destruct (IH rows) as (rows' & Hrows & Hlen' & Hsix);
      [intros r' Hr'; apply Hall; by right|by inversion Hlen|done|].
    cbn [add_int_vals]. rewrite Hv, Hrows. eexists. split_and!; [done| |].
    + cbn [length]. by rewrite Hlen'.
    + constructor; [|done]. rewrite length_app, Hrow. done.
Qed.

Lemma print_regs_table registers regs_values :
  registers ≠ [] →
  (∀ r, r ∈ registers → is_Some (regs_values !! reg_name r)) →
  (print_regs registers regs_values).2 = None
  ∧ aligned_table (print_regs registers regs_values).1 (length registers).
Proof.
  intros Hne Hall. unfold print_regs.
  destruct (regs_rows_ok registers regs_values Hall)
    as (rows & Hrows & Hlen & Hfive).
  rewrite Hrows. destruct (has_int_val registers).
  - destruct (add_int_vals_ok registers regs_values rows Hall Hlen Hfive)
      as (rows' & Hrows' & Hlen' & Hsix).
    rewrite Hrows', <- Hlen'. apply print_table_rect; [|done].
    intros ->. destruct registers; done.
  - rewrite <- Hlen. apply print_table_rect; [|done].
    intros ->. destruct registers; done.
Qed.

(** X16: given a value for every register, [print_regs] raises nothing
    and prints an aligned table: the header, the separator, and one line
    for each register, all of the same length (with or without the
    "Int val" column). *)
Theorem print_regs_aligned (registers : list Register)
    (regs_values : gmap string Z) :
  registers ≠ [] →
  (∀ r, r ∈ registers → is_Some (regs_values !! reg_name r)) →
  (print_regs registers regs_values).2 = None
  ∧ aligned_table (print_regs registers regs_values).1 (length registers).
Proof. apply print_regs_table. Qed.

Lemma print_regs_aligned_witness :
  example_registers ≠ []
  ∧ (∀ r, r ∈ example_registers →
       is_Some (({[ "sl" := 1; "uns" := 15; "slv" := 255; "sig" := 15 ]}
                 : gmap string Z) !! reg_name r))
  ∧ (print_regs example_registers
       {[ "sl" := 1; "uns" := 15; "slv" := 255; "sig" := 15 ]}).2 = None
  ∧ aligned_table
      (print_regs example_registers
         {[ "sl" := 1; "uns" := 15; "slv" := 255; "sig" := 15 ]}).1
      (length example_registers).
Proof.
  assert (H1 : example_registers ≠ []) by discriminate.
  assert (H2 : ∀ r, r ∈ example_registers →
       is_Some (({[ "sl" := 1; "uns" := 15; "slv" := 255; "sig" := 15 ]}
                 : gmap string Z) !! reg_name r)).
  { intros r Hr. unfold example_registers in Hr.
    repeat (apply elem_of_cons in Hr as [->|Hr]; [by eexists|]).
    by apply elem_of_nil in Hr. }
  split; [exact H1|]. split; [exact H2|].
  exact (print_regs_aligned example_registers
           {[ "sl" := 1; "uns" := 15; "slv" := 255; "sig" := 15 ]} H1 H2).
Defined.

Lemma regs_rows_missing l1 r l2 regs_values :
  (∀ r', r' ∈ l1 → is_Some (regs_values !! reg_name r')) →
  regs_values !! reg_name r = None →
  regs_rows (l1 ++ r :: l2) regs_values = inl (PrintKeyError (reg_name r)).
Proof.
  intros Hall Hnone. induction l1 as [|r0 l1 IH].
  - cbn [app regs_rows]. by rewrite Hnone.
  - cbn [app regs_rows]. destruct (Hall r0) as [v ->]; [by left|].
    rewrite IH; [done|]. intros r' Hr'. apply Hall. by right.
Qed.

(** X17: when the mapping lacks a register, [print_regs] raises
    [KeyError] for the first register (in declaration order) that is
    missing, and prints nothing, not even the header. *)
Theorem print_regs_missing (l1 l2 : list Register) (r : Register)
    (regs_values : gmap string Z) :
  (∀ r', r' ∈ l1 → is_Some (regs_values !! reg_name r')) →
  regs_values !! reg_name r = None →
  print_regs (l1 ++ r :: l2) regs_values
  = ([], Some (PrintKeyError (reg_name r))).
Proof.
  intros Hall Hnone. unfold print_regs.
  by rewrite (regs_rows_missing l1 r l2 regs_values Hall Hnone).
Qed.

Lemma print_regs_missing_witness :
  let l1 := [ mkReg "sl" ModeOut 1 std_logic; mkReg "uns" ModeIn 4 unsigned ] in
  let r := mkReg "slv" ModeOut 8 std_logic_vector in
  let l2 := [ mkReg "sig" ModeIn 4 signed ] in
  (∀ r', r' ∈ l1 →
     is_Some (({[ "sl" := 1; "uns" := 15 ]} : gmap string Z) !! reg_name r'))
  ∧ ({[ "sl" := 1; "uns" := 15 ]} : gmap string Z) !! reg_name r = None
  ∧ print_regs (l1 ++ r :: l2) {[ "sl" := 1; "uns" := 15 ]}
    = ([], Some (PrintKeyError (reg_name r))).
Proof.
  intros l1 r l2.
  assert (H1 : ∀ r', r' ∈ l1 →
     is_Some (({[ "sl" := 1; "uns" := 15 ]} : gmap string Z)
              !! reg_name r')).
  { intros r' Hr'. unfold l1 in Hr'.
    repeat (apply elem_of_cons in Hr' as [->|Hr']; [by eexists|]).
    by apply elem_of_nil in Hr'. }
  assert (H2 : ({[ "sl" := 1; "uns" := 15 ]} : gmap string Z) !! reg_name r
               = None) by reflexivity.
  split; [exact H1|]. split; [exact H2|].
  exact (print_regs_missing l1 l2 r {[ "sl" := 1; "uns" := 15 ]} H1 H2).
Defined.

(** X18: for a non-empty register list, [list_regs] raises nothing and
    prints an aligned table with one line for each register. *)
Theorem list_regs_aligned (registers : list Register) :
  registers ≠ [] →
  (list_regs registers).2 = None
  ∧ aligned_table (list_regs registers).1 (length registers).
Proof.
  intros Hne. unfold list_regs.
  set (rows := map (λ r, [ reg_name r; str_Z (reg_length r);
                           type_name (reg_type r); mode_name (reg_mode r) ])
                 registers).
  replace (length registers) with (length rows)
    by (unfold rows; apply length_map).
  apply print_table_rect.
  - unfold rows. by destruct registers.
  - apply Forall_forall. intros row (r & -> & _)%list_elem_of_fmap. done.
Qed.

Lemma list_regs_aligned_witness :
  example_registers ≠ []
  ∧ (list_regs example_registers).2 = None
  ∧ aligned_table (list_regs example_registers).1 (length example_registers).
Proof.
  assert (H1 : example_registers ≠ []) by discriminate.
  split; [exact H1|].
  exact (list_regs_aligned example_registers H1).
Defined.

(** X19: [read_and_print_regs] on a well-formed response prints the
    table: what [read_regs] returns has a value for every register, so
    [print_regs] raises no [KeyError] and prints one aligned line for each
    register. *)
Theorem read_and_print_regs_table (registers : list Register)
    (data rest : list Z) (w : world) :
  valid_schema registers →
  registers ≠ [] →
  ser_rx (port w) = frame_of data ++ rest →
  Forall is_byte data →
  Z.of_nat (length data) = expected_bytes registers →
  ∃ printed,
    fst (read_and_print_regs registers w) = Ret (printed, None)
    ∧ aligned_table printed (length registers).
Proof.
  intros Hvalid Hne Hrx Hb Hlen. unfold read_and_print_regs.
  rewrite (read_regs_frame_full registers data rest w Hrx).
  destruct (decode_values_spec registers data Hvalid Hb Hlen)
    as (m & Hm & _).
  rewrite Hm. cbn [fst].
  destruct (print_regs_table registers m Hne) as [Hnone Htable].
  { intros r Hr.
    destruct (decode_values_total registers data m Hvalid Hb Hm r Hr)
      as (p & Hp & _). by exists p. }
  exists (print_regs registers m).1. split; [|done].
  f_equal. rewrite <- Hnone. by destruct (print_regs registers m).
Qed.

Lemma read_and_print_regs_table_witness :
  let w := mkWorld ∅ (mkSerial (frame_of [0xF0] ++ []) None []) in
  valid_schema regs_s4
  ∧ regs_s4 ≠ []
  ∧ ser_rx (port w) = frame_of [0xF0] ++ []
  ∧ Forall is_byte [0xF0]
  ∧ Z.of_nat (length [0xF0]) = expected_bytes regs_s4
  ∧ ∃ printed,
      fst (read_and_print_regs regs_s4 w) = Ret (printed, None)
      ∧ aligned_table printed (length regs_s4).
Proof.
  intros w.
  assert (H1 : valid_schema regs_s4).
  { split; [|by repeat constructor].
    apply NoDup_cons. split; [apply not_elem_of_nil|apply NoDup_nil_2]. }
  assert (H2 : regs_s4 ≠ []) by discriminate.
  assert (H3 : ser_rx (port w) = frame_of [0xF0] ++ []) by reflexivity.
  assert (H4 : Forall is_byte [0xF0])
    by (repeat constructor; unfold is_byte; lia).
  assert (H5 : Z.of_nat (length [0xF0]) = expected_bytes regs_s4)
    by reflexivity.
  split; [exact H1|]. split; [exact H2|]. split; [exact H3|].
  split; [exact H4|]. split; [exact H5|].
  exact (read_and_print_regs_table regs_s4 [0xF0] [] w H1 H2 H3 H4 H5).
Defined.

Lemma vhdl_slices_disjoint_witness :
  let l1 := [ mkReg "sig" ModeIn 4 signed ] in
  let r1 := mkReg "slv" ModeOut 8 std_logic_vector in
  let l2 := [ mkReg "uns" ModeIn 4 unsigned ] in
  let r2 := mkReg "sl" ModeOut 1 std_logic in
  Forall (λ r, 0 < reg_length r) example_registers
  ∧ rev example_registers = l1 ++ r1 :: l2 ++ r2 :: []
  ∧ reg_mode r1 = reg_mode r2
  ∧ ∃ s1 s2,
      vhdl_slices example_registers !! length l1 = Some s1
      ∧ vhdl_slices example_registers !! (length l1 + 1 + length l2)%nat
        = Some s2
      ∧ slice_reg s1 = r1 ∧ slice_reg s2 = r2
      ∧ slice_hi s2 < slice_lo s1
      ∧ 0 ≤ slice_lo s2.
Proof.
  intros l1 r1 l2 r2.
  assert (H1 : Forall (λ r, 0 < reg_length r) example_registers)
    by (repeat constructor).
  assert (H2 : rev example_registers = l1 ++ r1 :: l2 ++ r2 :: [])
    by reflexivity.
  assert (H3 : reg_mode r1 = reg_mode r2) by reflexivity.
  split; [exact H1|]. split; [exact H2|]. split; [exact H3|].
  exact (vhdl_slices_disjoint example_registers l1 l2 [] r1 r2 H1 H2 H3).
Defined.

(** ** Packing loses nothing *)

Lemma pattern_inj r v1 v2 :
  0 < reg_length r → representable r v1 → representable r v2 →
  pattern r v1 = pattern r v2 → v1 = v2.
Proof.
  intros Hn H1 H2 Hp.
  destruct (decide (reg_type r = signed)) as [Hs|Hs].
  - rewrite <- (twos_complement_pattern r v1), <- (twos_complement_pattern r v2)
      by done. by rewrite Hp.
  - assert (0 ≤ v1 ∧ 0 ≤ v2) as [Hv1 Hv2].
    { unfold representable in H1, H2. destruct (reg_type r); try done; lia. }
    by rewrite <- (pattern_nonneg r v1), <- (pattern_nonneg r v2), Hp.
Qed.

Lemma value_bits_inj r v1 v2 :
  0 < reg_length r → representable r v1 → representable r v2 →
  value_bits r v1 = value_bits r v2 → v1 = v2.
Proof.
  intros Hn H1 H2 Hb. apply (pattern_inj r); try done.
  rewrite !value_bits_pattern in Hb by done.
  apply (f_equal int2) in Hb.
  rewrite !int2_bits_of in Hb
    by (lia || (rewrite Z2Nat.id by lia; by apply representable_pattern_bound)).
  congruence.
Qed.

Lemma out_chunks_inj d1 d2 regs :
  Forall (λ r, 0 < reg_length r) regs →
  in_range_values regs d1 → in_range_values regs d2 →
  out_chunks d1 regs = out_chunks d2 regs →
  ∀ r, r ∈ regs → reg_mode r = ModeOut →
    d1 !! reg_name r = d2 !! reg_name r.
Proof.
  intros Hpos. induction Hpos as [|r0 regs Hr0 Hpos IH];
    intros Hin1 Hin2 Heq r Hr Ho; [by apply elem_of_nil in Hr|].
  assert (Hin1' : in_range_values regs d1)
    by (intros r' Hr'; apply Hin1; by right).
  assert (Hin2' : in_range_values regs d2)
    by (intros r' Hr'; apply Hin2; by right).
  destruct (decide (reg_mode r0 = ModeOut)) as [Ho0|Ho0].
  - destruct (Hin1 r0) as (v1 & Hv1 & Hrep1); [by left|done|].
    destruct (Hin2 r0) as (v2 & Hv2 & Hrep2); [by left|done|].
    rewrite (out_chunks_cons_out d1 r0 regs v1),
            (out_chunks_cons_out d2 r0 regs v2) in Heq by done.
    apply app_inj_1 in Heq as [Hbits Hrest];
      [|by rewrite !length_value_bits].
    apply elem_of_cons in Hr as [->|Hr]; [|by apply IH].
    rewrite Hv1, Hv2. f_equal. by apply (value_bits_inj r0).
  - rewrite !out_chunks_cons_in in Heq by done.
    apply elem_of_cons in Hr as [->|Hr]; [done|by apply IH].
Qed.

(** X20: packing is injective on in-range values: two assignments that
    [write_regs] packs into the same bytes give every out-direction
    register the same value. *)
Theorem pack_bytes_injective (registers : list Register)
    (d1 d2 : gmap string Z) :
  Forall (λ r, 0 < reg_length r) registers →
  in_range_values registers d1 →
  in_range_values registers d2 →
  pack_bytes registers d1 = pack_bytes registers d2 →
  ∀ r, r ∈ registers → reg_mode r = ModeOut →
    d1 !! reg_name r = d2 !! reg_name r.
Proof.
  intros Hpos Hin1 Hin2 Heq r Hr Ho.
  destruct (pack_bytes_ok registers d1 Hpos Hin1) as (b1 & Hp1 & _ & _ & Hj1).
  destruct (pack_bytes_ok registers d2 Hpos Hin2) as (b2 & Hp2 & _ & _ & Hj2).
  assert (b1 = b2) as -> by congruence.
  rewrite Hj1 in Hj2.
  destruct (out_chunks_bits d1 (rev registers)) as [_ Hl1];
    [by apply in_range_values_rev|by apply Forall_rev_pos|].
  destruct (out_chunks_bits d2 (rev registers)) as [_ Hl2];
    [by apply in_range_values_rev|by apply Forall_rev_pos|].
  unfold pad_bits in Hj2.
  assert (Hlen : length (out_chunks d1 (rev registers))
                 = length (out_chunks d2 (rev registers))) by lia.
  apply app_inj_1 in Hj2 as [Hchunks _]; [|done].
  apply (out_chunks_inj d1 d2 (rev registers)); try done.
  - by apply Forall_rev_pos.
  - by apply in_range_values_rev.
  - by apply in_range_values_rev.
  - by apply elem_of_rev_iff.
Qed.

Lemma pack_bytes_injective_witness :
  Forall (λ r, 0 < reg_length r) regs_s4
  ∧ in_range_values regs_s4 {[ "s" := -1 ]}
  ∧ in_range_values regs_s4 {[ "s" := -1; "other" := 5 ]}
  ∧ pack_bytes regs_s4 {[ "s" := -1 ]}
    = pack_bytes regs_s4 {[ "s" := -1; "other" := 5 ]}
  ∧ ∀ r, r ∈ regs_s4 → reg_mode r = ModeOut →
      ({[ "s" := -1 ]} : gmap string Z) !! reg_name r
      = ({[ "s" := -1; "other" := 5 ]} : gmap string Z) !! reg_name r.
Proof.
  assert (H1 : Forall (λ r, 0 < reg_length r) regs_s4)
    by (repeat constructor).
  assert (H2 : in_range_values regs_s4 {[ "s" := -1 ]}).
  { intros r Hr _. apply list_elem_of_singleton in Hr as ->.
    exists (-1). split; [reflexivity|]. unfold representable. cbn. lia. }
  assert (H3 : in_range_values regs_s4 {[ "s" := -1; "other" := 5 ]}).
  { intros r Hr _. apply list_elem_of_singleton in Hr as ->.
    exists (-1). split; [reflexivity|]. unfold representable. cbn. lia. }
  assert (H4 : pack_bytes regs_s4 {[ "s" := -1 ]}
               = pack_bytes regs_s4 {[ "s" := -1; "other" := 5 ]})
    by (vm_compute; reflexivity).
  split; [exact H1|]. split; [exact H2|]. split; [exact H3|].
  split; [exact H4|].
  exact (pack_bytes_injective regs_s4 {[ "s" := -1 ]}
           {[ "s" := -1; "other" := 5 ]} H1 H2 H3 H4).
Defined.
